(** * RAMCloud coordinator: the RPC handlers of [CoordinatorServer.cc] and the
      server list exercised by [CoordinatorServerListTest.cc].

    The first part embeds [src/CoordinatorServer.cc]: the coordinator's state
    (master list, backup list, tablet map, table index, id counters) and its
    handlers, as functions from a request and a state to an outcome, a new
    state and the trace of calls made to the outside (responder, master
    client, recovery, log).

    The second part is the [CoordinatorServerList] that the test file drives.
    Its implementation is not among the sources; it is modelled from the
    specification and checked against the assertions of the test. *)

From Stdlib Require Import ZArith Lia.
From stdpp Require Import gmap strings list fin_maps.

Local Open Scope Z_scope.

(** ** Machine integers *)

Definition wrap32 (z : Z) : Z := z mod 2 ^ 32.
Definition wrap64 (z : Z) : Z := z mod 2 ^ 64.

(** [~0UL] *)
Definition ULONG_MAX : Z := 2 ^ 64 - 1.

(** ** Protocol-buffer messages *)

(** [ProtoBuf::Tablets]: a repeated field of [Tablet].  Optional fields that
    the code never sets read as their defaults (0, the empty string). *)
Module Tablets.

Inductive State := NORMAL | RECOVERING.

Record Tablet := mkTablet {
  table_id : Z;
  start_object_id : Z;
  end_object_id : Z;
  state : State;
  server_id : Z;
  service_locator : string;
  user_data : Z
}.

Definition set_state (s : State) (t : Tablet) : Tablet :=
  mkTablet (table_id t) (start_object_id t) (end_object_id t) s
           (server_id t) (service_locator t) (user_data t).

Definition set_user_data (u : Z) (t : Tablet) : Tablet :=
  mkTablet (table_id t) (start_object_id t) (end_object_id t) (state t)
           (server_id t) (service_locator t) u.

Definition State_eqb (a b : State) : bool :=
  match a, b with
  | NORMAL, NORMAL | RECOVERING, RECOVERING => true
  | _, _ => false
  end.

End Tablets.

Abbreviation Tablet := Tablets.Tablet.

(** [ProtoBuf::ServerList]: a repeated field of [Entry].  For a master,
    [user_data] holds the address of the will that [enlistServer] allocates
    with [new]; the address is stored in one entry only and travels with it,
    so the entry is given the will itself.  [None] is the unset field (a null
    pointer), as in every backup entry. *)
Module ServerList.

Inductive ServerType := MASTER | BACKUP.

Record Entry := mkEntry {
  server_type : ServerType;
  server_id : Z;
  service_locator : string;
  user_data : option (list Tablet)
}.

Definition set_user_data (w : option (list Tablet)) (e : Entry) : Entry :=
  mkEntry (server_type e) (server_id e) (service_locator e) w.

End ServerList.

Abbreviation Entry := ServerList.Entry.

(** ** Repeated-field primitives *)

Section RepeatedField.
Context {A : Type}.

(** [RepeatedPtrField::SwapElements(i, j)]; both indices are in range at
    every call site. *)
Definition SwapElements (i j : nat) (l : list A) : list A :=
  match l !! i, l !! j with
  | Some x, Some y => <[j := x]> (<[i := y]> l)
  | _, _ => l
  end.

(** [RepeatedPtrField::RemoveLast()] *)
Definition RemoveLast (l : list A) : list A := take (length l - 1)%nat l.

(** The idiom of the source: swap element [i] with the last one, then drop
    the last one. *)
Definition swapRemove (i : nat) (l : list A) : list A :=
  RemoveLast (SwapElements (length l - 1)%nat i l).

End RepeatedField.

(** ** Coordinator state, outcomes and the trace of outside calls *)

Record CoordinatorServer := mkCoordinator {
  nextServerId : Z;
  backupList : list Entry;
  masterList : list Entry;
  tabletMap : list Tablet;
  tables : gmap string Z;
  (** Modelled from the spec: [nextTableId] is declared in CoordinatorServer.h,
      which is not among the sources; section 3 gives it as a u64 counter
      starting at 0. *)
  nextTableId : Z;
  (** [mockRecovery != NULL] *)
  mockRecovery : bool
}.

Inductive Exception :=
| RetryException
| TableDoesntExistException
| UnimplementedRequestError.

Inductive LogMessage :=
| LogCreatedTable (name : string) (tableId : Z)
| LogDroppedTable (name : string) (tableId : Z)
| LogTabletsInMap (n : nat)
| LogMasterEnlisted (serverId : Z)
| LogBackupEnlisted (serverId : Z)
| LogHintServerDown (serviceLocator : string)
| LogTryingRecovery (serverId : Z) (masters backups : nat)
| LogRecovered
| TestLogCalledWith (n : nat).

(** What a handler does to the outside, in program order.  The calls are
    taken to return: what a failing transport or recovery does to a handler
    is not part of this development. *)
Inductive Event :=
| Respond
| SetTablets (serviceLocator : string) (tablets : list Tablet)
| MockRecovery (serverId : Z) (will : list Tablet) (masters backups : list Entry)
| RecoveryStart (serverId : Z) (will : list Tablet) (masters backups : list Entry)
| LOG (m : LogMessage).

Inductive Response :=
| RespEmpty
| RespTableId (tableId : Z)
| RespServerId (serverId : Z)
| RespServerList (l : list Entry)
| RespTabletMap (l : list Tablet).

(** [Undefined] is a run that dereferences a null will or indexes an empty
    repeated field. *)
Inductive Outcome :=
| Returned (r : Response)
| Thrown (e : Exception)
| Undefined.

Record Result := mkResult {
  outcome : Outcome;
  after : CoordinatorServer;
  trace : list Event
}.

(** The decoded request.  [getString] and [ProtoBuf::parseFromResponse] are
    helpers of the RPC layer, not among the sources; a request carries what
    they return on its payload. *)
Inductive Request :=
| CreateTableRpc (name : string)
| DropTableRpc (name : string)
| OpenTableRpc (name : string)
| EnlistServerRpc (serverType : ServerList.ServerType) (serviceLocator : string)
| GetBackupListRpc
| GetTabletMapRpc
| HintServerDownRpc (serviceLocator : string)
| TabletsRecoveredRpc (tablets : list Tablet)
| PingRpc
| OtherRpc (type : Z).

(** ** The handlers *)

Definition CoordinatorServer_init : CoordinatorServer :=
  mkCoordinator 1 [] [] [] ∅ 0 false.

(** The partition id that [createTable] gives the will entry it has just
    added: [will] is the will with that entry already at its end. *)
Definition maxPartitionId (will : list Tablet) : Z :=
  if decide (1 < length will)%nat
  then match will !! (length will - 2)%nat with
       | Some t => Tablets.user_data t
       | None => 0
       end
  else 0.

Definition createTable (name : string) (cs : CoordinatorServer) : Result :=
  match masterList cs with
  | [] => mkResult (Thrown RetryException) cs []
  | master :: others =>
    match tables cs !! name with
    | Some _ => mkResult (Returned RespEmpty) cs []
    | None =>
      let tableId := wrap32 (nextTableId cs) in
      let nextTableId' := wrap64 (nextTableId cs + 1) in
      let tables' := <[name := tableId]> (tables cs) in
      let tablet :=
        Tablets.mkTablet tableId 0 ULONG_MAX Tablets.NORMAL
          (ServerList.server_id master) (ServerList.service_locator master) 0 in
      let tabletMap' := tabletMap cs ++ [tablet] in
      match ServerList.user_data master with
      | None =>
        mkResult Undefined
          (mkCoordinator (nextServerId cs) (backupList cs) (masterList cs)
             tabletMap' tables' nextTableId' (mockRecovery cs)) []
      | Some will =>
        let added := Tablets.mkTablet tableId 0 ULONG_MAX Tablets.NORMAL 0 "" 0 in
        let willEntry :=
          Tablets.set_user_data (maxPartitionId (will ++ [added])) added in
        let master' := ServerList.set_user_data (Some (will ++ [willEntry])) master in
        mkResult (Returned RespEmpty)
          (mkCoordinator (nextServerId cs) (backupList cs) (master' :: others)
             tabletMap' tables' nextTableId' (mockRecovery cs))
          [SetTablets (ServerList.service_locator master) tabletMap';
           LOG (LogCreatedTable name tableId);
           LOG (LogTabletsInMap (length tabletMap'))]
      end
    end
  end.

(** The [while] loop of [dropTable]: each turn either removes one tablet or
    advances [i], so [length l] turns always suffice. *)
Fixpoint dropTablets (fuel : nat) (tableId : Z) (i : nat) (l : list Tablet)
  : list Tablet :=
  match fuel with
  | O => l
  | S fuel' =>
    match l !! i with
    | None => l
    | Some t =>
      if Tablets.table_id t =? tableId
      then dropTablets fuel' tableId i (swapRemove i l)
      else dropTablets fuel' tableId (S i) l
    end
  end.

Definition dropTable (name : string) (cs : CoordinatorServer) : Result :=
  match tables cs !! name with
  | None => mkResult (Returned RespEmpty) cs []
  | Some tableId =>
    let tables' := delete name (tables cs) in
    let tabletMap' := dropTablets (length (tabletMap cs)) tableId 0 (tabletMap cs) in
    let cs' := mkCoordinator (nextServerId cs) (backupList cs) (masterList cs)
                 tabletMap' tables' (nextTableId cs) (mockRecovery cs) in
    match masterList cs with
    | [] => mkResult Undefined cs' []
    | first :: _ =>
      mkResult (Returned RespEmpty) cs'
        [SetTablets (ServerList.service_locator first) tabletMap';
         LOG (LogDroppedTable name tableId);
         LOG (LogTabletsInMap (length tabletMap'))]
    end
  end.

Definition openTable (name : string) (cs : CoordinatorServer) : Result :=
  match tables cs !! name with
  | None => mkResult (Thrown TableDoesntExistException) cs []
  | Some tableId => mkResult (Returned (RespTableId tableId)) cs []
  end.

Definition enlistServer (serverType : ServerList.ServerType)
    (serviceLocator : string) (cs : CoordinatorServer) : Result :=
  let serverId := nextServerId cs in
  let nextServerId' := wrap64 (nextServerId cs + 1) in
  match serverType with
  | ServerList.MASTER =>
    let server := ServerList.mkEntry serverType serverId serviceLocator (Some []) in
    mkResult (Returned (RespServerId serverId))
      (mkCoordinator nextServerId' (backupList cs) (masterList cs ++ [server])
         (tabletMap cs) (tables cs) (nextTableId cs) (mockRecovery cs))
      [LOG (LogMasterEnlisted serverId)]
  | ServerList.BACKUP =>
    let server := ServerList.mkEntry serverType serverId serviceLocator None in
    mkResult (Returned (RespServerId serverId))
      (mkCoordinator nextServerId' (backupList cs ++ [server]) (masterList cs)
         (tabletMap cs) (tables cs) (nextTableId cs) (mockRecovery cs))
      [LOG (LogBackupEnlisted serverId)]
  end.

Definition getBackupList (cs : CoordinatorServer) : Result :=
  mkResult (Returned (RespServerList (backupList cs))) cs [].

Definition getTabletMap (cs : CoordinatorServer) : Result :=
  mkResult (Returned (RespTabletMap (tabletMap cs))) cs [].

(** The two [for] loops of [hintServerDown] stop at the first entry whose
    locator is the hinted one; this is its index. *)
Fixpoint findLocator (serviceLocator : string) (i : nat) (l : list Entry)
  : option (nat * Entry) :=
  match l with
  | [] => None
  | e :: l' =>
    if String.eqb (ServerList.service_locator e) serviceLocator
    then Some (i, e)
    else findLocator serviceLocator (S i) l'
  end.

Definition markRecovering (serverId : Z) (tablet : Tablet) : Tablet :=
  if Tablets.server_id tablet =? serverId
  then Tablets.set_state Tablets.RECOVERING tablet
  else tablet.

Definition hintServerDown (serviceLocator : string) (cs : CoordinatorServer)
  : Result :=
  let pre := [Respond; LOG (LogHintServerDown serviceLocator)] in
  match findLocator serviceLocator 0 (masterList cs) with
  | Some (i, master) =>
    let serverId := ServerList.server_id master in
    let masterList' := swapRemove i (masterList cs) in
    let tabletMap' := map (markRecovering serverId) (tabletMap cs) in
    let cs' := mkCoordinator (nextServerId cs) (backupList cs) masterList'
                 tabletMap' (tables cs) (nextTableId cs) (mockRecovery cs) in
    match ServerList.user_data master with
    | None => mkResult Undefined cs' pre
    | Some will =>
      if mockRecovery cs
      then mkResult (Returned RespEmpty) cs'
             (pre ++ [MockRecovery serverId will masterList' (backupList cs)])
      else mkResult (Returned RespEmpty) cs'
             (pre ++ [LOG (LogTryingRecovery serverId (length masterList')
                             (length (backupList cs)));
                      RecoveryStart serverId will masterList' (backupList cs);
                      LOG LogRecovered])
    end
  | None =>
    match findLocator serviceLocator 0 (backupList cs) with
    | Some (i, backup) =>
      mkResult (Returned RespEmpty)
        (mkCoordinator (nextServerId cs) (swapRemove i (backupList cs))
           (masterList cs) (tabletMap cs) (tables cs) (nextTableId cs)
           (mockRecovery cs))
        pre
    | None => mkResult (Returned RespEmpty) cs pre
    end
  end.

Definition tabletsRecovered (tablets : list Tablet) (cs : CoordinatorServer)
  : Result :=
  mkResult (Returned RespEmpty) cs [LOG (TestLogCalledWith (length tablets))].

(** [Server::ping] *)
Definition ping (cs : CoordinatorServer) : Result :=
  mkResult (Returned RespEmpty) cs [].

Definition dispatch (rpc : Request) (cs : CoordinatorServer) : Result :=
  match rpc with
  | CreateTableRpc name => createTable name cs
  | DropTableRpc name => dropTable name cs
  | OpenTableRpc name => openTable name cs
  | EnlistServerRpc serverType serviceLocator =>
      enlistServer serverType serviceLocator cs
  | GetBackupListRpc => getBackupList cs
  | GetTabletMapRpc => getTabletMap cs
  | HintServerDownRpc serviceLocator => hintServerDown serviceLocator cs
  | TabletsRecoveredRpc tablets => tabletsRecovered tablets cs
  | PingRpc => ping cs
  | OtherRpc _ => mkResult (Thrown UnimplementedRequestError) cs []
  end.

(** [mockRecovery] is a member that a test points at its mock, or back at
    NULL, between requests. *)
Definition set_mockRecovery (mock : bool) (cs : CoordinatorServer)
  : CoordinatorServer :=
  mkCoordinator (nextServerId cs) (backupList cs) (masterList cs) (tabletMap cs)
    (tables cs) (nextTableId cs) mock.

(** The states the coordinator can be in: those that [run] reaches from the
    constructor's state, one dispatched request after another, with or
    without a mock in place of the recovery. *)
Inductive reachable : CoordinatorServer -> Prop :=
| reachable_init : reachable CoordinatorServer_init
| reachable_step rpc cs :
    reachable cs ->
    outcome (dispatch rpc cs) <> Undefined ->
    reachable (after (dispatch rpc cs))
| reachable_mock mock cs :
    reachable cs ->
    reachable (set_mockRecovery mock cs).

(** A straight run of requests; [None] as soon as one of them is undefined. *)
Fixpoint run (rpcs : list Request) (cs : CoordinatorServer)
  : option CoordinatorServer :=
  match rpcs with
  | [] => Some cs
  | rpc :: rest =>
    match outcome (dispatch rpc cs) with
    | Undefined => None
    | _ => run rest (after (dispatch rpc cs))
    end
  end.

(** Largest [user_data] (partition id) of a will, 0 for the empty will. *)
Definition maxUserData (will : list Tablet) : Z :=
  foldr (fun t acc => Z.max (Tablets.user_data t) acc) 0 will.

(** The last entry of a will carries the largest partition id in it. *)
Definition lastIsMax (will : list Tablet) : Prop :=
  forall t, last will = Some t -> Tablets.user_data t = maxUserData will.

(** Every master owns a will, and each will ends on its largest partition
    id. *)
Definition willsCoherent (cs : CoordinatorServer) : Prop :=
  Forall (fun e => exists will,
            ServerList.user_data e = Some will /\ lastIsMax will)
         (masterList cs).

Definition isRecoveryCall (e : Event) : bool :=
  match e with
  | MockRecovery _ _ _ _ | RecoveryStart _ _ _ _ => true
  | _ => false
  end.

Definition isSetTablets (e : Event) : bool :=
  match e with
  | SetTablets _ _ => true
  | _ => false
  end.

(** ** Notions used in the statements *)

(** The tablets that the loop of [dropTable] keeps. *)
Definition otherTable (tableId : Z) (t : Tablet) : Prop :=
  Tablets.table_id t <> tableId.

#[local] Instance otherTable_dec tableId t : Decision (otherTable tableId t).
Proof. unfold otherTable. apply _. Defined.

(** ** Scenarios *)

(** Two masters enlist, table "t" is created on the first one, and the first
    master is then hinted down (scenario S5 up to the recovery). *)
Definition twoMasters : list Request :=
  [EnlistServerRpc ServerList.MASTER "mock:host=m1";
   EnlistServerRpc ServerList.MASTER "mock:host=m2"].

Definition csTwoMasters : CoordinatorServer :=
  mkCoordinator 3 []
    [ServerList.mkEntry ServerList.MASTER 1 "mock:host=m1" (Some []);
     ServerList.mkEntry ServerList.MASTER 2 "mock:host=m2" (Some [])]
    [] ∅ 0 false.

Definition tabletOfT (st : Tablets.State) (serverId : Z) (locator : string)
  : Tablet :=
  Tablets.mkTablet 0 0 18446744073709551615 st serverId locator 0.

Definition csTableT : CoordinatorServer :=
  mkCoordinator 3 []
    [ServerList.mkEntry ServerList.MASTER 1 "mock:host=m1"
       (Some [tabletOfT Tablets.NORMAL 0 ""]);
     ServerList.mkEntry ServerList.MASTER 2 "mock:host=m2" (Some [])]
    [tabletOfT Tablets.NORMAL 1 "mock:host=m1"]
    {["t" := 0]} 1 false.

Definition csM1Down : CoordinatorServer :=
  mkCoordinator 3 []
    [ServerList.mkEntry ServerList.MASTER 2 "mock:host=m2" (Some [])]
    [tabletOfT Tablets.RECOVERING 1 "mock:host=m1"]
    {["t" := 0]} 1 false.

(** Section 4.2 has [createTable] choose the "first UP master in slot
    order".  A slot is the index part of a server's id (section 3) and the
    masters that are up are those of [masterList], so this is the master of
    the list with the least id. *)
Definition firstInSlotOrder (l : list Entry) : option Entry :=
  foldr (fun e acc =>
           match acc with
           | Some m => if ServerList.server_id e <=? ServerList.server_id m
                       then Some e else Some m
           | None => Some e
           end) None l.

(** The ids of [l] go up from [lo] on. *)
Fixpoint ascendingFrom (lo : Z) (l : list Entry) : Prop :=
  match l with
  | [] => True
  | e :: l' => lo <= ServerList.server_id e
               /\ ascendingFrom (ServerList.server_id e + 1) l'
  end.

(** After [n] requests none of which was a [hintServerDown]: the masters
    stand in the order in which they enlisted. *)
Definition mastersInOrder (n : Z) (cs : CoordinatorServer) : Prop :=
  1 <= nextServerId cs <= 1 + n
  /\ ascendingFrom 1 (masterList cs)
  /\ Forall (fun e => ServerList.server_id e < nextServerId cs) (masterList cs).

Definition isHintServerDown (rpc : Request) : bool :=
  match rpc with
  | HintServerDownRpc _ => true
  | _ => false
  end.

(** Three masters enlist and the first is hinted down: the last one takes
    its place at the head of the list. *)
Definition requestsLastPromoted : list Request :=
  [EnlistServerRpc ServerList.MASTER "mock:host=m1";
   EnlistServerRpc ServerList.MASTER "mock:host=m2";
   EnlistServerRpc ServerList.MASTER "mock:host=m3";
   HintServerDownRpc "mock:host=m1"].

Definition csLastPromoted : CoordinatorServer :=
  mkCoordinator 4 []
    [ServerList.mkEntry ServerList.MASTER 3 "mock:host=m3" (Some []);
     ServerList.mkEntry ServerList.MASTER 2 "mock:host=m2" (Some [])]
    [] ∅ 0 false.

(** A state whose first master has a will over two partitions, 2 and 5.  No
    request builds such a will ([createTable] stays in partition 0); it is the
    input on which the partition id that [createTable] computes is not 0. *)
Definition csPartitioned : CoordinatorServer :=
  mkCoordinator 3 []
    [ServerList.mkEntry ServerList.MASTER 1 "mock:host=m1"
       (Some [Tablets.mkTablet 0 0 ULONG_MAX Tablets.NORMAL 0 "" 2;
              Tablets.mkTablet 1 0 ULONG_MAX Tablets.NORMAL 0 "" 5]);
     ServerList.mkEntry ServerList.MASTER 2 "mock:host=m2" (Some [])]
    [Tablets.mkTablet 0 0 ULONG_MAX Tablets.NORMAL 1 "mock:host=m1" 0;
     Tablets.mkTablet 1 0 ULONG_MAX Tablets.NORMAL 1 "mock:host=m1" 0]
    {["t" := 0; "s" := 1]} 2 false.

(** The key range of a tablet, and the ranges of the tablets of a map that
    are RECOVERING. *)
Definition rangeOf (t : Tablet) : Z * Z * Z :=
  (Tablets.table_id t, Tablets.start_object_id t, Tablets.end_object_id t).

Definition recoveringRanges (tablets : list Tablet) : list (Z * Z * Z) :=
  map rangeOf
    (List.filter (fun t => Tablets.State_eqb (Tablets.state t) Tablets.RECOVERING)
       tablets).

(** * The coordinator's server list *)

(** Modelled from the spec: CoordinatorServerList.cc and its header are not
    among the sources, only the test that drives them.  The definitions of
    this module follow sections 3, 4.1 and 4.3 of the specification; the
    names of fields and operations are those the test uses.  Where the test
    reads a value that the specification has otherwise, the test is followed
    and the place is marked: the slot's generation counter ([add], [remove])
    and the version of a recipient that has acknowledged nothing
    ([lastKnown]). *)
Module CoordinatorServerList.

(** Modelled from the spec: [ServerId] is the pair (slot index, generation);
    (0, 0) is the invalid id. *)
Record ServerId := mkServerId {
  indexNumber : nat;
  generationNumber : Z
}.

#[global] Instance ServerId_eq_dec : EqDecision ServerId.
Proof. solve_decision. Defined.

(** Modelled from the spec: "ServerId(0,0) is reserved as invalid". *)
Definition invalidServerId : ServerId := mkServerId 0 0.

(** Modelled from the spec: the updater tracks a version per recipient; this
    is the key under which it files what it knows of one. *)
Definition idKey (id : ServerId) : nat * Z :=
  (indexNumber id, generationNumber id).

(** Modelled from the spec: the capability enumeration of section 3, under
    the names the test gives its members. *)
Inductive Service :=
| MASTER_SERVICE | BACKUP_SERVICE | MEMBERSHIP_SERVICE | PING_SERVICE.

(** Modelled from the spec: [ServiceMask] is a set of capabilities,
    "serialized as a bitmask"; it is kept in that form, one bit a
    capability. *)
Definition serviceBit (s : Service) : Z :=
  match s with
  | MASTER_SERVICE => 0
  | BACKUP_SERVICE => 1
  | MEMBERSHIP_SERVICE => 2
  | PING_SERVICE => 3
  end.

Definition ServiceMask := Z.

Definition mask (l : list Service) : ServiceMask :=
  foldr (fun s m => Z.lor (Z.shiftl 1 (serviceBit s)) m) 0 l.

Definition has (m : ServiceMask) (s : Service) : bool :=
  Z.testbit m (serviceBit s).

Definition intersects (m filterMask : ServiceMask) : bool :=
  negb (Z.land m filterMask =? 0).

(** Modelled from the spec: section 3, with the wire values of section 6. *)
Inductive ServerStatus := UP | CRASHED | DOWN.

#[global] Instance ServerStatus_eq_dec : EqDecision ServerStatus.
Proof. solve_decision. Defined.

(** Modelled from the spec: "ServerStatus: UP=0, CRASHED=1, DOWN=2". *)
Definition statusWire (s : ServerStatus) : Z :=
  match s with UP => 0 | CRASHED => 1 | DOWN => 2 end.

(** Modelled from the spec: the per-server record of section 3. *)
Record Entry := mkEntry {
  serverId : ServerId;
  serviceLocator : string;
  services : ServiceMask;
  expectedReadMBytesPerSec : Z;
  status : ServerStatus;
  will : option (list Tablet);
  logCabinEntryId : Z
}.

Definition isMaster (e : Entry) : bool := has (services e) MASTER_SERVICE.
Definition isBackup (e : Entry) : bool := has (services e) BACKUP_SERVICE.

Definition setStatus (s : ServerStatus) (e : Entry) : Entry :=
  mkEntry (serverId e) (serviceLocator e) (services e)
    (expectedReadMBytesPerSec e) s (will e) (logCabinEntryId e).

(** Modelled from the spec: one record of a delta or of a snapshot, an
    entry as it is serialized under a given status; the fields are those
    the test reads back. *)
Record ProtoBufEntry := mkProtoBufEntry {
  pb_services : ServiceMask;
  pb_server_id : ServerId;
  pb_service_locator : string;
  pb_expected_read_mbytes_per_sec : Z;
  pb_status : ServerStatus
}.

Definition serializeEntry (e : Entry) (s : ServerStatus) : ProtoBufEntry :=
  mkProtoBufEntry (services e) (serverId e) (serviceLocator e)
    (expectedReadMBytesPerSec e) s.

(** Modelled from the spec: a slot holds an optional entry and the
    generation counter [nextGenerationNumber] (u32, initially 0). *)
Record Slot := mkSlot {
  entry : option Entry;
  nextGenerationNumber : Z
}.

Definition emptySlot : Slot := mkSlot None 0.

(** Modelled from the spec: what a tracker is told of, and a tracker as the
    queue of what it has been told. *)
Inductive ServerChangeEvent := SERVER_ADDED | SERVER_CRASHED | SERVER_REMOVED.

Definition Tracker := list (ProtoBufEntry * ServerChangeEvent).

(** Modelled from the spec: a message of the updater's queue carries a
    delta, the recipients to leave out and the version the delta leads to
    (section 4.3). *)
Record Message := mkMessage {
  update : list ProtoBufEntry;
  version_number : Z;
  excluded : list ServerId
}.

(** Modelled from the spec: the server list of section 3 (slots, counters,
    version, pending delta), its trackers, and the updater's queue and
    per-recipient bookkeeping of section 4.3. *)
Record State := mkState {
  serverList : list Slot;
  numberOfMasters : Z;
  numberOfBackups : Z;
  version : Z;
  updates : list ProtoBufEntry;
  trackers : list Tracker;
  msgQueue : list Message;
  (** the version each recipient has last acknowledged; no entry for a
      recipient that has acknowledged nothing *)
  acked : gmap (nat * Z) Z;
  (** recipients whose transport failed, to be retried *)
  unreachable : list ServerId
}.

Definition empty : State := mkState [] 0 0 0 [] [] [] ∅ [].

(** Modelled from the spec: section 7; a status transition other than
    UP, CRASHED, DOWN in that order is an invariant violation. *)
Inductive Error := InvalidServerId | InvariantViolation.

Inductive Outcome (A : Type) :=
| Ok (a : A)
| Fail (e : Error).
Arguments Ok {A} a.
Arguments Fail {A} e.

Definition with_serverList (slots : list Slot) (sl : State) : State :=
  mkState slots (numberOfMasters sl) (numberOfBackups sl) (version sl)
    (updates sl) (trackers sl) (msgQueue sl) (acked sl) (unreachable sl).

(** Modelled from the spec: a transition appends its record to the pending
    delta and is reported to every tracker. *)
Definition emit (r : ProtoBufEntry) (ev : ServerChangeEvent) (sl : State) : State :=
  mkState (serverList sl) (numberOfMasters sl) (numberOfBackups sl) (version sl)
    (updates sl ++ [r]) (map (fun t => t ++ [(r, ev)]) (trackers sl))
    (msgQueue sl) (acked sl) (unreachable sl).

(** Modelled from the spec: the counters follow the entries that are up,
    one per capability. *)
Definition countServices (delta : Z) (e : Entry) (sl : State) : State :=
  mkState (serverList sl)
    (if isMaster e then wrap32 (numberOfMasters sl + delta) else numberOfMasters sl)
    (if isBackup e then wrap32 (numberOfBackups sl + delta) else numberOfBackups sl)
    (version sl) (updates sl) (trackers sl) (msgQueue sl) (acked sl)
    (unreachable sl).

(** Modelled from the spec: the lowest index, from [i] on, of a slot without
    an entry; [slots] is the part of the vector that starts at index [i]. *)
Fixpoint findFree (i : nat) (slots : list Slot) : option nat :=
  match slots with
  | [] => None
  | s :: rest =>
    match entry s with
    | None => Some i
    | Some _ => findFree (S i) rest
    end
  end.

(** Modelled from the spec: "the lowest free slot index >= 1 (index 0
    reserved), growing the backing vector if needed". *)
Definition firstFreeIndex (slots : list Slot) : nat * list Slot :=
  match findFree 1 (drop 1 slots) with
  | Some i => (i, slots)
  | None =>
    let i := Nat.max 1 (length slots) in
    (i, slots ++ replicate (i + 1 - length slots) emptySlot)
  end.

(** Modelled from the spec: section 4.1, [add].  The id takes the slot's
    [nextGenerationNumber] as its generation, and the counter is advanced
    here, as the id is issued: the test reads [nextGenerationNumber] as 1
    right after the first [add] into slots 1 and 2 (lines 125 and 145).
    Section 4.1 has the counter advanced in [remove] instead. *)
Definition add (locator : string) (svc : ServiceMask) (readMBytesPerSec : Z)
    (sl : State) : ServerId * State :=
  let '(index, slots) := firstFreeIndex (serverList sl) in
  let generation :=
    match slots !! index with
    | Some s => nextGenerationNumber s
    | None => 0
    end in
  let id := mkServerId index generation in
  let e := mkEntry id locator svc
             (if has svc BACKUP_SERVICE then readMBytesPerSec else 0)
             UP
             (if has svc MASTER_SERVICE then Some [] else None)
             0 in
  let sl1 := with_serverList
               (<[index := mkSlot (Some e) (wrap32 (generation + 1))]> slots) sl in
  let sl2 := countServices 1 e sl1 in
  (id, emit (serializeEntry e UP) SERVER_ADDED sl2).

(** Modelled from the spec: an id names the entry of its slot, if the slot
    has one and it carries that very id ("slot empty, generation mismatch,
    or serverId zero" otherwise). *)
Definition getReferenceFromServerId (id : ServerId) (sl : State) : option Entry :=
  match serverList sl !! indexNumber id with
  | Some (mkSlot (Some e) _) => if decide (serverId e = id) then Some e else None
  | _ => None
  end.

(** Modelled from the spec: replaces the entry of slot [i], the counter of
    the slot staying as it is. *)
Definition setEntry (i : nat) (e : option Entry) (sl : State) : State :=
  match serverList sl !! i with
  | Some s =>
    with_serverList (<[i := mkSlot e (nextGenerationNumber s)]> (serverList sl)) sl
  | None => sl
  end.

(** Modelled from the spec: section 4.1, [crashed]. *)
Definition crashed (id : ServerId) (sl : State) : Outcome State :=
  match getReferenceFromServerId id sl with
  | None => Fail InvalidServerId
  | Some e =>
    match status e with
    | CRASHED => Ok sl
    | DOWN => Fail InvariantViolation
    | UP =>
      let sl1 := setEntry (indexNumber id) (Some (setStatus CRASHED e)) sl in
      let sl2 := countServices (-1) e sl1 in
      Ok (emit (serializeEntry e CRASHED) SERVER_CRASHED sl2)
    end
  end.

(** Modelled from the spec: section 4.1, [remove]: the effect of [crashed]
    if the entry is up, a DOWN record, the slot emptied.  The slot's counter
    stays as [add] left it: in the test (lines 223 to 244) the id issued for
    slot 1 after ServerId(1, 0) has been removed is ServerId(1, 1), and
    ServerId(1, 2) names nothing, so [remove] has not advanced the counter
    that [add] had already taken to 1. *)
Definition remove (id : ServerId) (sl : State) : Outcome State :=
  match getReferenceFromServerId id sl with
  | None => Fail InvalidServerId
  | Some e =>
    match (match status e with UP => crashed id sl | _ => Ok sl end) with
    | Fail err => Fail err
    | Ok sl1 =>
      let sl2 := emit (serializeEntry e DOWN) SERVER_REMOVED sl1 in
      Ok (setEntry (indexNumber id) None sl2)
    end
  end.

(** Modelled from the spec: section 4.1, [serialize]: the entries whose
    services meet the filter, crashed ones included, in slot order. *)
Definition serialize (filterMask : ServiceMask) (sl : State) : list ProtoBufEntry :=
  omap (fun s =>
          match entry s with
          | Some e => if intersects (services e) filterMask
                      then Some (serializeEntry e (status e)) else None
          | None => None
          end) (serverList sl).

(** Modelled from the spec: a tracker, on registration, is told of every
    live entry. *)
Definition registerTracker (sl : State) : State :=
  let backfill :=
    omap (fun s => match entry s with
                   | Some e => Some (serializeEntry e (status e), SERVER_ADDED)
                   | None => None
                   end) (serverList sl) in
  mkState (serverList sl) (numberOfMasters sl) (numberOfBackups sl) (version sl)
    (updates sl) (trackers sl ++ [backfill]) (msgQueue sl) (acked sl)
    (unreachable sl).

(** Modelled from the spec: the batch of pending transitions is committed
    under the next version and queued for the updater. *)
Definition sendMembershipUpdate (excludeServerIds : list ServerId) (sl : State)
  : State :=
  let version' := wrap64 (version sl + 1) in
  mkState (serverList sl) (numberOfMasters sl) (numberOfBackups sl) version'
    [] (trackers sl)
    (msgQueue sl ++ [mkMessage (updates sl) version' excludeServerIds])
    (acked sl) (unreachable sl).

(** *** The updater *)

(** Modelled from the spec: the two pushes of section 4.3, the delta and
    the whole list, and the answers to them. *)
Inductive Rpc :=
| UpdateServerList (to : ServerId) (delta : list ProtoBufEntry) (v : Z)
| SetServerList (to : ServerId) (full : list ProtoBufEntry) (v : Z).

Definition recipient (r : Rpc) : ServerId :=
  match r with
  | UpdateServerList to _ _ | SetServerList to _ _ => to
  end.

Inductive Reply := ReplyOk | ReplyLostUpdate | TransportFailure.

(** Modelled from the spec: the updater's bookkeeping, with what it has
    sent so far and the replies the transport is still to give, in order. *)
Record Updater := mkUpdater {
  u_acked : gmap (nat * Z) Z;
  u_unreachable : list ServerId;
  u_sent : list Rpc;
  u_replies : list Reply
}.

(** Modelled from the spec: the recipient's last-known version.  A
    recipient that has acknowledged nothing yet stands at version 0: scenario
    S4 has such a subscriber "at version 0", and in the test (lines 406 to
    424) servers 5 and 4, neither of which has been sent anything before, are
    sent the update of version 1 itself, not the list.  The words "including
    first-contact" of section 4.3 are not followed: the test has it
    otherwise. *)
Definition lastKnown (id : ServerId) (u : Updater) : Z :=
  default 0 (u_acked u !! idKey id).

Definition nextReply (u : Updater) : Reply * list Reply :=
  match u_replies u with
  | [] => (TransportFailure, [])
  | r :: rest => (r, rest)
  end.

(** Modelled from the spec: one RPC sent and the reply to it taken; no
    reply left is a transport failure. *)
Definition call (rpc : Rpc) (u : Updater) : Reply * Updater :=
  let '(r, rest) := nextReply u in
  (r, mkUpdater (u_acked u) (u_unreachable u) (u_sent u ++ [rpc]) rest).

(** Modelled from the spec: "on ok, it records the new version for that
    recipient"; on transport failure it "marks the recipient as
    unreachable". *)
Definition record (id : ServerId) (v : Z) (u : Updater) : Updater :=
  mkUpdater (<[idKey id := v]> (u_acked u)) (u_unreachable u) (u_sent u)
    (u_replies u).

Definition markUnreachable (id : ServerId) (u : Updater) : Updater :=
  mkUpdater (u_acked u) (u_unreachable u ++ [id]) (u_sent u) (u_replies u).

Definition allServices : ServiceMask :=
  mask [MASTER_SERVICE; BACKUP_SERVICE; MEMBERSHIP_SERVICE; PING_SERVICE].

(** Modelled from the spec: the full-list push, a snapshot of the list under
    its current version. *)
Definition pushFullList (id : ServerId) (sl : State) (u : Updater) : Updater :=
  let '(r, u1) :=
    call (SetServerList id (serialize allServices sl) (version sl)) u in
  match r with
  | TransportFailure => markUnreachable id u1
  | _ => record id (version sl) u1
  end.

(** Modelled from the spec: section 4.3, "protocol per recipient". *)
Definition sendTo (id : ServerId) (m : Message) (sl : State) (u : Updater)
  : Updater :=
  if lastKnown id u =? version_number m - 1
  then
    let '(r, u1) := call (UpdateServerList id (update m) (version_number m)) u in
    match r with
    | ReplyOk => record id (version_number m) u1
    | ReplyLostUpdate => pushFullList id sl u1
    | TransportFailure => markUnreachable id u1
    end
  else pushFullList id sl u.

(** Modelled from the spec: "each UP entry whose services includes
    MEMBERSHIP and which is not excluded". *)
Definition isRecipient (m : Message) (e : Entry) : bool :=
  match status e with
  | UP => has (services e) MEMBERSHIP_SERVICE
          && bool_decide (serverId e ∉ excluded m)
  | _ => false
  end.

(** Modelled from the spec: the entries an update goes to, in slot order. *)
Definition recipients (m : Message) (sl : State) : list Entry :=
  omap (fun s => match entry s with
                 | Some e => if isRecipient m e then Some e else None
                 | None => None
                 end) (serverList sl).

(** Modelled from the spec: dispatch of one message to all its recipients. *)
Definition dispatchUpdate (m : Message) (sl : State) (u : Updater) : Updater :=
  foldl (fun u e => sendTo (serverId e) m sl u) u (recipients m sl).

(** Modelled from the spec: the queue is drained first in, first out;
    [sync] returns once it is empty, here with the RPCs that were sent. *)
Fixpoint drain (queue : list Message) (sl : State) (u : Updater) : Updater :=
  match queue with
  | [] => u
  | m :: rest => drain rest sl (dispatchUpdate m sl u)
  end.

Definition sync (replies : list Reply) (sl : State) : State * list Rpc :=
  let u := drain (msgQueue sl) sl
             (mkUpdater (acked sl) (unreachable sl) [] replies) in
  (mkState (serverList sl) (numberOfMasters sl) (numberOfBackups sl)
     (version sl) (updates sl) (trackers sl) [] (u_acked u) (u_unreachable u),
   u_sent u).

(** Modelled from the spec: the operations of sections 4.1 and 4.3 as data,
    and a run of them; an operation that fails leaves the list as it was. *)
Inductive Op :=
| OpAdd (locator : string) (svc : ServiceMask) (readMBytesPerSec : Z)
| OpCrashed (id : ServerId)
| OpRemove (id : ServerId)
| OpRegisterTracker
| OpSendMembershipUpdate (excludeServerIds : list ServerId)
| OpSync (replies : list Reply).

Definition orElse (sl : State) (o : Outcome State) : State :=
  match o with Ok sl' => sl' | Fail _ => sl end.

Definition step (op : Op) (sl : State) : State :=
  match op with
  | OpAdd locator svc mb => snd (add locator svc mb sl)
  | OpCrashed id => orElse sl (crashed id sl)
  | OpRemove id => orElse sl (remove id sl)
  | OpRegisterTracker => registerTracker sl
  | OpSendMembershipUpdate ex => sendMembershipUpdate ex sl
  | OpSync replies => fst (sync replies sl)
  end.

Definition runOps (ops : list Op) (sl : State) : State :=
  foldl (fun sl op => step op sl) sl ops.

End CoordinatorServerList.

Module CSL := CoordinatorServerList.

(** ** Notions used in the statements about the server list *)

(** [update.Clear()] and [sl.version = v], as the test does them. *)
Definition clearUpdates (sl : CSL.State) : CSL.State :=
  CSL.mkState (CSL.serverList sl) (CSL.numberOfMasters sl) (CSL.numberOfBackups sl)
    (CSL.version sl) [] (CSL.trackers sl) (CSL.msgQueue sl) (CSL.acked sl)
    (CSL.unreachable sl).

Definition setVersion (v : Z) (sl : CSL.State) : CSL.State :=
  CSL.mkState (CSL.serverList sl) (CSL.numberOfMasters sl) (CSL.numberOfBackups sl)
    v (CSL.updates sl) (CSL.trackers sl) (CSL.msgQueue sl) (CSL.acked sl)
    (CSL.unreachable sl).

Definition slotEntry (i : nat) (sl : CSL.State) : option CSL.Entry :=
  CSL.serverList sl !! i ≫= CSL.entry.

(** What [crashed] does to an entry that is up. *)
Definition crashedUp (id : CSL.ServerId) (e : CSL.Entry) (sl : CSL.State)
  : CSL.State :=
  CSL.emit (CSL.serializeEntry e CSL.CRASHED) CSL.SERVER_CRASHED
    (CSL.countServices (-1) e
       (CSL.setEntry (CSL.indexNumber id) (Some (CSL.setStatus CSL.CRASHED e)) sl)).

(** Every slot's counter is a u32, an entry carries the index of its slot
    and the generation before the slot's counter, and slot 0 has no entry. *)
Definition coherentSlots (slots : list CSL.Slot) : Prop :=
  forall i s, slots !! i = Some s ->
    0 <= CSL.nextGenerationNumber s < 2 ^ 32
    /\ forall e, CSL.entry s = Some e ->
         i <> 0%nat
         /\ CSL.indexNumber (CSL.serverId e) = i
         /\ 0 <= CSL.generationNumber (CSL.serverId e) < 2 ^ 32
         /\ CSL.nextGenerationNumber s
            = wrap32 (CSL.generationNumber (CSL.serverId e) + 1).

(** The lists that the operations build from the empty one. *)
Definition listReachable (sl : CSL.State) : Prop :=
  exists ops, sl = CSL.runOps ops CSL.empty.

(** What [remove] does once the entry is no longer up. *)
Definition removeCrashed (id : CSL.ServerId) (e : CSL.Entry) (sl : CSL.State)
  : CSL.State :=
  CSL.setEntry (CSL.indexNumber id) None
    (CSL.emit (CSL.serializeEntry e CSL.DOWN) CSL.SERVER_REMOVED sl).

(** [slots'] has every slot of [slots], each with its counter advanced at
    most [n] times, and at least once if the slot was empty and is taken. *)
Definition advancedBy (n : nat) (slots slots' : list CSL.Slot) : Prop :=
  forall i s, slots !! i = Some s ->
    exists s' j, (j <= n)%nat /\ slots' !! i = Some s'
      /\ CSL.nextGenerationNumber s'
         = wrap32 (CSL.nextGenerationNumber s + Z.of_nat j)
      /\ (CSL.entry s = None -> is_Some (CSL.entry s') -> (1 <= j)%nat).

(** One server enlists and is removed again. *)
Definition recycle (sl : CSL.State) : CSL.State :=
  let '(id, sl1) := CSL.add "" (CSL.mask []) 0 sl in
  CSL.orElse sl1 (CSL.remove id sl1).

(** The list of the test [remove]: one master added. *)
Definition slOneMaster : CSL.State :=
  CSL.runOps [CSL.OpAdd "hi!" (CSL.mask [CSL.MASTER_SERVICE]) 100] CSL.empty.

Definition entryOneMaster : CSL.Entry :=
  CSL.mkEntry (CSL.mkServerId 1 0) "hi!" (CSL.mask [CSL.MASTER_SERVICE]) 0 CSL.UP
    (Some []) 0.

(** The RPCs of [sent] that went to [id]. *)
Definition sentTo (id : CSL.ServerId) (sent : list CSL.Rpc) : list CSL.Rpc :=
  List.filter (fun rpc => bool_decide (CSL.recipient rpc = id)) sent.

(** The reply that the transport gives to the RPC after the next [k]; a
    transport failure when it has none left. *)
Definition replyAt (k : nat) (u : CSL.Updater) : CSL.Reply :=
  default CSL.TransportFailure (CSL.u_replies u !! k).

(** What section 4.3 has the updater send to a recipient that it knows at
    version [known], when the transport's answer to the first RPC is [r]. *)
Definition expectedRpcs (id : CSL.ServerId) (m : CSL.Message) (sl : CSL.State)
    (known : Z) (r : CSL.Reply) : list CSL.Rpc :=
  let incremental := CSL.UpdateServerList id (CSL.update m) (CSL.version_number m) in
  let fullList := CSL.SetServerList id (CSL.serialize CSL.allServices sl)
                    (CSL.version sl) in
  if decide (known = CSL.version_number m - 1)
  then match r with
       | CSL.ReplyLostUpdate => [incremental; fullList]
       | _ => [incremental]
       end
  else [fullList].

(** What section 4.3 has the updater record for that recipient afterwards,
    [r2] being the transport's answer to the second RPC if there is one: the
    delta's version on ok, the list's version when a list has been answered,
    and what it had on a transport failure. *)
Definition expectedVersion (m : CSL.Message) (sl : CSL.State)
    (known : Z) (r r2 : CSL.Reply) : Z :=
  if decide (known = CSL.version_number m - 1)
  then match r with
       | CSL.ReplyOk => CSL.version_number m
       | CSL.ReplyLostUpdate =>
           match r2 with
           | CSL.TransportFailure => known
           | _ => CSL.version sl
           end
       | CSL.TransportFailure => known
       end
  else match r with
       | CSL.TransportFailure => known
       | _ => CSL.version sl
       end.

Definition sendAll (m : CSL.Message) (sl : CSL.State) (l : list CSL.Entry)
    (u : CSL.Updater) : CSL.Updater :=
  foldl (fun u e => CSL.sendTo (CSL.serverId e) m sl u) u l.

(** The list of the test [sendMembershipUpdate] as line 418 leaves it:
    server 5 in slot 1, server 4 in slot 4, nothing sent to anyone so far,
    and the update of version 1 queued. *)
Definition slTestUpdate : CSL.State :=
  let membership := CSL.mask [CSL.MEMBERSHIP_SERVICE] in
  let sl1 := clearUpdates
               (CSL.runOps
                  [CSL.OpAdd "mock:host=server1" membership 0;
                   CSL.OpAdd "mock:host=server2" (CSL.mask []) 0;
                   CSL.OpCrashed (CSL.mkServerId 2 0);
                   CSL.OpAdd "mock:host=server3" (CSL.mask []) 0;
                   CSL.OpAdd "mock:host=server4" membership 0;
                   CSL.OpRemove (CSL.mkServerId 1 0)] CSL.empty) in
  let sl2 := fst (CSL.sync [] (CSL.sendMembershipUpdate [CSL.mkServerId 4 0] sl1)) in
  let sl3 := snd (CSL.add "mock:host=server5" membership 0 sl2) in
  CSL.sendMembershipUpdate [] (setVersion 0 (clearUpdates sl3)).

(** Two subscribers and their additions committed as version 1. *)
Definition slTwoSubscribers : CSL.State :=
  CSL.runOps
    [CSL.OpAdd "mock:host=server5" (CSL.mask [CSL.MEMBERSHIP_SERVICE]) 0;
     CSL.OpAdd "mock:host=server4" (CSL.mask [CSL.MEMBERSHIP_SERVICE]) 0;
     CSL.OpSendMembershipUpdate []] CSL.empty.

Definition firstUpdate : CSL.Message :=
  CSL.mkMessage
    [CSL.mkProtoBufEntry (CSL.mask [CSL.MEMBERSHIP_SERVICE]) (CSL.mkServerId 1 0)
       "mock:host=server5" 0 CSL.UP;
     CSL.mkProtoBufEntry (CSL.mask [CSL.MEMBERSHIP_SERVICE]) (CSL.mkServerId 2 0)
       "mock:host=server4" 0 CSL.UP] 1 [].

(** ** Notions used in the further properties of the coordinator *)

Definition serverIds (l : list Entry) : list Z := ServerList.server_id <$> l.

(** The ids that [tables] gives out, one per name. *)
Definition tableIds (cs : CoordinatorServer) : list Z :=
  (map_to_list (tables cs)).*2.

(** After [n] requests: the id counter has not gone past [1 + n], every
    enlisted server carries an id below the counter, no id is carried twice,
    masters sit in [masterList] with a will and backups in [backupList]
    without one. *)
Definition serversOk (n : Z) (cs : CoordinatorServer) : Prop :=
  1 <= nextServerId cs <= 1 + n
  /\ Forall (fun e => 1 <= ServerList.server_id e < nextServerId cs)
       (masterList cs ++ backupList cs)
  /\ NoDup (serverIds (masterList cs ++ backupList cs))
  /\ Forall (fun e => ServerList.server_type e = ServerList.MASTER
                      /\ is_Some (ServerList.user_data e)) (masterList cs)
  /\ Forall (fun e => ServerList.server_type e = ServerList.BACKUP
                      /\ ServerList.user_data e = None) (backupList cs).

(** After [n] requests: the table counter has not gone past [n], every table
    has an id below it, no two names share an id, the tablets of the map are
    those of the tables, one each, and each covers the whole key range. *)
Definition tablesOk (n : Z) (cs : CoordinatorServer) : Prop :=
  0 <= nextTableId cs <= n
  /\ (forall name id, tables cs !! name = Some id -> 0 <= id < nextTableId cs)
  /\ NoDup (tableIds cs)
  /\ Tablets.table_id <$> tabletMap cs ≡ₚ tableIds cs
  /\ Forall (fun t => Tablets.start_object_id t = 0
                      /\ Tablets.end_object_id t = ULONG_MAX) (tabletMap cs).

(** The master that a tablet names, with an entry for the tablet's table in
    its will. *)
Definition ownedBy (t : Tablet) (m : Entry) : Prop :=
  ServerList.server_id m = Tablets.server_id t
  /\ ServerList.service_locator m = Tablets.service_locator t
  /\ exists will w, ServerList.user_data m = Some will /\ w ∈ will
       /\ Tablets.table_id w = Tablets.table_id t.

(** A tablet is NORMAL on an enlisted master, or RECOVERING with an owner
    that is no longer a master. *)
Definition ownersOk (cs : CoordinatorServer) : Prop :=
  Forall (fun t => 1 <= Tablets.server_id t < nextServerId cs) (tabletMap cs)
  /\ (forall t, t ∈ tabletMap cs -> Tablets.state t = Tablets.NORMAL ->
        exists m, m ∈ masterList cs /\ ownedBy t m)
  /\ (forall t, t ∈ tabletMap cs -> Tablets.state t = Tablets.RECOVERING ->
        Tablets.server_id t ∉ serverIds (masterList cs)).

(** Every entry of every will is as [createTable] writes it, in partition
    0. *)
Definition willsPlain (cs : CoordinatorServer) : Prop :=
  Forall (fun m => forall will w, ServerList.user_data m = Some will -> w ∈ will ->
            Tablets.user_data w = 0
            /\ Tablets.state w = Tablets.NORMAL
            /\ Tablets.start_object_id w = 0
            /\ Tablets.end_object_id w = ULONG_MAX
            /\ Tablets.server_id w = 0
            /\ Tablets.service_locator w = "")
         (masterList cs).

(** A state after two masters and a backup have enlisted and table "t" has
    been created. *)
Definition csWithBackup : CoordinatorServer :=
  mkCoordinator 4
    [ServerList.mkEntry ServerList.BACKUP 3 "mock:host=b1" None]
    [ServerList.mkEntry ServerList.MASTER 1 "mock:host=m1"
       (Some [tabletOfT Tablets.NORMAL 0 ""]);
     ServerList.mkEntry ServerList.MASTER 2 "mock:host=m2" (Some [])]
    [tabletOfT Tablets.NORMAL 1 "mock:host=m1"]
    {["t" := 0]} 1 false.

Definition requestsWithBackup : list Request :=
  [EnlistServerRpc ServerList.MASTER "mock:host=m1";
   EnlistServerRpc ServerList.MASTER "mock:host=m2";
   EnlistServerRpc ServerList.BACKUP "mock:host=b1";
   CreateTableRpc "t"].

(** Masters sit in [masterList], each with a will; all other servers sit in
    [backupList], without one. *)
Definition listsTyped (cs : CoordinatorServer) : Prop :=
  Forall (fun e => ServerList.server_type e = ServerList.MASTER
                   /\ is_Some (ServerList.user_data e)) (masterList cs)
  /\ Forall (fun e => ServerList.server_type e = ServerList.BACKUP
                      /\ ServerList.user_data e = None) (backupList cs).

(** The number of [enlistServer] requests in a run. *)
Fixpoint enlisted (rpcs : list Request) : Z :=
  match rpcs with
  | [] => 0
  | EnlistServerRpc _ _ :: rest => 1 + enlisted rest
  | _ :: rest => enlisted rest
  end.

(** A state with a table and no master: the only master, owner of table "t",
    has been hinted down. *)
Definition requestsNoMaster : list Request :=
  [EnlistServerRpc ServerList.MASTER "mock:host=m1"; CreateTableRpc "t";
   HintServerDownRpc "mock:host=m1"].

Definition csNoMaster : CoordinatorServer :=
  mkCoordinator 2 [] [] [tabletOfT Tablets.RECOVERING 1 "mock:host=m1"]
    {["t" := 0]} 1 false.

(** Case analysis on membership in a trace that is given event by event. *)
Ltac trace_cases H :=
  repeat (apply elem_of_cons in H as [H|H]; [try discriminate H|]);
  try (by apply elem_of_nil in H).

(** * Properties *)

(** ** Repeated fields: swap with the last element, then drop it *)

Section SwapRemove.
Context {A : Type}.
Implicit Types (l : list A) (i : nat).

Lemma SwapElements_length i j l : length (SwapElements i j l) = length l.
Proof.
  unfold SwapElements.
  destruct (l !! i), (l !! j); by rewrite ?length_insert.
Qed.

Lemma swapRemove_unfold i l :
  swapRemove i l = take (length l - 1) (SwapElements (length l - 1) i l).
Proof. unfold swapRemove, RemoveLast. by rewrite SwapElements_length. Qed.

Lemma swapRemove_last l x : swapRemove (length l) (l ++ [x]) = l.
Proof.
  rewrite swapRemove_unfold, length_app. simpl.
  replace (length l + 1 - 1)%nat with (length l) by lia.
  unfold SwapElements.
  rewrite (lookup_app_r l [x]) by lia.
  rewrite Nat.sub_diag. simpl.
  rewrite list_insert_insert_eq, take_insert_ge by lia.
  apply take_app_length.
Qed.

Lemma swapRemove_inner l x i :
  (i < length l)%nat -> swapRemove i (l ++ [x]) = <[i := x]> l.
Proof.
  intros Hi.
  rewrite swapRemove_unfold, length_app. simpl.
  replace (length l + 1 - 1)%nat with (length l) by lia.
  unfold SwapElements.
  rewrite (lookup_app_r l [x]) by lia.
  rewrite Nat.sub_diag. simpl.
  destruct (lookup_lt_is_Some_2 l i Hi) as [y Hy].
  rewrite (lookup_app_l_Some l [x] i y Hy).
  rewrite take_insert_lt by lia.
  rewrite take_insert_ge by lia.
  by rewrite take_app_length.
Qed.

Lemma swapRemove_out l i : (length l <= i)%nat -> swapRemove i l = RemoveLast l.
Proof.
  intros Hi. unfold swapRemove, SwapElements.
  rewrite (lookup_ge_None_2 l i Hi).
  by destruct (l !! _).
Qed.

(** Removing position [i] this way keeps every other element. *)
Lemma swapRemove_Permutation l i x :
  l !! i = Some x -> l ≡ₚ x :: swapRemove i l.
Proof.
  intros Hx.
  destruct l as [|a l0 _] using rev_ind; [done|].
  destruct (decide (i = length l0)) as [->|Hne].
  - rewrite swapRemove_last.
    rewrite lookup_app_r, Nat.sub_diag in Hx by lia. simplify_eq/=.
    by rewrite Permutation_app_comm.
  - assert (i < length l0)%nat as Hi.
    { apply lookup_lt_Some in Hx. rewrite length_app in Hx. simpl in Hx. lia. }
    rewrite swapRemove_inner by done.
    rewrite lookup_app_l in Hx by done.
    rewrite insert_take_drop by done.
    rewrite <- (take_drop_middle l0 i x Hx) at 1.
    rewrite <- !app_assoc. simpl.
    rewrite <- !Permutation_middle.
    by rewrite app_nil_r.
Qed.

Lemma swapRemove_length l i :
  (i < length l)%nat -> length (swapRemove i l) = (length l - 1)%nat.
Proof.
  intros Hi. destruct (lookup_lt_is_Some_2 l i Hi) as [x Hx].
  apply swapRemove_Permutation, Permutation_length in Hx. simpl in Hx. lia.
Qed.

(** The elements before position [i] stay where they are. *)
Lemma swapRemove_take l i :
  (i < length l)%nat -> take i (swapRemove i l) = take i l.
Proof.
  intros Hi.
  destruct l as [|a l0 _] using rev_ind; [simpl in Hi; lia|].
  rewrite length_app in Hi. simpl in Hi.
  destruct (decide (i = length l0)) as [->|Hne].
  - by rewrite swapRemove_last, take_app_length, take_ge.
  - rewrite swapRemove_inner by lia.
    rewrite take_insert_ge by lia.
    by rewrite take_app_le by lia.
Qed.

Lemma swapRemove_Forall (P : A -> Prop) l i :
  Forall P l -> Forall P (swapRemove i l).
Proof.
  intros HP.
  destruct (decide (i < length l)%nat) as [Hi|Hi].
  - destruct (lookup_lt_is_Some_2 l i Hi) as [x Hx].
    apply swapRemove_Permutation in Hx.
    rewrite Hx in HP. by inversion HP.
  - rewrite swapRemove_out by lia. by apply Forall_take.
Qed.

End SwapRemove.

Lemma filter_all {A} (P : A -> Prop) `{!forall x, Decision (P x)} (l : list A) :
  Forall P l -> filter P l = l.
Proof.
  induction 1 as [|x l Hx _ IH]; [done|].
  by rewrite filter_cons_True, IH.
Qed.

(** With enough fuel the loop removes exactly the tablets of the table and
    keeps all the others (their order may change). *)
Lemma dropTablets_Permutation fuel tableId i l :
  (length l - i <= fuel)%nat ->
  Forall (otherTable tableId) (take i l) ->
  dropTablets fuel tableId i l ≡ₚ filter (otherTable tableId) l.
Proof.
  revert i l. induction fuel as [|fuel IH]; intros i l Hfuel Hpre.
  - simpl. rewrite take_ge in Hpre by lia. by rewrite filter_all.
  - simpl. destruct (l !! i) as [t|] eqn:Ht.
    + assert (i < length l)%nat as Hi by (by eapply lookup_lt_Some).
      destruct (Z.eqb_spec (Tablets.table_id t) tableId) as [Heq|Hne].
      * rewrite IH.
        -- rewrite (swapRemove_Permutation l i t Ht) at 2.
           by rewrite filter_cons_False by (unfold otherTable; tauto).
        -- rewrite swapRemove_length by done. lia.
        -- by rewrite swapRemove_take.
      * apply IH; [lia|].
        rewrite (take_S_r l i t Ht). apply Forall_app. split; [done|].
        by repeat constructor.
    + apply lookup_ge_None_1 in Ht.
      rewrite take_ge in Hpre by lia. by rewrite filter_all.
Qed.

Lemma dropTablets_all tableId l :
  dropTablets (length l) tableId 0 l ≡ₚ filter (otherTable tableId) l.
Proof. apply dropTablets_Permutation; [lia|]. by rewrite take_0. Qed.

(** ** Wills *)

Lemma maxUserData_nonneg will : 0 <= maxUserData will.
Proof. induction will; simpl; lia. Qed.

Lemma maxUserData_snoc will t :
  maxUserData (will ++ [t]) = Z.max (maxUserData will) (Tablets.user_data t).
Proof.
  unfold maxUserData.
  induction will as [|a will IH]; simpl; [lia|].
  rewrite IH. lia.
Qed.

Lemma maxPartitionId_snoc will t :
  maxPartitionId (will ++ [t]) =
  match last will with Some t' => Tablets.user_data t' | None => 0 end.
Proof.
  unfold maxPartitionId. rewrite length_app. simpl.
  destruct will as [|a will _] using rev_ind.
  - done.
  - rewrite last_snoc, length_app. simpl.
    case_decide; [|lia].
    replace (length will + 1 + 1 - 2)%nat with (length will) by lia.
    rewrite <- app_assoc. simpl. by rewrite list_lookup_middle.
Qed.

Lemma maxPartitionId_lastIsMax will t :
  lastIsMax will -> maxPartitionId (will ++ [t]) = maxUserData will.
Proof.
  intros Hw. rewrite maxPartitionId_snoc.
  destruct (last will) as [t'|] eqn:Hl.
  - by apply Hw.
  - by apply last_None in Hl as ->.
Qed.

Lemma lastIsMax_nil : lastIsMax [].
Proof. by intros t. Qed.

Lemma lastIsMax_snoc will t :
  Tablets.user_data t = maxUserData will -> lastIsMax (will ++ [t]).
Proof.
  intros Ht t'. rewrite last_snoc. intros [= <-].
  rewrite maxUserData_snoc. lia.
Qed.

(** ** What holds in every reachable state of the coordinator *)

Lemma createTable_willsCoherent name cs :
  willsCoherent cs -> willsCoherent (after (createTable name cs)).
Proof.
  unfold willsCoherent, createTable. intros Hcs.
  destruct (masterList cs) as [|master others] eqn:Hm; [simpl; by rewrite Hm|].
  destruct (tables cs !! name); [simpl; by rewrite Hm|].
  inversion Hcs as [|? ? (will & Hwill & Hmax) Hothers]; subst.
  rewrite Hwill. simpl. constructor; [|done].
  eexists. split; [done|].
  apply lastIsMax_snoc. simpl. by apply maxPartitionId_lastIsMax.
Qed.

Lemma hintServerDown_willsCoherent serviceLocator cs :
  willsCoherent cs -> willsCoherent (after (hintServerDown serviceLocator cs)).
Proof.
  unfold willsCoherent, hintServerDown. intros Hcs.
  destruct (findLocator serviceLocator 0 (masterList cs)) as [[i master]|].
  - destruct (ServerList.user_data master); [destruct (mockRecovery cs)|];
      simpl; by apply swapRemove_Forall.
  - by destruct (findLocator serviceLocator 0 (backupList cs)) as [[i backup]|].
Qed.

Lemma dispatch_willsCoherent rpc cs :
  willsCoherent cs -> willsCoherent (after (dispatch rpc cs)).
Proof.
  intros Hcs. destruct rpc; simpl; try done.
  - by apply createTable_willsCoherent.
  - unfold dropTable. destruct (tables cs !! name); [|done].
    unfold willsCoherent in *.
    by destruct (masterList cs).
  - unfold openTable. by destruct (tables cs !! name).
  - unfold enlistServer. destruct serverType; simpl; [|done].
    apply Forall_app. split; [done|].
    repeat constructor. exists []. split; [done|apply lastIsMax_nil].
  - by apply hintServerDown_willsCoherent.
Qed.

Lemma reachable_willsCoherent cs : reachable cs -> willsCoherent cs.
Proof.
  induction 1 as [|rpc cs _ IH _|mock cs _ IH]; [constructor| |done].
  by apply dispatch_willsCoherent.
Qed.

Lemma run_reachable rpcs cs cs' :
  reachable cs -> run rpcs cs = Some cs' -> reachable cs'.
Proof.
  revert cs. induction rpcs as [|rpc rpcs IH]; intros cs Hcs; simpl.
  - by intros [= <-].
  - destruct (outcome (dispatch rpc cs)) eqn:Ho; try done;
      apply IH; apply reachable_step; try done; by rewrite Ho.
Qed.

(** [findLocator] returns the first entry with the locator, and its index. *)
Lemma findLocator_first serviceLocator i pre master post :
  Forall (fun e => ServerList.service_locator e <> serviceLocator) pre ->
  ServerList.service_locator master = serviceLocator ->
  findLocator serviceLocator i (pre ++ master :: post)
  = Some ((i + length pre)%nat, master).
Proof.
  intros Hpre Hm. revert i.
  induction Hpre as [|e pre He _ IH]; intros i; simpl.
  - rewrite (proj2 (String.eqb_eq _ _) Hm). do 2 f_equal. lia.
  - rewrite (proj2 (String.eqb_neq _ _) He). rewrite IH. do 2 f_equal. lia.
Qed.

Lemma findLocator_None serviceLocator i l :
  findLocator serviceLocator i l = None <->
  Forall (fun e => ServerList.service_locator e <> serviceLocator) l.
Proof.
  revert i. induction l as [|e l IH]; intros i; simpl.
  - split; [constructor|done].
  - destruct (String.eqb_spec (ServerList.service_locator e) serviceLocator)
      as [Heq|Hne].
    + split; [done|]. by inversion 1.
    + rewrite IH. split; [by constructor|by inversion 1].
Qed.

(** Swapping position [length pre] with the end and dropping the end leaves
    the entries around it. *)
Lemma swapRemove_middle {A} (pre post : list A) (x : A) :
  swapRemove (length pre) (pre ++ x :: post) ≡ₚ pre ++ post.
Proof.
  apply (Permutation_cons_inv (a := x)).
  rewrite <- swapRemove_Permutation by (by apply list_lookup_middle).
  by rewrite Permutation_middle.
Qed.

(** ** Scenarios *)

Lemma csTwoMasters_run : run twoMasters CoordinatorServer_init = Some csTwoMasters.
Proof. reflexivity. Qed.

Lemma csTableT_run : run [CreateTableRpc "t"] csTwoMasters = Some csTableT.
Proof. vm_compute. reflexivity. Qed.

Lemma csM1Down_run : run [HintServerDownRpc "mock:host=m1"] csTableT = Some csM1Down.
Proof. vm_compute. reflexivity. Qed.

Lemma csTwoMasters_reachable : reachable csTwoMasters.
Proof. exact (run_reachable _ _ _ reachable_init csTwoMasters_run). Qed.

Lemma csTableT_reachable : reachable csTableT.
Proof. exact (run_reachable _ _ _ csTwoMasters_reachable csTableT_run). Qed.

Lemma csM1Down_reachable : reachable csM1Down.
Proof. exact (run_reachable _ _ _ csTableT_reachable csM1Down_run). Qed.

(** Scenario S1: create, open and drop a table on a single master. *)
Example scenario_create_open_drop :
  let cs1 := after (enlistServer ServerList.MASTER "mock:host=m1"
                      CoordinatorServer_init) in
  let cs2 := after (createTable "foo" cs1) in
  let cs3 := after (dropTable "foo" cs2) in
  tabletMap cs2 = [tabletOfT Tablets.NORMAL 1 "mock:host=m1"] /\
  outcome (openTable "foo" cs2) = Returned (RespTableId 0) /\
  outcome (dropTable "foo" cs2) = Returned RespEmpty /\
  tabletMap cs3 = [] /\ tables cs3 = ∅.
Proof. vm_compute. repeat split; reflexivity. Qed.

(** ** createTable *)

(** C3: [createTable] throws [RetryException] exactly when the master list is
    empty; then nothing has been touched.  In particular, in the
    constructor's state every [createTable] throws [RetryException] and
    leaves the tables, the tablet map and [nextTableId] as they were. *)
Theorem createTable_retry_iff_no_master (name : string) (cs : CoordinatorServer) :
  (outcome (createTable name cs) = Thrown RetryException <-> masterList cs = [])
  /\ (masterList cs = [] -> after (createTable name cs) = cs)
  /\ outcome (createTable name CoordinatorServer_init) = Thrown RetryException
  /\ tables (after (createTable name CoordinatorServer_init))
       = tables CoordinatorServer_init
  /\ tabletMap (after (createTable name CoordinatorServer_init))
       = tabletMap CoordinatorServer_init
  /\ nextTableId (after (createTable name CoordinatorServer_init))
       = nextTableId CoordinatorServer_init.
Proof.
  repeat split; try done.
  - unfold createTable. destruct (masterList cs) as [|master others]; [done|].
    destruct (tables cs !! name); [done|].
    by destruct (ServerList.user_data master).
  - unfold createTable. by intros ->.
  - unfold createTable. by intros ->.
Qed.

(** The general step behind C4 and C5: a new name, a first master that owns
    a will. *)
Lemma createTable_new name cs master others will :
  masterList cs = master :: others ->
  tables cs !! name = None ->
  ServerList.user_data master = Some will ->
  createTable name cs =
  let tableId := wrap32 (nextTableId cs) in
  let tablet := Tablets.mkTablet tableId 0 ULONG_MAX Tablets.NORMAL
                  (ServerList.server_id master)
                  (ServerList.service_locator master) 0 in
  let willEntry := Tablets.mkTablet tableId 0 ULONG_MAX Tablets.NORMAL 0 ""
                     (match last will with
                      | Some t => Tablets.user_data t
                      | None => 0
                      end) in
  mkResult (Returned RespEmpty)
    (mkCoordinator (nextServerId cs) (backupList cs)
       (ServerList.set_user_data (Some (will ++ [willEntry])) master :: others)
       (tabletMap cs ++ [tablet]) (<[name := tableId]> (tables cs))
       (wrap64 (nextTableId cs + 1)) (mockRecovery cs))
    [SetTablets (ServerList.service_locator master) (tabletMap cs ++ [tablet]);
     LOG (LogCreatedTable name tableId);
     LOG (LogTabletsInMap (length (tabletMap cs ++ [tablet])))].
Proof.
  intros Hm Hn Hw. unfold createTable. rewrite Hm, Hn, Hw. simpl.
  by rewrite maxPartitionId_snoc.
Qed.

Lemma reachable_first_will cs master others :
  reachable cs -> masterList cs = master :: others ->
  exists will, ServerList.user_data master = Some will /\ lastIsMax will.
Proof.
  intros Hr Hm. apply reachable_willsCoherent in Hr.
  unfold willsCoherent in Hr. rewrite Hm in Hr. by inversion Hr.
Qed.

(** *** The order of the master list *)

Lemma firstInSlotOrder_elem l m : firstInSlotOrder l = Some m -> m ∈ l.
Proof.
  revert m. induction l as [|e l IH]; intros m; simpl; [done|].
  destruct (firstInSlotOrder l) as [m'|].
  - destruct (ServerList.server_id e <=? ServerList.server_id m');
      intros [= <-]; [by left|right; by apply IH].
  - intros [= <-]. by left.
Qed.

Lemma ascendingFrom_Forall lo l :
  ascendingFrom lo l -> Forall (fun e => lo <= ServerList.server_id e) l.
Proof.
  revert lo. induction l as [|e l IH]; intros lo; simpl; [constructor|].
  intros [Hlo Hl]. constructor; [done|].
  eapply Forall_impl; [by apply IH|]. simpl. lia.
Qed.

Lemma ascendingFrom_snoc lo l e :
  ascendingFrom lo l ->
  Forall (fun x => ServerList.server_id x < ServerList.server_id e) l ->
  lo <= ServerList.server_id e ->
  ascendingFrom lo (l ++ [e]).
Proof.
  revert lo. induction l as [|a l IH]; intros lo; simpl; [done|].
  intros [Hlo Hl] Hlt Hle. apply Forall_cons in Hlt as [Ha Hlt].
  split; [done|]. apply IH; [done|done|lia].
Qed.

Lemma ascendingFrom_first lo e l :
  ascendingFrom lo (e :: l) -> firstInSlotOrder (e :: l) = Some e.
Proof.
  simpl. intros [_ Hl]. apply ascendingFrom_Forall in Hl.
  destruct (firstInSlotOrder l) as [m|] eqn:Hm; [|done].
  apply firstInSlotOrder_elem in Hm. rewrite Forall_forall in Hl.
  apply Hl in Hm. destruct (Z.leb_spec (ServerList.server_id e)
                              (ServerList.server_id m)); [done|lia].
Qed.

Lemma mastersInOrder_same n cs cs' :
  nextServerId cs' = nextServerId cs -> masterList cs' = masterList cs ->
  mastersInOrder n cs -> mastersInOrder (n + 1) cs'.
Proof.
  unfold mastersInOrder. intros -> ->. intros (Hn & Ha & Hlt).
  split; [lia|]. by split.
Qed.

Lemma dispatch_mastersInOrder n rpc cs :
  mastersInOrder n cs ->
  isHintServerDown rpc = false ->
  n + 1 < 2 ^ 32 ->
  mastersInOrder (n + 1) (after (dispatch rpc cs)).
Proof.
  intros Ho Hrpc Hn.
  destruct rpc as [name|name|name|ty loc| | |loc|ts| |k]; simpl; try done;
    try (by apply (mastersInOrder_same n cs)).
  - unfold createTable.
    destruct (masterList cs) as [|master others] eqn:Hm;
      [by apply (mastersInOrder_same n cs)|].
    destruct (tables cs !! name); [by apply (mastersInOrder_same n cs)|].
    destruct (ServerList.user_data master);
      [|by apply (mastersInOrder_same n cs)].
    destruct Ho as (Hnext & Ha & Hlt). rewrite Hm in Ha, Hlt.
    split; [simpl; lia|]. split; [done|].
    apply Forall_cons in Hlt as [H1 H2]. by constructor.
  - apply (mastersInOrder_same n cs); [| |done]; unfold dropTable;
      destruct (tables cs !! name); try done; by destruct (masterList cs).
  - apply (mastersInOrder_same n cs); [| |done]; unfold openTable;
      by destruct (tables cs !! name).
  - destruct Ho as (Hnext & Ha & Hlt).
    assert (wrap64 (nextServerId cs + 1) = nextServerId cs + 1) as Hw
      by (unfold wrap64; apply Z.mod_small; lia).
    unfold mastersInOrder. destruct ty; simpl; rewrite Hw.
    + split; [lia|]. split.
      * apply ascendingFrom_snoc; [done|done|simpl; lia].
      * apply Forall_app. split; [|repeat constructor; simpl; lia].
        eapply Forall_impl; [exact Hlt|]. simpl. lia.
    + split; [lia|]. split; [done|].
      eapply Forall_impl; [exact Hlt|]. simpl. lia.
Qed.

Lemma run_mastersInOrder rpcs n cs0 cs :
  mastersInOrder n cs0 ->
  run rpcs cs0 = Some cs ->
  Forall (fun rpc => isHintServerDown rpc = false) rpcs ->
  n + Z.of_nat (length rpcs) < 2 ^ 32 ->
  mastersInOrder (n + Z.of_nat (length rpcs)) cs.
Proof.
  revert n cs0. induction rpcs as [|rpc rpcs IH]; intros n cs0 Ho Hrun Hno Hn.
  - simpl in *. injection Hrun as <-. by rewrite Z.add_0_r.
  - cbn [run] in Hrun. rewrite length_cons, Nat2Z.inj_succ in *.
    apply Forall_cons in Hno as [Hrpc Hno].
    assert (run rpcs (after (dispatch rpc cs0)) = Some cs) as Hrest
      by (by destruct (outcome (dispatch rpc cs0))).
    replace (n + Z.succ (Z.of_nat (length rpcs)))
      with (n + 1 + Z.of_nat (length rpcs)) by lia.
    apply (IH _ (after (dispatch rpc cs0))); [|done|done|lia].
    apply dispatch_mastersInOrder; [done|done|lia].
Qed.

Lemma csLastPromoted_run :
  run requestsLastPromoted CoordinatorServer_init = Some csLastPromoted.
Proof. vm_compute. reflexivity. Qed.

(** C4 fails on the code, read as section 3 has slots.  After masters 1, 2
    and 3 have enlisted and master 1 has been hinted down, the master list is
    [3; 2]: a new table goes to master 3, the entry at the head of the list,
    while the first master in slot order that is up is master 2. *)
Lemma createTable_target_not_first_in_slot_order :
  let m2 := ServerList.mkEntry ServerList.MASTER 2 "mock:host=m2" (Some []) in
  let m3 := ServerList.mkEntry ServerList.MASTER 3 "mock:host=m3" (Some []) in
  run requestsLastPromoted CoordinatorServer_init = Some csLastPromoted
  /\ masterList csLastPromoted = [m3; m2]
  /\ tables csLastPromoted !! "t" = None
  /\ firstInSlotOrder (masterList csLastPromoted) = Some m2
  /\ outcome (createTable "t" csLastPromoted) = Returned RespEmpty
  /\ tabletMap (after (createTable "t" csLastPromoted))
     = [Tablets.mkTablet 0 0 ULONG_MAX Tablets.NORMAL 3 "mock:host=m3" 0]
  /\ 3 <> ServerList.server_id m2.
Proof.
  repeat split; try (vm_compute; reflexivity). vm_compute. discriminate.
Qed.

(** C4, as amended: with a master enlisted and a name that is not a table
    yet, [createTable] takes [tableId] from [nextTableId] and advances the
    counter, and appends one tablet to the tablet map: of that table, over
    the whole key range [0, 2^64 - 1], in state NORMAL, with the server id and
    the service locator of the entry at the head of the master list.  In a
    state reached by requests none of which is a [hintServerDown] that entry
    is the first master in slot order; [hintServerDown] puts the last master
    in the place of the one it removes, so that later the head can be any
    master. *)
Theorem createTable_appends_full_range_tablet
    (name : string) (cs : CoordinatorServer) (master : Entry) (others : list Entry) :
  reachable cs ->
  masterList cs = master :: others ->
  tables cs !! name = None ->
  let r := createTable name cs in
  let tableId := wrap32 (nextTableId cs) in
  outcome r = Returned RespEmpty
  /\ (0 <= nextTableId cs < 2 ^ 32 -> tableId = nextTableId cs)
  /\ nextTableId (after r) = wrap64 (nextTableId cs + 1)
  /\ tables (after r) = <[name := tableId]> (tables cs)
  /\ (exists tablet,
        tabletMap (after r) = tabletMap cs ++ [tablet]
        /\ Tablets.table_id tablet = tableId
        /\ Tablets.start_object_id tablet = 0
        /\ Tablets.end_object_id tablet = 2 ^ 64 - 1
        /\ Tablets.state tablet = Tablets.NORMAL
        /\ Tablets.server_id tablet = ServerList.server_id master
        /\ Tablets.service_locator tablet = ServerList.service_locator master)
  /\ head (masterList cs) = Some master
  /\ (forall rpcs,
        run rpcs CoordinatorServer_init = Some cs ->
        Forall (fun rpc => isHintServerDown rpc = false) rpcs ->
        Z.of_nat (length rpcs) < 2 ^ 32 ->
        firstInSlotOrder (masterList cs) = Some master).
Proof.
  intros Hr Hm Hn r tableId.
  destruct (reachable_first_will cs master others Hr Hm) as (will & Hw & _).
  subst r. rewrite (createTable_new name cs master others will Hm Hn Hw).
  simpl. split; [done|]. split.
  { intros Hrange. unfold tableId, wrap32. by apply Z.mod_small. }
  split; [done|]. split; [done|]. split.
  { eexists. repeat split. }
  split; [by rewrite Hm|].
  intros rpcs Hrun Hno Hlen.
  assert (mastersInOrder 0 CoordinatorServer_init) as Hinit.
  { split; [simpl; lia|]. split; [done|constructor]. }
  destruct (run_mastersInOrder rpcs 0 _ cs Hinit Hrun Hno) as (_ & Ha & _); [lia|].
  rewrite Hm in *. by apply (ascendingFrom_first 1).
Qed.

Lemma createTable_appends_full_range_tablet_witness :
  let master := ServerList.mkEntry ServerList.MASTER 1 "mock:host=m1" (Some []) in
  let r := createTable "t" csTwoMasters in
  let tableId := wrap32 (nextTableId csTwoMasters) in
  outcome r = Returned RespEmpty
  /\ (0 <= nextTableId csTwoMasters < 2 ^ 32 -> tableId = nextTableId csTwoMasters)
  /\ nextTableId (after r) = wrap64 (nextTableId csTwoMasters + 1)
  /\ tables (after r) = <["t" := tableId]> (tables csTwoMasters)
  /\ (exists tablet,
        tabletMap (after r) = tabletMap csTwoMasters ++ [tablet]
        /\ Tablets.table_id tablet = tableId
        /\ Tablets.start_object_id tablet = 0
        /\ Tablets.end_object_id tablet = 2 ^ 64 - 1
        /\ Tablets.state tablet = Tablets.NORMAL
        /\ Tablets.server_id tablet = ServerList.server_id master
        /\ Tablets.service_locator tablet = ServerList.service_locator master)
  /\ head (masterList csTwoMasters) = Some master
  /\ (forall rpcs,
        run rpcs CoordinatorServer_init = Some csTwoMasters ->
        Forall (fun rpc => isHintServerDown rpc = false) rpcs ->
        Z.of_nat (length rpcs) < 2 ^ 32 ->
        firstInSlotOrder (masterList csTwoMasters) = Some master).
Proof.
  exact (createTable_appends_full_range_tablet "t" csTwoMasters
           (ServerList.mkEntry ServerList.MASTER 1 "mock:host=m1" (Some []))
           [ServerList.mkEntry ServerList.MASTER 2 "mock:host=m2" (Some [])]
           csTwoMasters_reachable eq_refl eq_refl).
Defined.

Lemma maxUserData_ge will :
  Forall (fun t => Tablets.user_data t <= maxUserData will) will.
Proof.
  induction will as [|t will IH]; [constructor|]. simpl. constructor; [lia|].
  eapply Forall_impl; [exact IH|]. simpl. lia.
Qed.

(** C5: on every [createTable] of a new name that returns, the entry added
    to the first master's will copies the [user_data] of the entry that was
    last before it (0 for an empty will).  For every will that ends on its
    largest partition id, as every will of a reachable state does
    ([reachable_first_will]), that value is the largest [user_data] of the
    entries the will already had, and 0 at least; the will with the new entry
    ends on its largest partition id again. *)
Theorem createTable_will_entry_partition
    (name : string) (cs : CoordinatorServer) (master : Entry) (others : list Entry)
    (will : list Tablet) :
  masterList cs = master :: others ->
  ServerList.user_data master = Some will ->
  reachable cs \/ lastIsMax will ->
  tables cs !! name = None ->
  let r := createTable name cs in
  outcome r = Returned RespEmpty
  /\ exists willEntry master',
       masterList (after r) = master' :: others
       /\ ServerList.user_data master' = Some (will ++ [willEntry])
       /\ Tablets.user_data willEntry
          = match last will with
            | Some t => Tablets.user_data t
            | None => 0
            end
       /\ Tablets.user_data willEntry = maxUserData will
       /\ Forall (fun t => Tablets.user_data t <= Tablets.user_data willEntry) will
       /\ 0 <= Tablets.user_data willEntry
       /\ last (will ++ [willEntry]) = Some willEntry
       /\ Tablets.user_data willEntry = maxUserData (will ++ [willEntry])
       /\ lastIsMax (will ++ [willEntry]).
Proof.
  intros Hm Hw Hwill Hn r.
  assert (lastIsMax will) as Hmax.
  { destruct Hwill as [Hr|Hmax]; [|done].
    destruct (reachable_first_will cs master others Hr Hm) as (will' & Hw' & Hmax).
    rewrite Hw in Hw'. by injection Hw' as <-. }
  subst r. rewrite (createTable_new name cs master others will Hm Hn Hw).
  simpl. split; [done|].
  assert (match last will with
          | Some t => Tablets.user_data t
          | None => 0
          end = maxUserData will) as Hlast.
  { rewrite <- (maxPartitionId_snoc will (tabletOfT Tablets.NORMAL 0 "")).
    by apply maxPartitionId_lastIsMax. }
  eexists _, _. split; [done|]. split; [done|]. simpl.
  split; [done|]. split; [done|]. rewrite Hlast.
  split; [apply maxUserData_ge|]. split; [apply maxUserData_nonneg|].
  split; [apply last_snoc|].
  split; [rewrite maxUserData_snoc; simpl; lia|].
  by apply lastIsMax_snoc.
Qed.

Lemma createTable_will_entry_partition_witness :
  let will := [Tablets.mkTablet 0 0 ULONG_MAX Tablets.NORMAL 0 "" 2;
               Tablets.mkTablet 1 0 ULONG_MAX Tablets.NORMAL 0 "" 5] in
  let r := createTable "u" csPartitioned in
  outcome r = Returned RespEmpty
  /\ exists willEntry master',
       masterList (after r)
       = [master'; ServerList.mkEntry ServerList.MASTER 2 "mock:host=m2" (Some [])]
       /\ ServerList.user_data master' = Some (will ++ [willEntry])
       /\ Tablets.user_data willEntry
          = match last will with
            | Some t => Tablets.user_data t
            | None => 0
            end
       /\ Tablets.user_data willEntry = maxUserData will
       /\ Forall (fun t => Tablets.user_data t <= Tablets.user_data willEntry) will
       /\ 0 <= Tablets.user_data willEntry
       /\ last (will ++ [willEntry]) = Some willEntry
       /\ Tablets.user_data willEntry = maxUserData (will ++ [willEntry])
       /\ lastIsMax (will ++ [willEntry]).
Proof.
  apply (createTable_will_entry_partition "u" csPartitioned
           (ServerList.mkEntry ServerList.MASTER 1 "mock:host=m1"
              (Some [Tablets.mkTablet 0 0 ULONG_MAX Tablets.NORMAL 0 "" 2;
                     Tablets.mkTablet 1 0 ULONG_MAX Tablets.NORMAL 0 "" 5]))
           [ServerList.mkEntry ServerList.MASTER 2 "mock:host=m2" (Some [])]
           [Tablets.mkTablet 0 0 ULONG_MAX Tablets.NORMAL 0 "" 2;
            Tablets.mkTablet 1 0 ULONG_MAX Tablets.NORMAL 0 "" 5]).
  - reflexivity.
  - reflexivity.
  - right. intros t Ht. injection Ht as <-. vm_compute. reflexivity.
  - reflexivity.
Defined.

(** ** hintServerDown *)

Lemma markRecovering_lookup serverId (tablets : list Tablet) k t :
  tablets !! k = Some t ->
  map (markRecovering serverId) tablets !! k = Some (markRecovering serverId t).
Proof. intros Ht. change map with (@fmap list _). by rewrite list_lookup_fmap, Ht. Qed.

(** C2: when the hinted locator is that of a master (the first such entry of
    the master list), [hintServerDown] returns with every tablet of that
    master's id in state RECOVERING and otherwise as it was (its [server_id]
    still the dead master's), with all other tablets untouched, and with
    exactly one call of the recovery, on that id and the master's will. *)
Theorem hintServerDown_marks_tablets_recovering
    (serviceLocator : string) (cs : CoordinatorServer)
    (pre post : list Entry) (master : Entry) :
  reachable cs ->
  masterList cs = pre ++ master :: post ->
  Forall (fun e => ServerList.service_locator e <> serviceLocator) pre ->
  ServerList.service_locator master = serviceLocator ->
  let r := hintServerDown serviceLocator cs in
  let serverId := ServerList.server_id master in
  outcome r = Returned RespEmpty
  /\ length (tabletMap (after r)) = length (tabletMap cs)
  /\ (forall k t, tabletMap cs !! k = Some t ->
        exists t', tabletMap (after r) !! k = Some t'
          /\ Tablets.server_id t' = Tablets.server_id t
          /\ (Tablets.server_id t = serverId ->
                Tablets.state t' = Tablets.RECOVERING
                /\ t' = Tablets.set_state Tablets.RECOVERING t)
          /\ (Tablets.server_id t <> serverId -> t' = t))
  /\ exists will masters,
       ServerList.user_data master = Some will
       /\ masters ≡ₚ pre ++ post
       /\ masterList (after r) = masters
       /\ List.filter isRecoveryCall (trace r) =
          [(if mockRecovery cs then MockRecovery else RecoveryStart)
             serverId will masters (backupList cs)].
Proof.
  intros Hr Hm Hpre Hloc r serverId.
  assert (exists will, ServerList.user_data master = Some will) as [will Hw].
  { apply reachable_willsCoherent in Hr. unfold willsCoherent in Hr.
    rewrite Hm in Hr. apply Forall_app in Hr as [_ Hr].
    inversion Hr as [|? ? (will & Hw & _) _]. by exists will. }
  assert (r = mkResult (Returned RespEmpty)
                (mkCoordinator (nextServerId cs) (backupList cs)
                   (swapRemove (length pre) (masterList cs))
                   (map (markRecovering serverId) (tabletMap cs))
                   (tables cs) (nextTableId cs) (mockRecovery cs))
                (trace r)
          /\ List.filter isRecoveryCall (trace r) =
             [(if mockRecovery cs then MockRecovery else RecoveryStart)
                serverId will (swapRemove (length pre) (masterList cs))
                (backupList cs)]) as [Hres Htrace].
  { assert (findLocator serviceLocator 0 (masterList cs)
            = Some (length pre, master)) as Hfind.
    { rewrite Hm. by rewrite findLocator_first. }
    subst r. unfold hintServerDown. rewrite Hfind, Hw.
    by destruct (mockRecovery cs). }
  rewrite Hres. simpl. split; [done|]. split; [by rewrite length_map|]. split.
  - intros k t Ht. exists (markRecovering serverId t).
    split; [by apply markRecovering_lookup|].
    unfold markRecovering.
    destruct (Z.eqb_spec (Tablets.server_id t) serverId); by repeat split.
  - exists will, (swapRemove (length pre) (masterList cs)).
    split; [done|]. split; [rewrite Hm; apply swapRemove_middle|]. by split.
Qed.

Lemma hintServerDown_marks_tablets_recovering_witness :
  let master := ServerList.mkEntry ServerList.MASTER 1 "mock:host=m1"
                  (Some [tabletOfT Tablets.NORMAL 0 ""]) in
  let post := [ServerList.mkEntry ServerList.MASTER 2 "mock:host=m2" (Some [])] in
  let r := hintServerDown "mock:host=m1" csTableT in
  let serverId := ServerList.server_id master in
  outcome r = Returned RespEmpty
  /\ length (tabletMap (after r)) = length (tabletMap csTableT)
  /\ (forall k t, tabletMap csTableT !! k = Some t ->
        exists t', tabletMap (after r) !! k = Some t'
          /\ Tablets.server_id t' = Tablets.server_id t
          /\ (Tablets.server_id t = serverId ->
                Tablets.state t' = Tablets.RECOVERING
                /\ t' = Tablets.set_state Tablets.RECOVERING t)
          /\ (Tablets.server_id t <> serverId -> t' = t))
  /\ exists will masters,
       ServerList.user_data master = Some will
       /\ masters ≡ₚ [] ++ post
       /\ masterList (after r) = masters
       /\ List.filter isRecoveryCall (trace r) =
          [RecoveryStart serverId will masters (backupList csTableT)].
Proof.
  exact (hintServerDown_marks_tablets_recovering "mock:host=m1" csTableT []
           [ServerList.mkEntry ServerList.MASTER 2 "mock:host=m2" (Some [])]
           (ServerList.mkEntry ServerList.MASTER 1 "mock:host=m1"
              (Some [tabletOfT Tablets.NORMAL 0 ""]))
           csTableT_reachable eq_refl (Forall_nil_2 _) eq_refl).
Defined.

(** ** dropTable *)

(** C9: on the name of an existing table, [dropTable] removes the table's
    tablets and then reads entry 0 of the master list, whatever the list
    holds: with a master enlisted it sends that master the remaining
    tablets; with none the read is out of bounds.  No path of [dropTable]
    throws [RetryException], which is what [createTable] does on an empty
    master list. *)
Theorem dropTable_reads_first_master_unguarded
    (name : string) (cs : CoordinatorServer) (tableId : Z) :
  tables cs !! name = Some tableId ->
  let r := dropTable name cs in
  tabletMap (after r) ≡ₚ filter (otherTable tableId) (tabletMap cs)
  /\ outcome r <> Thrown RetryException
  /\ (masterList cs = [] ->
        outcome r = Undefined
        /\ outcome (createTable name cs) = Thrown RetryException)
  /\ (forall first others, masterList cs = first :: others ->
        outcome r = Returned RespEmpty
        /\ List.filter isSetTablets (trace r) =
           [SetTablets (ServerList.service_locator first) (tabletMap (after r))]).
Proof.
  intros Hn r. subst r. unfold dropTable. rewrite Hn.
  destruct (masterList cs) as [|m ms] eqn:Hm; simpl.
  - split; [apply dropTablets_all|]. split; [done|]. split; [|done].
    intros _. split; [done|]. unfold createTable. by rewrite Hm.
  - split; [apply dropTablets_all|]. split; [done|]. split; [done|].
    by intros first others [= <- <-].
Qed.

Lemma dropTable_reads_first_master_unguarded_witness :
  let cs := mkCoordinator 2 [] [] [tabletOfT Tablets.RECOVERING 1 "mock:host=m1"]
              {["t" := 0]} 1 false in
  let r := dropTable "t" cs in
  tabletMap (after r) ≡ₚ filter (otherTable 0) (tabletMap cs)
  /\ outcome r <> Thrown RetryException
  /\ (masterList cs = [] ->
        outcome r = Undefined
        /\ outcome (createTable "t" cs) = Thrown RetryException)
  /\ (forall first others, masterList cs = first :: others ->
        outcome r = Returned RespEmpty
        /\ List.filter isSetTablets (trace r) =
           [SetTablets (ServerList.service_locator first) (tabletMap (after r))]).
Proof.
  exact (dropTable_reads_first_master_unguarded "t"
           (mkCoordinator 2 [] [] [tabletOfT Tablets.RECOVERING 1 "mock:host=m1"]
              {["t" := 0]} 1 false) 0 eq_refl).
Defined.

(** A state with a table and no master is one the coordinator is in after
    its only master, owner of table "t", has been hinted down. *)
Example dropTable_no_master_reachable :
  run [EnlistServerRpc ServerList.MASTER "mock:host=m1"; CreateTableRpc "t";
       HintServerDownRpc "mock:host=m1"] CoordinatorServer_init
  = Some (mkCoordinator 2 [] [] [tabletOfT Tablets.RECOVERING 1 "mock:host=m1"]
            {["t" := 0]} 1 false).
Proof. vm_compute. reflexivity. Qed.

(** ** tabletsRecovered *)

(** C10: whatever tablets the request carries, [tabletsRecovered] returns
    with the coordinator's state as it was (tablet map, tables, master list,
    backup list, [nextTableId], [nextServerId]); all it does is log the
    number of tablets it parsed. *)
Theorem tabletsRecovered_frame (tablets : list Tablet) (cs : CoordinatorServer) :
  let r := tabletsRecovered tablets cs in
  after r = cs
  /\ tabletMap (after r) = tabletMap cs
  /\ tables (after r) = tables cs
  /\ masterList (after r) = masterList cs
  /\ backupList (after r) = backupList cs
  /\ nextTableId (after r) = nextTableId cs
  /\ nextServerId (after r) = nextServerId cs
  /\ trace r = [LOG (TestLogCalledWith (length tablets))]
  /\ dispatch (TabletsRecoveredRpc tablets) cs = r.
Proof. by repeat split. Qed.

(** C1, as amended: [tabletsRecovered] never fails and never replaces
    anything.  Whether or not the ranges of the tablets it is given match
    those of the RECOVERING tablets, it returns normally, and every tablet of
    the tablet map, the RECOVERING ones of a dead server included, is still
    in its place with the same state and the same owner. *)
Theorem tabletsRecovered_leaves_recovering_tablets
    (newTablets : list Tablet) (cs : CoordinatorServer) :
  let r := tabletsRecovered newTablets cs in
  outcome r = Returned RespEmpty
  /\ length (tabletMap (after r)) = length (tabletMap cs)
  /\ (forall k t, tabletMap cs !! k = Some t -> tabletMap (after r) !! k = Some t)
  /\ recoveringRanges (tabletMap (after r)) = recoveringRanges (tabletMap cs).
Proof. by repeat split. Qed.

(** C1 fails on the code.  After master 1, owner of table "t", has been
    hinted down, a [tabletsRecovered] that hands the whole range to master 2
    leaves the tablet RECOVERING and owned by master 1; and one whose range
    does not match the dead range returns normally too. *)
Lemma tabletsRecovered_does_not_replace :
  let recovered := [tabletOfT Tablets.NORMAL 2 "mock:host=m2"] in
  let mismatched := [Tablets.mkTablet 0 0 10 Tablets.NORMAL 2 "mock:host=m2" 0] in
  run (twoMasters ++ [CreateTableRpc "t"; HintServerDownRpc "mock:host=m1"])
      CoordinatorServer_init = Some csM1Down
  /\ tabletMap csM1Down = [tabletOfT Tablets.RECOVERING 1 "mock:host=m1"]
  /\ map rangeOf recovered = recoveringRanges (tabletMap csM1Down)
  /\ tabletMap (after (tabletsRecovered recovered csM1Down))
     = [tabletOfT Tablets.RECOVERING 1 "mock:host=m1"]
  /\ tabletMap (after (tabletsRecovered recovered csM1Down)) <> recovered
  /\ map rangeOf mismatched <> recoveringRanges (tabletMap csM1Down)
  /\ outcome (tabletsRecovered mismatched csM1Down) = Returned RespEmpty.
Proof.
  repeat split; try (vm_compute; reflexivity); vm_compute; discriminate.
Qed.

(** ** The test cases, on the model *)

(** Test [add]: ids, counters and the queued update, and the slot's
    generation counter at 1 right after the [add] that takes the slot. *)
Example test_add :
  let '(id1, sl1) := CSL.add "mock:host=server1" (CSL.mask [CSL.MASTER_SERVICE]) 100
                       CSL.empty in
  let '(id2, sl2) := CSL.add "hi again" (CSL.mask [CSL.BACKUP_SERVICE]) 100
                       (fst (CSL.sync [] (CSL.sendMembershipUpdate [] sl1))) in
  id1 = CSL.mkServerId 1 0
  /\ slotEntry 0 sl1 = None
  /\ (CSL.numberOfMasters sl1, CSL.numberOfBackups sl1) = (1, 0)
  /\ (CSL.serviceLocator <$> slotEntry 1 sl1) = Some "mock:host=server1"
  /\ (CSL.expectedReadMBytesPerSec <$> slotEntry 1 sl1) = Some 0
  /\ (CSL.nextGenerationNumber <$> CSL.serverList sl1 !! 1%nat) = Some 1
  /\ CSL.version sl1 = 0
  /\ CSL.msgQueue (CSL.sendMembershipUpdate [] sl1)
     = [CSL.mkMessage
          [CSL.mkProtoBufEntry (CSL.mask [CSL.MASTER_SERVICE]) (CSL.mkServerId 1 0)
             "mock:host=server1" 0 CSL.UP] 1 []]
  /\ id2 = CSL.mkServerId 2 0
  /\ (CSL.expectedReadMBytesPerSec <$> slotEntry 2 sl2) = Some 100
  /\ (CSL.nextGenerationNumber <$> CSL.serverList sl2 !! 2%nat) = Some 1
  /\ (CSL.numberOfMasters sl2, CSL.numberOfBackups sl2) = (1, 1)
  /\ CSL.version sl2 = 1.
Proof. vm_compute. repeat split. Qed.

(** Test [crashed]. *)
Example test_crashed :
  let id := CSL.mkServerId 1 0 in
  let sl1 := clearUpdates
               (snd (CSL.add "hi!" (CSL.mask [CSL.MASTER_SERVICE]) 100 CSL.empty)) in
  let sl2 := CSL.orElse sl1 (CSL.crashed id sl1) in
  CSL.crashed (CSL.mkServerId 0 0) CSL.empty = CSL.Fail CSL.InvalidServerId
  /\ CSL.crashed id sl1 = CSL.Ok sl2
  /\ (CSL.status <$> slotEntry 1 sl2) = Some CSL.CRASHED
  /\ CSL.updates sl2
     = [CSL.mkProtoBufEntry (CSL.mask [CSL.MASTER_SERVICE]) id "hi!" 0 CSL.CRASHED]
  /\ CSL.crashed id (clearUpdates sl2) = CSL.Ok (clearUpdates sl2)
  /\ (CSL.numberOfMasters sl2, CSL.numberOfBackups sl2) = (0, 0).
Proof. vm_compute. repeat split. Qed.

(** Test [remove]. *)
Example test_remove :
  let id := CSL.mkServerId 1 0 in
  let sl1 := clearUpdates
               (snd (CSL.add "hi!" (CSL.mask [CSL.MASTER_SERVICE]) 100 CSL.empty)) in
  let sl2 := CSL.orElse sl1 (CSL.remove id sl1) in
  let added := CSL.add "hi, again" (CSL.mask [CSL.BACKUP_SERVICE]) 100 sl2 in
  let sl4 := clearUpdates
               (CSL.orElse (snd added) (CSL.crashed (CSL.mkServerId 1 1) (snd added))) in
  let sl5 := CSL.orElse sl4 (CSL.remove (CSL.mkServerId 1 1) sl4) in
  CSL.remove (CSL.mkServerId 0 0) CSL.empty = CSL.Fail CSL.InvalidServerId
  /\ CSL.remove id sl1 = CSL.Ok sl2
  /\ slotEntry 1 sl2 = None
  /\ CSL.updates sl2
     = [CSL.mkProtoBufEntry (CSL.mask [CSL.MASTER_SERVICE]) id "hi!" 0 CSL.CRASHED;
        CSL.mkProtoBufEntry (CSL.mask [CSL.MASTER_SERVICE]) id "hi!" 0 CSL.DOWN]
  /\ CSL.remove id sl2 = CSL.Fail CSL.InvalidServerId
  /\ (CSL.numberOfMasters sl2, CSL.numberOfBackups sl2) = (0, 0)
  /\ fst added = CSL.mkServerId 1 1
  /\ (CSL.status <$> slotEntry 1 sl4) = Some CSL.CRASHED
  /\ CSL.remove (CSL.mkServerId 1 2) sl4 = CSL.Fail CSL.InvalidServerId
  /\ CSL.remove (CSL.mkServerId 1 1) sl4 = CSL.Ok sl5
  /\ CSL.updates sl5
     = [CSL.mkProtoBufEntry (CSL.mask [CSL.BACKUP_SERVICE]) (CSL.mkServerId 1 1)
          "hi, again" 100 CSL.DOWN]
  /\ (CSL.numberOfMasters sl5, CSL.numberOfBackups sl5) = (0, 0).
Proof. vm_compute. repeat split. Qed.

(** Tests [firstFreeIndex] and [getReferenceFromServerId]. *)
Example test_firstFreeIndex :
  let master := CSL.mask [CSL.MASTER_SERVICE] in
  let sl1 := snd (CSL.add "hi" master 100 CSL.empty) in
  let sl2 := snd (CSL.add "hi again" master 100 sl1) in
  let sl3 := CSL.orElse sl2 (CSL.remove (CSL.mkServerId 2 0) sl2) in
  let sl4 := CSL.orElse sl3 (CSL.remove (CSL.mkServerId 1 0) sl3) in
  (fst (CSL.firstFreeIndex []), length (snd (CSL.firstFreeIndex []))) = (1, 2)%nat
  /\ fst (CSL.firstFreeIndex (CSL.serverList sl1)) = 2%nat
  /\ fst (CSL.firstFreeIndex (CSL.serverList sl2)) = 3%nat
  /\ fst (CSL.firstFreeIndex (CSL.serverList sl3)) = 2%nat
  /\ fst (CSL.firstFreeIndex (CSL.serverList sl4)) = 1%nat
  /\ CSL.getReferenceFromServerId (CSL.mkServerId 0 0) CSL.empty = None
  /\ CSL.getReferenceFromServerId (CSL.mkServerId 1 0) CSL.empty = None
  /\ CSL.getReferenceFromServerId (CSL.mkServerId 0 0) sl1 = None
  /\ (CSL.serverId <$> CSL.getReferenceFromServerId (CSL.mkServerId 1 0) sl1)
     = Some (CSL.mkServerId 1 0)
  /\ CSL.getReferenceFromServerId (CSL.mkServerId 1 1) sl1 = None
  /\ CSL.getReferenceFromServerId (CSL.mkServerId 2 0) sl1 = None.
Proof. vm_compute. repeat split. Qed.

(** Test [serialize] (scenario S6): removed entries are skipped, crashed
    ones are included, the order is that of the slots. *)
Example test_serialize :
  let master := CSL.mask [CSL.MASTER_SERVICE] in
  let backup := CSL.mask [CSL.BACKUP_SERVICE] in
  let both := CSL.mask [CSL.MASTER_SERVICE; CSL.BACKUP_SERVICE] in
  let sl := CSL.runOps [CSL.OpAdd "" master 100; CSL.OpAdd "" master 100;
                        CSL.OpAdd "" master 100; CSL.OpAdd "" backup 100;
                        CSL.OpAdd "" both 100;
                        CSL.OpRemove (CSL.mkServerId 1 0);
                        CSL.OpCrashed (CSL.mkServerId 5 0)] CSL.empty in
  let view filterMask :=
    map (fun r => (CSL.pb_services r, CSL.pb_status r)) (CSL.serialize filterMask sl) in
  CSL.serialize (CSL.mask []) CSL.empty = []
  /\ CSL.serialize both CSL.empty = []
  /\ view (CSL.mask []) = []
  /\ view master = [(master, CSL.UP); (master, CSL.UP); (both, CSL.CRASHED)]
  /\ view backup = [(backup, CSL.UP); (both, CSL.CRASHED)]
  /\ view both = [(master, CSL.UP); (master, CSL.UP); (backup, CSL.UP);
                  (both, CSL.CRASHED)].
Proof. vm_compute. repeat split. Qed.

(** Test [sendMembershipUpdate]: nothing goes to a removed, a crashed, a
    non-membership or an excluded server; then server 5, in slot 1, reports a
    lost update and is sent the whole list, and server 4 takes the update. *)
Example test_sendMembershipUpdate :
  let membership := CSL.mask [CSL.MEMBERSHIP_SERVICE] in
  let ops1 := [CSL.OpAdd "mock:host=server1" membership 0;
               CSL.OpAdd "mock:host=server2" (CSL.mask []) 0;
               CSL.OpCrashed (CSL.mkServerId 2 0);
               CSL.OpAdd "mock:host=server3" (CSL.mask []) 0;
               CSL.OpAdd "mock:host=server4" membership 0;
               CSL.OpRemove (CSL.mkServerId 1 0)] in
  let sl1 := clearUpdates (CSL.runOps ops1 CSL.empty) in
  let '(sl2, sent2) := CSL.sync [] (CSL.sendMembershipUpdate [CSL.mkServerId 4 0] sl1) in
  let '(id5, sl3) := CSL.add "mock:host=server5" membership 0 sl2 in
  let sl4 := setVersion 0 (clearUpdates sl3) in
  let '(sl5, sent5) :=
    CSL.sync [CSL.ReplyLostUpdate; CSL.ReplyOk; CSL.ReplyOk]
      (CSL.sendMembershipUpdate [] sl4) in
  sent2 = []
  /\ id5 = CSL.mkServerId 1 1
  /\ map (fun rpc => (match rpc with
                      | CSL.UpdateServerList _ _ _ => "update"
                      | CSL.SetServerList _ _ _ => "set"
                      end, CSL.recipient rpc)) sent5
     = [("update", CSL.mkServerId 1 1); ("set", CSL.mkServerId 1 1);
        ("update", CSL.mkServerId 4 0)].
Proof. vm_compute. repeat split. Qed.

(** ** Looking an id up, crashed *)

Lemma getReference_slot id sl e :
  CSL.getReferenceFromServerId id sl = Some e ->
  CSL.serverId e = id /\
  exists g, CSL.serverList sl !! CSL.indexNumber id = Some (CSL.mkSlot (Some e) g).
Proof.
  unfold CSL.getReferenceFromServerId.
  destruct (CSL.serverList sl !! CSL.indexNumber id) as [[[e'|] g]|]; try done.
  case_decide; [|done]. intros [= <-]. eauto.
Qed.

Lemma getReference_of_slot id sl e g :
  CSL.serverList sl !! CSL.indexNumber id = Some (CSL.mkSlot (Some e) g) ->
  CSL.serverId e = id ->
  CSL.getReferenceFromServerId id sl = Some e.
Proof.
  intros Hs He. unfold CSL.getReferenceFromServerId. rewrite Hs.
  by rewrite decide_True.
Qed.

Lemma getReference_empty_slot id sl g :
  CSL.serverList sl !! CSL.indexNumber id = Some (CSL.mkSlot None g) ->
  CSL.getReferenceFromServerId id sl = None.
Proof. intros Hs. unfold CSL.getReferenceFromServerId. by rewrite Hs. Qed.

Lemma setEntry_serverList i eo sl s :
  CSL.serverList sl !! i = Some s ->
  CSL.serverList (CSL.setEntry i eo sl)
  = <[i := CSL.mkSlot eo (CSL.nextGenerationNumber s)]> (CSL.serverList sl).
Proof. intros Hs. unfold CSL.setEntry. by rewrite Hs. Qed.

Lemma setEntry_lookup i eo sl s :
  CSL.serverList sl !! i = Some s ->
  CSL.serverList (CSL.setEntry i eo sl) !! i
  = Some (CSL.mkSlot eo (CSL.nextGenerationNumber s)).
Proof.
  intros Hs. rewrite (setEntry_serverList i eo sl s Hs).
  apply list_lookup_insert_eq. by eapply lookup_lt_Some.
Qed.

Lemma setEntry_fields i eo sl :
  CSL.updates (CSL.setEntry i eo sl) = CSL.updates sl
  /\ CSL.numberOfMasters (CSL.setEntry i eo sl) = CSL.numberOfMasters sl
  /\ CSL.numberOfBackups (CSL.setEntry i eo sl) = CSL.numberOfBackups sl.
Proof. unfold CSL.setEntry. by destruct (CSL.serverList sl !! i). Qed.

Lemma crashedUp_fields id e sl :
  CSL.updates (crashedUp id e sl)
  = CSL.updates sl ++ [CSL.serializeEntry e CSL.CRASHED]
  /\ CSL.numberOfMasters (crashedUp id e sl)
     = (if CSL.isMaster e then wrap32 (CSL.numberOfMasters sl - 1)
        else CSL.numberOfMasters sl)
  /\ CSL.numberOfBackups (crashedUp id e sl)
     = (if CSL.isBackup e then wrap32 (CSL.numberOfBackups sl - 1)
        else CSL.numberOfBackups sl).
Proof.
  unfold crashedUp. simpl.
  destruct (setEntry_fields (CSL.indexNumber id)
              (Some (CSL.setStatus CSL.CRASHED e)) sl) as (-> & -> & ->).
  done.
Qed.

Lemma crashed_up id sl e :
  CSL.getReferenceFromServerId id sl = Some e ->
  CSL.status e = CSL.UP ->
  CSL.crashed id sl = CSL.Ok (crashedUp id e sl).
Proof. intros He Hs. unfold CSL.crashed. by rewrite He, Hs. Qed.

Lemma crashedUp_reference id sl e :
  CSL.getReferenceFromServerId id sl = Some e ->
  CSL.getReferenceFromServerId id (crashedUp id e sl)
  = Some (CSL.setStatus CSL.CRASHED e).
Proof.
  intros He. destruct (getReference_slot id sl e He) as [Hid [g Hs]].
  apply (getReference_of_slot id _ _ g); [|done].
  unfold crashedUp. simpl. by rewrite (setEntry_lookup _ _ _ _ Hs).
Qed.

(** C8: [crashed] on an entry that is already CRASHED returns with the list
    as it was, so without a delta; hence [crashed] twice on an entry that is
    up appends one CRASHED record to the pending delta, all of it on the
    first call. *)
Theorem crashed_twice_emits_once (id : CSL.ServerId) (sl : CSL.State) (e : CSL.Entry) :
  CSL.getReferenceFromServerId id sl = Some e ->
  (CSL.status e = CSL.CRASHED -> CSL.crashed id sl = CSL.Ok sl)
  /\ (CSL.status e = CSL.UP ->
       exists sl1,
         CSL.crashed id sl = CSL.Ok sl1
         /\ CSL.updates sl1 = CSL.updates sl ++ [CSL.serializeEntry e CSL.CRASHED]
         /\ (CSL.status <$> CSL.getReferenceFromServerId id sl1) = Some CSL.CRASHED
         /\ CSL.crashed id sl1 = CSL.Ok sl1).
Proof.
  intros He. split.
  - intros Hs. unfold CSL.crashed. by rewrite He, Hs.
  - intros Hs. exists (crashedUp id e sl).
    pose proof (crashedUp_reference id sl e He) as He1.
    split; [by apply crashed_up|].
    split; [apply crashedUp_fields|]. split; [by rewrite He1|].
    unfold CSL.crashed. by rewrite He1.
Qed.

Lemma crashed_twice_emits_once_witness :
  let id := CSL.mkServerId 1 0 in
  let sl := snd (CSL.add "hi!" (CSL.mask [CSL.MASTER_SERVICE]) 100 CSL.empty) in
  let e := CSL.mkEntry id "hi!" (CSL.mask [CSL.MASTER_SERVICE]) 0 CSL.UP (Some []) 0 in
  (CSL.status e = CSL.CRASHED -> CSL.crashed id sl = CSL.Ok sl)
  /\ (CSL.status e = CSL.UP ->
       exists sl1,
         CSL.crashed id sl = CSL.Ok sl1
         /\ CSL.updates sl1 = CSL.updates sl ++ [CSL.serializeEntry e CSL.CRASHED]
         /\ (CSL.status <$> CSL.getReferenceFromServerId id sl1) = Some CSL.CRASHED
         /\ CSL.crashed id sl1 = CSL.Ok sl1).
Proof.
  exact (crashed_twice_emits_once (CSL.mkServerId 1 0)
           (snd (CSL.add "hi!" (CSL.mask [CSL.MASTER_SERVICE]) 100 CSL.empty))
           (CSL.mkEntry (CSL.mkServerId 1 0) "hi!" (CSL.mask [CSL.MASTER_SERVICE])
              0 CSL.UP (Some []) 0)
           eq_refl).
Defined.

(** ** Slots and generations *)

Lemma wrap32_range z : 0 <= wrap32 z < 2 ^ 32.
Proof. unfold wrap32. apply Z.mod_pos_bound. lia. Qed.

Lemma wrap32_succ_ne g : 0 <= g < 2 ^ 32 -> wrap32 (g + 1) <> g.
Proof.
  intros Hg. unfold wrap32.
  destruct (decide (g + 1 < 2 ^ 32)) as [Hlt|Hge].
  - rewrite Z.mod_small by lia. lia.
  - replace (g + 1) with (0 + 1 * 2 ^ 32) by lia.
    rewrite Z_mod_plus_full. rewrite Z.mod_small by lia. lia.
Qed.

(** A u32 counter advanced between 1 and 2^32 - 1 times is not where it
    was. *)
Lemma wrap32_shift_ne c j :
  0 <= c < 2 ^ 32 -> 1 <= j < 2 ^ 32 -> wrap32 (c + j) <> c.
Proof.
  intros Hc Hj. unfold wrap32.
  destruct (decide (c + j < 2 ^ 32)) as [Hlt|Hge].
  - rewrite Z.mod_small by lia. lia.
  - replace (c + j) with (c + j - 2 ^ 32 + 1 * 2 ^ 32) by lia.
    rewrite Z_mod_plus_full. rewrite Z.mod_small by lia. lia.
Qed.

Lemma wrap32_small g : 0 <= g < 2 ^ 32 -> wrap32 g = g.
Proof. intros Hg. unfold wrap32. by apply Z.mod_small. Qed.

Lemma wrap32_add_l a b : wrap32 (wrap32 a + b) = wrap32 (a + b).
Proof. unfold wrap32. by rewrite Zplus_mod_idemp_l. Qed.

Lemma coherentSlots_insert slots i s :
  coherentSlots slots ->
  0 <= CSL.nextGenerationNumber s < 2 ^ 32 ->
  (forall e, CSL.entry s = Some e ->
     i <> 0%nat
     /\ CSL.indexNumber (CSL.serverId e) = i
     /\ 0 <= CSL.generationNumber (CSL.serverId e) < 2 ^ 32
     /\ CSL.nextGenerationNumber s
        = wrap32 (CSL.generationNumber (CSL.serverId e) + 1)) ->
  coherentSlots (<[i := s]> slots).
Proof.
  intros Hc Hr He j s' Hj.
  apply list_lookup_insert_Some in Hj as [(-> & -> & _)|[_ Hj]]; [done|].
  by apply Hc.
Qed.

Lemma coherentSlots_grow slots n :
  coherentSlots slots -> coherentSlots (slots ++ replicate n CSL.emptySlot).
Proof.
  intros Hc i s Hi.
  apply lookup_app_Some in Hi as [Hi|[_ Hi]]; [by apply Hc|].
  apply lookup_replicate in Hi as [-> _]. simpl. split; [lia|done].
Qed.

Lemma findFree_ge i slots k : CSL.findFree i slots = Some k -> (i <= k)%nat.
Proof.
  revert i. induction slots as [|s slots IH]; intros i; simpl; [done|].
  destruct (CSL.entry s); [|intros [= <-]; lia].
  intros Hk. apply IH in Hk. lia.
Qed.

Lemma firstFreeIndex_positive slots : (1 <= fst (CSL.firstFreeIndex slots))%nat.
Proof.
  unfold CSL.firstFreeIndex.
  destruct (CSL.findFree 1 (drop 1 slots)) as [k|] eqn:Hk; simpl.
  - by apply findFree_ge in Hk.
  - lia.
Qed.

Lemma firstFreeIndex_grows slots :
  exists n, snd (CSL.firstFreeIndex slots) = slots ++ replicate n CSL.emptySlot.
Proof.
  unfold CSL.firstFreeIndex.
  destruct (CSL.findFree 1 (drop 1 slots)); simpl.
  - exists 0%nat. simpl. by rewrite app_nil_r.
  - eauto.
Qed.

(** The slots after [add]. *)
Lemma add_serverList locator svc mb sl :
  exists e,
    CSL.serverId e = fst (CSL.add locator svc mb sl)
    /\ CSL.status e = CSL.UP
    /\ CSL.serverList (snd (CSL.add locator svc mb sl))
       = <[fst (CSL.firstFreeIndex (CSL.serverList sl)) :=
             CSL.mkSlot (Some e)
               (wrap32 (CSL.generationNumber (fst (CSL.add locator svc mb sl)) + 1))]>
           (snd (CSL.firstFreeIndex (CSL.serverList sl)))
    /\ fst (CSL.add locator svc mb sl)
       = CSL.mkServerId (fst (CSL.firstFreeIndex (CSL.serverList sl)))
           (match snd (CSL.firstFreeIndex (CSL.serverList sl))
                  !! fst (CSL.firstFreeIndex (CSL.serverList sl)) with
            | Some s => CSL.nextGenerationNumber s
            | None => 0
            end).
Proof.
  unfold CSL.add.
  destruct (CSL.firstFreeIndex (CSL.serverList sl)) as [index slots]. simpl.
  eexists. split; [|split; [|split; [reflexivity|reflexivity]]]; reflexivity.
Qed.

Lemma add_coherent locator svc mb sl :
  coherentSlots (CSL.serverList sl) ->
  coherentSlots (CSL.serverList (snd (CSL.add locator svc mb sl))).
Proof.
  intros Hc.
  destruct (add_serverList locator svc mb sl) as (e & He & _ & -> & Hid).
  destruct (firstFreeIndex_grows (CSL.serverList sl)) as [n Hn].
  pose proof (firstFreeIndex_positive (CSL.serverList sl)) as Hpos.
  rewrite Hid. simpl.
  set (index := fst (CSL.firstFreeIndex (CSL.serverList sl))) in *.
  set (slots := snd (CSL.firstFreeIndex (CSL.serverList sl))) in *.
  assert (coherentSlots slots) as Hs by (rewrite Hn; by apply coherentSlots_grow).
  apply coherentSlots_insert; [done|apply wrap32_range|]; simpl.
  intros e' [= <-]. rewrite He, Hid. simpl.
  split; [lia|]. split; [done|]. split; [|done].
  destruct (slots !! index) as [s|] eqn:Hi; [|lia]. by apply (Hs index s).
Qed.

Lemma crashedUp_coherent id e sl :
  coherentSlots (CSL.serverList sl) ->
  CSL.getReferenceFromServerId id sl = Some e ->
  coherentSlots (CSL.serverList (crashedUp id e sl)).
Proof.
  intros Hc He. destruct (getReference_slot id sl e He) as [Hid [g Hs]].
  unfold crashedUp. simpl. rewrite (setEntry_serverList _ _ _ _ Hs).
  destruct (Hc _ _ Hs) as [Hr Hent].
  apply coherentSlots_insert; [done|done|]. simpl.
  intros e' [= <-]. simpl. by apply Hent.
Qed.

Lemma removeCrashed_slot id e sl eo g :
  CSL.serverList sl !! CSL.indexNumber id = Some (CSL.mkSlot eo g) ->
  CSL.serverList (removeCrashed id e sl)
  = <[CSL.indexNumber id := CSL.mkSlot None g]> (CSL.serverList sl).
Proof.
  intros Hs. unfold removeCrashed.
  assert (CSL.serverList (CSL.emit (CSL.serializeEntry e CSL.DOWN)
            CSL.SERVER_REMOVED sl) !! CSL.indexNumber id
          = Some (CSL.mkSlot eo g)) as Hs' by done.
  by rewrite (setEntry_serverList _ None _ _ Hs').
Qed.

Lemma removeCrashed_fields id e sl :
  CSL.updates (removeCrashed id e sl)
  = CSL.updates sl ++ [CSL.serializeEntry e CSL.DOWN]
  /\ CSL.numberOfMasters (removeCrashed id e sl) = CSL.numberOfMasters sl
  /\ CSL.numberOfBackups (removeCrashed id e sl) = CSL.numberOfBackups sl.
Proof.
  unfold removeCrashed.
  set (sl1 := CSL.emit (CSL.serializeEntry e CSL.DOWN) CSL.SERVER_REMOVED sl).
  by destruct (setEntry_fields (CSL.indexNumber id) None sl1) as (-> & -> & ->).
Qed.

Lemma remove_up id sl e :
  CSL.getReferenceFromServerId id sl = Some e ->
  CSL.status e = CSL.UP ->
  CSL.remove id sl = CSL.Ok (removeCrashed id e (crashedUp id e sl)).
Proof.
  intros He Hs. unfold CSL.remove. rewrite He, Hs.
  by rewrite (crashed_up id sl e He Hs).
Qed.

Lemma remove_not_up id sl e :
  CSL.getReferenceFromServerId id sl = Some e ->
  CSL.status e <> CSL.UP ->
  CSL.remove id sl = CSL.Ok (removeCrashed id e sl).
Proof. intros He Hs. unfold CSL.remove. rewrite He. by destruct (CSL.status e). Qed.

Lemma removeCrashed_coherent id e sl eo g :
  coherentSlots (CSL.serverList sl) ->
  CSL.serverList sl !! CSL.indexNumber id = Some (CSL.mkSlot eo g) ->
  coherentSlots (CSL.serverList (removeCrashed id e sl)).
Proof.
  intros Hc Hs. rewrite (removeCrashed_slot id e sl eo g Hs).
  apply coherentSlots_insert; [done| |done]. by apply (Hc _ _ Hs).
Qed.

Lemma wrap32_id g : 0 <= g < 2 ^ 32 -> wrap32 (g + Z.of_nat 0) = g.
Proof. intros Hg. unfold wrap32. rewrite Z.add_0_r. by apply Z.mod_small. Qed.

Lemma advancedBy_refl n slots : coherentSlots slots -> advancedBy n slots slots.
Proof.
  intros Hc i s Hs. exists s, 0%nat. split; [lia|]. split; [done|]. split.
  - symmetry. apply wrap32_id. by apply (Hc i s).
  - intros -> [e He]. done.
Qed.

Lemma advancedBy_trans n m a b c :
  advancedBy n a b -> advancedBy m b c -> advancedBy (n + m) a c.
Proof.
  intros Hab Hbc i s Hs.
  destruct (Hab i s Hs) as (s1 & j1 & Hj1 & Hs1 & Hg1 & Ht1).
  destruct (Hbc i s1 Hs1) as (s2 & j2 & Hj2 & Hs2 & Hg2 & Ht2).
  exists s2, (j1 + j2)%nat. split; [lia|]. split; [done|]. split.
  - rewrite Hg2, Hg1. unfold wrap32. rewrite Zplus_mod_idemp_l. f_equal. lia.
  - intros Hnone Hsome. destruct (CSL.entry s1) as [e1|] eqn:He1.
    + assert (1 <= j1)%nat by (apply Ht1; [done|by eexists]). lia.
    + assert (1 <= j2)%nat by (by apply Ht2). lia.
Qed.

Lemma advancedBy_grow n slots k :
  coherentSlots slots -> advancedBy n slots (slots ++ replicate k CSL.emptySlot).
Proof.
  intros Hc i s Hs. exists s, 0%nat. split; [lia|].
  split; [by apply lookup_app_l_Some|]. split.
  - symmetry. apply wrap32_id. by apply (Hc i s).
  - intros -> [e He]. done.
Qed.

Lemma advancedBy_insert n slots k s0 s1 j :
  coherentSlots slots ->
  slots !! k = Some s0 ->
  (j <= n)%nat ->
  CSL.nextGenerationNumber s1 = wrap32 (CSL.nextGenerationNumber s0 + Z.of_nat j) ->
  (CSL.entry s0 = None -> is_Some (CSL.entry s1) -> (1 <= j)%nat) ->
  advancedBy n slots (<[k := s1]> slots).
Proof.
  intros Hc Hk Hj Hg Ht i s Hs.
  destruct (decide (k = i)) as [->|Hne].
  - exists s1, j. split; [done|]. split.
    + apply list_lookup_insert_eq. by eapply lookup_lt_Some.
    + by simplify_eq.
  - exists s, 0%nat. split; [lia|]. split; [by rewrite list_lookup_insert_ne|].
    split.
    + symmetry. apply wrap32_id. by apply (Hc i s).
    + intros -> [e He]. done.
Qed.

Lemma advancedBy_insert_out n slots k s1 :
  coherentSlots slots -> slots !! k = None -> advancedBy n slots (<[k := s1]> slots).
Proof.
  intros Hc Hk. rewrite list_insert_ge by (by apply lookup_ge_None_1).
  by apply advancedBy_refl.
Qed.

Lemma add_advanced locator svc mb sl :
  coherentSlots (CSL.serverList sl) ->
  advancedBy 1 (CSL.serverList sl) (CSL.serverList (snd (CSL.add locator svc mb sl))).
Proof.
  intros Hc.
  destruct (add_serverList locator svc mb sl) as (e & He & _ & -> & Hid).
  destruct (firstFreeIndex_grows (CSL.serverList sl)) as [n Hn].
  rewrite Hid. simpl.
  set (index := fst (CSL.firstFreeIndex (CSL.serverList sl))) in *.
  rewrite Hn.
  set (slots := CSL.serverList sl ++ replicate n CSL.emptySlot) in *.
  assert (coherentSlots slots) as Hs by (by apply coherentSlots_grow).
  apply (advancedBy_trans 0 1 _ slots); [by apply advancedBy_grow|].
  destruct (slots !! index) as [s|] eqn:Hi.
  - apply (advancedBy_insert 1 slots index s _ 1); [done|done|lia|done|lia].
  - by apply advancedBy_insert_out.
Qed.

Lemma crashedUp_advanced id e sl :
  coherentSlots (CSL.serverList sl) ->
  CSL.getReferenceFromServerId id sl = Some e ->
  advancedBy 0 (CSL.serverList sl) (CSL.serverList (crashedUp id e sl)).
Proof.
  intros Hc He. destruct (getReference_slot id sl e He) as [Hid [g Hs]].
  unfold crashedUp. simpl. rewrite (setEntry_serverList _ _ _ _ Hs).
  apply (advancedBy_insert 0 _ _ _ _ 0 Hc Hs); [lia| |done]. simpl.
  symmetry. apply wrap32_id. by apply (Hc _ _ Hs).
Qed.

Lemma removeCrashed_advanced id e sl eo g :
  coherentSlots (CSL.serverList sl) ->
  CSL.serverList sl !! CSL.indexNumber id = Some (CSL.mkSlot eo g) ->
  advancedBy 0 (CSL.serverList sl) (CSL.serverList (removeCrashed id e sl)).
Proof.
  intros Hc Hs. rewrite (removeCrashed_slot id e sl eo g Hs).
  apply (advancedBy_insert 0 _ _ _ _ 0 Hc Hs); [lia| |].
  - simpl. symmetry. apply wrap32_id. by apply (Hc _ _ Hs).
  - simpl. by intros _ [e' He'].
Qed.

(** One operation keeps the slots coherent and advances each counter at
    most once. *)
Lemma step_slots op sl :
  coherentSlots (CSL.serverList sl) ->
  coherentSlots (CSL.serverList (CSL.step op sl))
  /\ advancedBy 1 (CSL.serverList sl) (CSL.serverList (CSL.step op sl)).
Proof.
  intros Hc. destruct op as [locator svc mb|id|id| | |]; simpl;
    try (split; [done|by apply advancedBy_refl]).
  - split; [by apply add_coherent|by apply add_advanced].
  - unfold CSL.crashed.
    destruct (CSL.getReferenceFromServerId id sl) as [e|] eqn:He; simpl;
      [|split; [done|by apply advancedBy_refl]].
    destruct (CSL.status e); simpl; try (split; [done|by apply advancedBy_refl]).
    split; [by apply crashedUp_coherent|].
    apply (advancedBy_trans 0 1 _ (CSL.serverList (crashedUp id e sl)));
      [by apply crashedUp_advanced|].
    apply advancedBy_refl. by apply crashedUp_coherent.
  - destruct (CSL.getReferenceFromServerId id sl) as [e|] eqn:He;
      [|unfold CSL.remove; rewrite He; simpl;
        split; [done|by apply advancedBy_refl]].
    destruct (getReference_slot id sl e He) as [Hid [g Hs]].
    destruct (decide (CSL.status e = CSL.UP)) as [Hup|Hnup].
    + rewrite (remove_up id sl e He Hup). simpl.
      pose proof (crashedUp_coherent id e sl Hc He) as Hc1.
      assert (exists eo g1, CSL.serverList (crashedUp id e sl) !! CSL.indexNumber id
                = Some (CSL.mkSlot eo g1)) as (eo & g1 & Hs1).
      { unfold crashedUp. simpl. rewrite (setEntry_lookup _ _ _ _ Hs). eauto. }
      split; [by eapply removeCrashed_coherent|].
      apply (advancedBy_trans 0 1 _ (CSL.serverList (crashedUp id e sl)));
        [by apply crashedUp_advanced|].
      apply (advancedBy_trans 0 1 _ (CSL.serverList
               (removeCrashed id e (crashedUp id e sl))));
        [by eapply removeCrashed_advanced|].
      apply advancedBy_refl. by eapply removeCrashed_coherent.
    + rewrite (remove_not_up id sl e He Hnup). simpl.
      split; [by eapply removeCrashed_coherent|].
      apply (advancedBy_trans 0 1 _ (CSL.serverList (removeCrashed id e sl)));
        [by eapply removeCrashed_advanced|].
      apply advancedBy_refl. by eapply removeCrashed_coherent.
Qed.

Lemma runOps_slots ops sl :
  coherentSlots (CSL.serverList sl) ->
  coherentSlots (CSL.serverList (CSL.runOps ops sl))
  /\ advancedBy (length ops) (CSL.serverList sl)
       (CSL.serverList (CSL.runOps ops sl)).
Proof.
  revert sl. induction ops as [|op ops IH]; intros sl Hc; simpl.
  - split; [done|by apply advancedBy_refl].
  - destruct (step_slots op sl Hc) as [Hc1 Ha1].
    destruct (IH (CSL.step op sl) Hc1) as [Hc2 Ha2].
    split; [done|]. by apply (advancedBy_trans 1 (length ops) _ _ _ Ha1).
Qed.

Lemma listReachable_coherent sl :
  listReachable sl -> coherentSlots (CSL.serverList sl).
Proof.
  intros [ops ->]. apply runOps_slots. by intros i s Hs.
Qed.

(** An entry that is found under an id sits in a slot whose counter is one
    past the id's generation. *)
Lemma getReference_counter id sl e :
  coherentSlots (CSL.serverList sl) ->
  CSL.getReferenceFromServerId id sl = Some e ->
  CSL.serverId e = id
  /\ CSL.indexNumber id <> 0%nat
  /\ 0 <= CSL.generationNumber id < 2 ^ 32
  /\ CSL.serverList sl !! CSL.indexNumber id
     = Some (CSL.mkSlot (Some e) (wrap32 (CSL.generationNumber id + 1))).
Proof.
  intros Hc He. destruct (getReference_slot id sl e He) as [Hid [g Hs]].
  destruct (Hc _ _ Hs) as [_ Hent].
  destruct (Hent e eq_refl) as (Hidx & _ & Hgen & Hnext).
  rewrite Hid in *. simpl in Hnext. by rewrite Hnext in Hs.
Qed.

(** ** Slots that are taken again *)

Lemma add_into_free_slot locator svc mb sl g :
  CSL.serverList sl = [CSL.emptySlot; CSL.mkSlot None g] ->
  fst (CSL.add locator svc mb sl) = CSL.mkServerId 1 g
  /\ exists e,
       CSL.serverId e = CSL.mkServerId 1 g
       /\ CSL.status e = CSL.UP
       /\ CSL.serverList (snd (CSL.add locator svc mb sl))
          = [CSL.emptySlot; CSL.mkSlot (Some e) (wrap32 (g + 1))].
Proof.
  intros Hsl.
  destruct (add_serverList locator svc mb sl) as (e & He & Hup & Hslots & Hid).
  rewrite Hsl in Hslots, Hid.
  change (CSL.firstFreeIndex [CSL.emptySlot; CSL.mkSlot None g])
    with (1%nat, [CSL.emptySlot; CSL.mkSlot None g]) in Hslots, Hid.
  cbn [fst snd lookup list_lookup CSL.nextGenerationNumber] in Hid.
  rewrite Hid in *. split; [done|]. exists e. by repeat split.
Qed.

Lemma recycle_slots sl g :
  CSL.serverList sl = [CSL.emptySlot; CSL.mkSlot None g] ->
  CSL.serverList (recycle sl) = [CSL.emptySlot; CSL.mkSlot None (wrap32 (g + 1))].
Proof.
  intros Hsl. unfold recycle.
  destruct (add_into_free_slot "" (CSL.mask []) 0 sl g Hsl)
    as (Hid & e & He & Hup & Hslots).
  destruct (CSL.add "" (CSL.mask []) 0 sl) as [id sl1]. simpl in *. subst id.
  assert (CSL.getReferenceFromServerId (CSL.mkServerId 1 g) sl1 = Some e) as Href.
  { apply (getReference_of_slot _ _ _ (wrap32 (g + 1))); [|done].
    by rewrite Hslots. }
  rewrite (remove_up _ _ _ Href Hup). simpl.
  assert (CSL.serverList (crashedUp (CSL.mkServerId 1 g) e sl1)
          = [CSL.emptySlot;
             CSL.mkSlot (Some (CSL.setStatus CSL.CRASHED e)) (wrap32 (g + 1))])
    as Hcr.
  { unfold crashedUp. simpl.
    rewrite (setEntry_serverList _ _ _ (CSL.mkSlot (Some e) (wrap32 (g + 1))))
      by (by rewrite Hslots).
    by rewrite Hslots. }
  rewrite (removeCrashed_slot _ _ _ (Some (CSL.setStatus CSL.CRASHED e))
             (wrap32 (g + 1))) by (by rewrite Hcr).
  by rewrite Hcr.
Qed.

Lemma recycle_first :
  CSL.serverList (recycle CSL.empty) = [CSL.emptySlot; CSL.mkSlot None 1].
Proof. vm_compute. reflexivity. Qed.

(** After [n + 1] rounds slot 1 is free and its counter has gone up [n + 1]
    times, modulo 2^32. *)
Lemma recycle_iter (n : N) :
  CSL.serverList (N.iter (N.succ n) recycle CSL.empty)
  = [CSL.emptySlot; CSL.mkSlot None (wrap32 (Z.of_N n + 1))].
Proof.
  induction n as [|n IH] using N.peano_ind.
  - exact recycle_first.
  - rewrite N.iter_succ. rewrite (recycle_slots _ _ IH).
    rewrite wrap32_add_l, N2Z.inj_succ.
    by replace (Z.succ (Z.of_N n) + 1) with (Z.of_N n + 1 + 1) by lia.
Qed.

(** When slot 1 has been taken and freed 2^32 times its counter is back
    at 0. *)
Lemma worn_slots :
  CSL.serverList (N.iter (2 ^ 32) recycle CSL.empty)
  = [CSL.emptySlot; CSL.mkSlot None 0].
Proof. exact (recycle_iter 4294967295). Qed.

(** ** remove *)

Lemma serializeEntry_setStatus e st st' :
  CSL.serializeEntry (CSL.setStatus st e) st' = CSL.serializeEntry e st'.
Proof. done. Qed.

Lemma slOneMaster_reachable : listReachable slOneMaster.
Proof. by eexists. Qed.

(** C7 fails on the list that the test drives.  [add] has already taken the
    counter of slot 1 to 1 when it issues ServerId(1, 0) (test line 125), and
    [remove] leaves it there: it is the next [add] that issues ServerId(1, 1)
    (test lines 239 and 240).  And "never" holds for a while only: the
    generation is a u32, so when slot 1 has been taken and freed 2^32 times,
    ServerId(1, 0) among them, the next [add] issues ServerId(1, 0) again and
    the lookup of it succeeds. *)
Lemma remove_leaves_generation_counter :
  let id := CSL.mkServerId 1 0 in
  let sl := slOneMaster in
  let sl' := CSL.orElse sl (CSL.remove id sl) in
  (fst (CSL.add "hi!" (CSL.mask [CSL.MASTER_SERVICE]) 100 CSL.empty) = id
   /\ (CSL.nextGenerationNumber <$> CSL.serverList sl !! 1%nat) = Some 1
   /\ CSL.remove id sl = CSL.Ok sl'
   /\ (CSL.nextGenerationNumber <$> CSL.serverList sl' !! 1%nat) = Some 1
   /\ fst (CSL.add "hi, again" (CSL.mask [CSL.BACKUP_SERVICE]) 100 sl')
      = CSL.mkServerId 1 1
   /\ fst (CSL.add "" (CSL.mask []) 0 CSL.empty) = id
   /\ CSL.getReferenceFromServerId id (recycle CSL.empty) = None)
  /\ fst (CSL.add "again" (CSL.mask []) 0 (N.iter (2 ^ 32) recycle CSL.empty))
     = CSL.mkServerId 1 0
  /\ is_Some (CSL.getReferenceFromServerId (CSL.mkServerId 1 0)
                (snd (CSL.add "again" (CSL.mask []) 0
                        (N.iter (2 ^ 32) recycle CSL.empty)))).
Proof.
  split; [vm_compute; by repeat split|].
  destruct (add_into_free_slot "again" (CSL.mask []) 0 _ 0 worn_slots)
    as (Hid & e & He & _ & Hslots).
  split; [exact Hid|]. exists e.
  refine (getReference_of_slot _ _ _ (wrap32 (0 + 1)) _ He).
  rewrite Hslots. reflexivity.
Qed.

(** C7, as amended: [remove] of an entry that is up does what [crashed] does
    (a CRASHED record in the delta, the counters of its services
    decremented), then appends a DOWN record and empties the slot.  The
    slot's generation counter it leaves alone: [add] took it one past the
    id's generation when it issued the id.  From then on the id names
    nothing: [crashed], [remove] and the lookup of it fail with
    [InvalidServerId], also after any further run of fewer than 2^32
    operations, and the next [add] that takes the slot returns the id of the
    next generation. *)
Theorem remove_up_retires_id (id : CSL.ServerId) (sl : CSL.State) (e : CSL.Entry) :
  listReachable sl ->
  CSL.getReferenceFromServerId id sl = Some e ->
  CSL.status e = CSL.UP ->
  exists sl1 sl',
    CSL.crashed id sl = CSL.Ok sl1
    /\ CSL.remove id sl = CSL.Ok sl'
    /\ CSL.remove id sl1 = CSL.Ok sl'
    /\ CSL.updates sl1 = CSL.updates sl ++ [CSL.serializeEntry e CSL.CRASHED]
    /\ CSL.numberOfMasters sl1
       = (if CSL.isMaster e then wrap32 (CSL.numberOfMasters sl - 1)
          else CSL.numberOfMasters sl)
    /\ CSL.numberOfBackups sl1
       = (if CSL.isBackup e then wrap32 (CSL.numberOfBackups sl - 1)
          else CSL.numberOfBackups sl)
    /\ CSL.updates sl'
       = CSL.updates sl ++ [CSL.serializeEntry e CSL.CRASHED;
                            CSL.serializeEntry e CSL.DOWN]
    /\ CSL.numberOfMasters sl' = CSL.numberOfMasters sl1
    /\ CSL.numberOfBackups sl' = CSL.numberOfBackups sl1
    /\ CSL.serverList sl !! CSL.indexNumber id
       = Some (CSL.mkSlot (Some e) (wrap32 (CSL.generationNumber id + 1)))
    /\ CSL.serverList sl' !! CSL.indexNumber id
       = Some (CSL.mkSlot None (wrap32 (CSL.generationNumber id + 1)))
    /\ CSL.getReferenceFromServerId id sl' = None
    /\ CSL.crashed id sl' = CSL.Fail CSL.InvalidServerId
    /\ CSL.remove id sl' = CSL.Fail CSL.InvalidServerId
    /\ (forall locator svc mb,
          fst (CSL.firstFreeIndex (CSL.serverList sl')) = CSL.indexNumber id ->
          fst (CSL.add locator svc mb sl')
          = CSL.mkServerId (CSL.indexNumber id) (wrap32 (CSL.generationNumber id + 1))
          /\ fst (CSL.add locator svc mb sl') <> id)
    /\ (forall ops,
          Z.of_nat (length ops) < 2 ^ 32 ->
          CSL.getReferenceFromServerId id (CSL.runOps ops sl') = None
          /\ CSL.crashed id (CSL.runOps ops sl') = CSL.Fail CSL.InvalidServerId
          /\ CSL.remove id (CSL.runOps ops sl') = CSL.Fail CSL.InvalidServerId).
Proof.
  intros Hreach He Hup.
  pose proof (listReachable_coherent sl Hreach) as Hc.
  destruct (getReference_counter id sl e Hc He) as (Hid & Hidx & Hgen & Hs).
  set (next := wrap32 (CSL.generationNumber id + 1)) in *.
  set (sl1 := crashedUp id e sl).
  set (sl' := removeCrashed id e sl1).
  pose proof (crashedUp_reference id sl e He) as He1. fold sl1 in He1.
  pose proof (crashedUp_coherent id e sl Hc He) as Hc1. fold sl1 in Hc1.
  assert (CSL.serverList sl1 !! CSL.indexNumber id
          = Some (CSL.mkSlot (Some (CSL.setStatus CSL.CRASHED e)) next)) as Hs1.
  { unfold sl1, crashedUp. simpl. by rewrite (setEntry_lookup _ _ _ _ Hs). }
  assert (CSL.serverList sl' !! CSL.indexNumber id
          = Some (CSL.mkSlot None next)) as Hs'.
  { unfold sl'. rewrite (removeCrashed_slot id e sl1 _ _ Hs1).
    apply list_lookup_insert_eq. by eapply lookup_lt_Some. }
  assert (coherentSlots (CSL.serverList sl')) as Hc'
    by (by eapply removeCrashed_coherent).
  assert (forall s, CSL.getReferenceFromServerId id s = None ->
            CSL.crashed id s = CSL.Fail CSL.InvalidServerId
            /\ CSL.remove id s = CSL.Fail CSL.InvalidServerId) as Hfail.
  { intros s Hn. unfold CSL.crashed, CSL.remove. by rewrite Hn. }
  pose proof (getReference_empty_slot id sl' _ Hs') as Hnone.
  exists sl1, sl'.
  split; [by apply crashed_up|].
  split; [by apply remove_up|].
  split.
  { rewrite (remove_not_up id sl1 _ He1) by done.
    unfold removeCrashed. by rewrite serializeEntry_setStatus. }
  pose proof (crashedUp_fields id e sl) as Hf1. fold sl1 in Hf1.
  destruct Hf1 as (Hu1 & Hm1 & Hb1).
  pose proof (removeCrashed_fields id e sl1) as Hf'. fold sl' in Hf'.
  destruct Hf' as (Hu' & Hm' & Hb').
  split; [done|]. split; [done|]. split; [done|].
  split; [by rewrite Hu', Hu1, <- app_assoc|].
  split; [done|]. split; [done|].
  split; [done|]. split; [done|]. split; [done|].
  split; [by apply Hfail|]. split; [by apply Hfail|].
  split.
  - intros locator svc mb Hfree.
    destruct (add_serverList locator svc mb sl') as (e' & _ & _ & _ & Hadd).
    destruct (firstFreeIndex_grows (CSL.serverList sl')) as [n Hn].
    rewrite Hfree, Hn in Hadd.
    rewrite (lookup_app_l_Some _ _ _ _ Hs') in Hadd. simpl in Hadd.
    rewrite Hadd. split; [done|].
    intros Heq. destruct id as [idx gen]. simpl in *.
    injection Heq as Heq. by apply (wrap32_succ_ne gen).
  - intros ops Hlen.
    assert (CSL.getReferenceFromServerId id (CSL.runOps ops sl') = None) as Hn;
      [|split; [done|by apply Hfail]].
    destruct (runOps_slots ops sl' Hc') as [Hcn Han].
    destruct (Han _ _ Hs') as (s2 & j & Hj & Hs2 & Hg2 & Htaken). simpl in *.
    destruct (CSL.getReferenceFromServerId id (CSL.runOps ops sl')) as [e2|] eqn:He2;
      [exfalso|done].
    destruct (getReference_counter _ _ _ Hcn He2) as (_ & _ & _ & Hs2').
    rewrite Hs2 in Hs2'. injection Hs2' as ->. simpl in *.
    assert (1 <= j)%nat as Hj1 by (apply Htaken; [done|by eexists]).
    apply (wrap32_shift_ne next (Z.of_nat j)); [apply wrap32_range|lia|done].
Qed.

Lemma remove_up_retires_id_witness :
  let id := CSL.mkServerId 1 0 in
  let sl := slOneMaster in
  let e := entryOneMaster in
  exists sl1 sl',
    CSL.crashed id sl = CSL.Ok sl1
    /\ CSL.remove id sl = CSL.Ok sl'
    /\ CSL.remove id sl1 = CSL.Ok sl'
    /\ CSL.updates sl1 = CSL.updates sl ++ [CSL.serializeEntry e CSL.CRASHED]
    /\ CSL.numberOfMasters sl1
       = (if CSL.isMaster e then wrap32 (CSL.numberOfMasters sl - 1)
          else CSL.numberOfMasters sl)
    /\ CSL.numberOfBackups sl1
       = (if CSL.isBackup e then wrap32 (CSL.numberOfBackups sl - 1)
          else CSL.numberOfBackups sl)
    /\ CSL.updates sl'
       = CSL.updates sl ++ [CSL.serializeEntry e CSL.CRASHED;
                            CSL.serializeEntry e CSL.DOWN]
    /\ CSL.numberOfMasters sl' = CSL.numberOfMasters sl1
    /\ CSL.numberOfBackups sl' = CSL.numberOfBackups sl1
    /\ CSL.serverList sl !! CSL.indexNumber id
       = Some (CSL.mkSlot (Some e) (wrap32 (CSL.generationNumber id + 1)))
    /\ CSL.serverList sl' !! CSL.indexNumber id
       = Some (CSL.mkSlot None (wrap32 (CSL.generationNumber id + 1)))
    /\ CSL.getReferenceFromServerId id sl' = None
    /\ CSL.crashed id sl' = CSL.Fail CSL.InvalidServerId
    /\ CSL.remove id sl' = CSL.Fail CSL.InvalidServerId
    /\ (forall locator svc mb,
          fst (CSL.firstFreeIndex (CSL.serverList sl')) = CSL.indexNumber id ->
          fst (CSL.add locator svc mb sl')
          = CSL.mkServerId (CSL.indexNumber id) (wrap32 (CSL.generationNumber id + 1))
          /\ fst (CSL.add locator svc mb sl') <> id)
    /\ (forall ops,
          Z.of_nat (length ops) < 2 ^ 32 ->
          CSL.getReferenceFromServerId id (CSL.runOps ops sl') = None
          /\ CSL.crashed id (CSL.runOps ops sl') = CSL.Fail CSL.InvalidServerId
          /\ CSL.remove id (CSL.runOps ops sl') = CSL.Fail CSL.InvalidServerId).
Proof.
  exact (remove_up_retires_id (CSL.mkServerId 1 0) slOneMaster entryOneMaster
           slOneMaster_reachable eq_refl eq_refl).
Defined.

(** Scenario S3: after [crashed] and [remove] of ServerId(1,0) the slot is
    empty and the next [add] returns ServerId(1,1). *)
Example scenario_crash_remove_add :
  let id := CSL.mkServerId 1 0 in
  let sl0 := clearUpdates slOneMaster in
  let sl1 := clearUpdates (CSL.orElse sl0 (CSL.crashed id sl0)) in
  let sl2 := CSL.orElse sl1 (CSL.remove id sl1) in
  CSL.crashed id sl0 = CSL.Ok (CSL.orElse sl0 (CSL.crashed id sl0))
  /\ CSL.updates (CSL.orElse sl0 (CSL.crashed id sl0))
     = [CSL.serializeEntry entryOneMaster CSL.CRASHED]
  /\ CSL.remove id sl1 = CSL.Ok sl2
  /\ CSL.updates sl2 = [CSL.serializeEntry entryOneMaster CSL.DOWN]
  /\ slotEntry 1 sl2 = None
  /\ fst (CSL.add "hi, again" (CSL.mask [CSL.MASTER_SERVICE]) 100 sl2)
     = CSL.mkServerId 1 1.
Proof. vm_compute. repeat split. Qed.

(** ** The updater *)

Lemma idKey_inj id id' : CSL.idKey id = CSL.idKey id' -> id = id'.
Proof. destruct id, id'. unfold CSL.idKey. simpl. by intros [= -> ->]. Qed.

Lemma sentTo_app id l1 l2 : sentTo id (l1 ++ l2) = sentTo id l1 ++ sentTo id l2.
Proof. apply List.filter_app. Qed.

Lemma lastKnown_record id id' v u :
  CSL.lastKnown id (CSL.record id' v u)
  = if decide (id' = id) then v else CSL.lastKnown id u.
Proof.
  unfold CSL.lastKnown, CSL.record. simpl.
  case_decide as Hid.
  - subst. by rewrite lookup_insert_eq.
  - rewrite lookup_insert_ne; [done|]. intros Hk. by apply idKey_inj in Hk.
Qed.

(** One recipient: what is sent and what is recorded, by the version the
    recipient is known at and the replies that the transport gives next. *)
Lemma sendTo_self id m sl u :
  let u' := CSL.sendTo id m sl u in
  CSL.u_sent u'
  = CSL.u_sent u ++ expectedRpcs id m sl (CSL.lastKnown id u) (replyAt 0 u)
  /\ Forall (fun rpc => CSL.recipient rpc = id)
       (expectedRpcs id m sl (CSL.lastKnown id u) (replyAt 0 u))
  /\ CSL.lastKnown id u'
     = expectedVersion m sl (CSL.lastKnown id u) (replyAt 0 u) (replyAt 1 u).
Proof.
  unfold CSL.sendTo, expectedRpcs, expectedVersion, replyAt, CSL.pushFullList,
    CSL.call, CSL.nextReply.
  destruct (Z.eqb_spec (CSL.lastKnown id u) (CSL.version_number m - 1)) as [Heq|Hne].
  - rewrite !decide_True by done.
    destruct (CSL.u_replies u) as [|[| |] [|[| |] rest]]; simpl;
      rewrite <- ?app_assoc, ?lastKnown_record, ?decide_True by done;
      repeat split; repeat constructor; done.
  - rewrite !decide_False by done.
    destruct (CSL.u_replies u) as [|[| |] rest]; simpl;
      rewrite ?lastKnown_record, ?decide_True by done;
      repeat split; repeat constructor; done.
Qed.

Lemma sentTo_none id id' l :
  id' <> id -> Forall (fun rpc => CSL.recipient rpc = id') l -> sentTo id l = [].
Proof.
  intros Hne. induction 1 as [|rpc l Hrpc _ IH]; [done|]. simpl.
  by rewrite bool_decide_false by congruence.
Qed.

(** One recipient leaves the others' RPCs and recorded versions alone. *)
Lemma sendTo_other id id' m sl u :
  id' <> id ->
  exists new,
    CSL.u_sent (CSL.sendTo id' m sl u) = CSL.u_sent u ++ new
    /\ sentTo id new = []
    /\ CSL.lastKnown id (CSL.sendTo id' m sl u) = CSL.lastKnown id u.
Proof.
  intros Hne.
  destruct (sendTo_self id' m sl u) as (Hsent & Hto & _).
  eexists. split; [done|]. split; [by apply (sentTo_none id id')|].
  unfold CSL.sendTo, CSL.pushFullList, CSL.call, CSL.nextReply.
  destruct (CSL.lastKnown id' u =? CSL.version_number m - 1);
    destruct (CSL.u_replies u) as [|[| |] [|[| |] rest]]; simpl;
    rewrite ?lastKnown_record, ?decide_False by done; done.
Qed.

Lemma sentTo_all id l :
  Forall (fun rpc => CSL.recipient rpc = id) l -> sentTo id l = l.
Proof.
  induction 1 as [|rpc l Hrpc _ IH]; [done|]. simpl.
  rewrite bool_decide_true by done. by rewrite IH.
Qed.

Lemma sendAll_other id m sl l u :
  id ∉ CSL.serverId <$> l ->
  exists new,
    CSL.u_sent (sendAll m sl l u) = CSL.u_sent u ++ new
    /\ sentTo id new = []
    /\ CSL.lastKnown id (sendAll m sl l u) = CSL.lastKnown id u.
Proof.
  revert u. induction l as [|a l IH]; intros u Hid.
  - exists []. by rewrite app_nil_r.
  - rewrite fmap_cons in Hid. apply not_elem_of_cons in Hid as [Hne Hid].
    simpl.
    destruct (IH (CSL.sendTo (CSL.serverId a) m sl u) Hid) as (n2 & -> & Hn2 & ->).
    destruct (sendTo_other id (CSL.serverId a) m sl u) as (n1 & -> & Hn1 & ->);
      [done|].
    exists (n1 ++ n2). rewrite <- app_assoc. split; [done|]. split; [|done].
    by rewrite sentTo_app, Hn1, Hn2.
Qed.

Lemma sendAll_app m sl l1 e l2 u :
  sendAll m sl (l1 ++ e :: l2) u
  = sendAll m sl l2 (CSL.sendTo (CSL.serverId e) m sl (sendAll m sl l1 u)).
Proof. unfold sendAll. by rewrite foldl_app. Qed.

(** All recipients in turn: the RPCs to one of them are sent in one block,
    when its turn comes, and that block and the version recorded are those
    of section 4.3 for the replies the transport gives at that point. *)
Lemma sendAll_recipient m sl ahead e behind u :
  NoDup (CSL.serverId <$> ahead ++ e :: behind) ->
  let id := CSL.serverId e in
  let u1 := sendAll m sl ahead u in
  let u' := sendAll m sl (ahead ++ e :: behind) u in
  let block := expectedRpcs id m sl (CSL.lastKnown id u) (replyAt 0 u1) in
  exists before behind',
    CSL.u_sent u' = CSL.u_sent u ++ before ++ block ++ behind'
    /\ sentTo id before = []
    /\ sentTo id behind' = []
    /\ sentTo id block = block
    /\ CSL.lastKnown id u'
       = expectedVersion m sl (CSL.lastKnown id u) (replyAt 0 u1) (replyAt 1 u1).
Proof.
  intros Hnd id u1 u' block.
  rewrite fmap_app, fmap_cons in Hnd.
  apply NoDup_app in Hnd as (_ & Hdisj & Hnd).
  apply NoDup_cons in Hnd as [Hbehind _].
  assert (id ∉ CSL.serverId <$> ahead) as Hahead.
  { intros Hin. apply (Hdisj _ Hin). by left. }
  destruct (sendAll_other id m sl ahead u Hahead) as (before & Hs1 & Hb1 & Hk1).
  fold u1 in Hs1, Hk1.
  destruct (sendTo_self id m sl u1) as (Hs2 & Hto & Hk2).
  destruct (sendAll_other id m sl behind (CSL.sendTo id m sl u1) Hbehind)
    as (behind' & Hs3 & Hb3 & Hk3).
  exists before, behind'.
  unfold u'. rewrite sendAll_app. fold id u1.
  rewrite Hs3, Hs2, Hs1, Hk3, Hk2, Hk1. rewrite <- !app_assoc.
  split; [done|]. split; [done|]. split; [done|]. split; [|done].
  unfold block. rewrite <- Hk1. by apply sentTo_all.
Qed.

Lemma sendAll_sent m sl l u rpc :
  rpc ∈ CSL.u_sent (sendAll m sl l u) ->
  rpc ∈ CSL.u_sent u \/ exists e, e ∈ l /\ CSL.recipient rpc = CSL.serverId e.
Proof.
  revert u. induction l as [|a l IH]; intros u Hin; [by left|].
  simpl in Hin. apply IH in Hin as [Hin|(e & He & Hr)].
  - destruct (sendTo_self (CSL.serverId a) m sl u) as (Hsent & Hto & _).
    rewrite Hsent in Hin. apply elem_of_app in Hin as [Hin|Hin]; [by left|].
    right. exists a. split; [by left|].
    rewrite Forall_forall in Hto. by apply Hto.
  - right. exists e. split; [by right|done].
Qed.

(** The recipients of a message are the entries that are up, advertise the
    membership service and are not excluded. *)
Lemma elem_of_recipients m sl e :
  e ∈ CSL.recipients m sl <->
  exists i s, CSL.serverList sl !! i = Some s /\ CSL.entry s = Some e
    /\ CSL.status e = CSL.UP
    /\ CSL.has (CSL.services e) CSL.MEMBERSHIP_SERVICE = true
    /\ CSL.serverId e ∉ CSL.excluded m.
Proof.
  unfold CSL.recipients. rewrite list_elem_of_omap. split.
  - intros (s & Hs & He). apply list_elem_of_lookup in Hs as [i Hi].
    destruct (CSL.entry s) as [e'|] eqn:Hent; [|done].
    destruct (CSL.isRecipient m e') eqn:Hrec; [|done]. injection He as ->.
    unfold CSL.isRecipient in Hrec.
    destruct (CSL.status e) eqn:Hst; try done.
    apply andb_true_iff in Hrec as [Hm Hex]. apply bool_decide_eq_true in Hex.
    by exists i, s.
  - intros (i & s & Hi & Hent & Hst & Hm & Hex).
    exists s. split; [by eapply list_elem_of_lookup_2|].
    rewrite Hent. unfold CSL.isRecipient. rewrite Hst, Hm. simpl.
    by rewrite bool_decide_true.
Qed.

(** In coherent slots no two entries carry the same id. *)
Lemma slots_ids_NoDup (f : CSL.Slot -> option CSL.Entry) slots k :
  (forall s e, f s = Some e -> CSL.entry s = Some e) ->
  (forall i s e, slots !! i = Some s -> CSL.entry s = Some e ->
     CSL.indexNumber (CSL.serverId e) = (k + i)%nat) ->
  NoDup (CSL.serverId <$> omap f slots)
  /\ Forall (fun e => (k <= CSL.indexNumber (CSL.serverId e))%nat) (omap f slots).
Proof.
  intros Hf. revert k. induction slots as [|s slots IH]; intros k Hidx.
  - split; constructor.
  - destruct (IH (S k)) as [Hnd Hge].
    { intros i s' e Hi He. rewrite (Hidx (S i) s' e Hi He). lia. }
    simpl. destruct (f s) as [e|] eqn:Hfs.
    + assert (CSL.indexNumber (CSL.serverId e) = k) as Hk.
      { rewrite (Hidx 0%nat s e eq_refl (Hf _ _ Hfs)). lia. }
      split.
      * rewrite fmap_cons. apply NoDup_cons. split; [|done].
        intros Hin. apply list_elem_of_fmap in Hin as (e' & Heq & Hin).
        rewrite Forall_forall in Hge. apply Hge in Hin.
        rewrite <- Heq in Hin. lia.
      * constructor; [lia|]. eapply Forall_impl; [done|]. simpl. lia.
    + split; [done|]. eapply Forall_impl; [done|]. simpl. lia.
Qed.

Lemma recipients_NoDup m sl :
  coherentSlots (CSL.serverList sl) ->
  NoDup (CSL.serverId <$> CSL.recipients m sl).
Proof.
  intros Hc. apply (slots_ids_NoDup _ _ 0).
  - intros s e. destruct (CSL.entry s) as [e'|]; [|done].
    by destruct (CSL.isRecipient m e'); intros [= ->].
  - intros i s e Hi He. destruct (Hc i s Hi) as [_ Hent].
    by destruct (Hent e He) as (_ & -> & _).
Qed.

(** C6 fails on the list that the test drives, for a recipient that has not
    acknowledged any version.  In the test servers 5 (in slot 1, of
    generation 1) and 4 have never been sent anything when the update of
    version 1 is dispatched; each is sent that update itself, and server 4,
    which takes it, is never sent the list. *)
Lemma first_contact_is_sent_the_delta :
  let server5 := CSL.mkServerId 1 1 in
  let server4 := CSL.mkServerId 4 0 in
  let sent := snd (CSL.sync [CSL.ReplyLostUpdate; CSL.ReplyOk; CSL.ReplyOk]
                     slTestUpdate) in
  CSL.acked slTestUpdate !! CSL.idKey server5 = None
  /\ CSL.acked slTestUpdate !! CSL.idKey server4 = None
  /\ (CSL.version_number <$> CSL.msgQueue slTestUpdate) = [1]
  /\ map (fun rpc => (match rpc with
                      | CSL.UpdateServerList _ _ v => ("update", v)
                      | CSL.SetServerList _ _ v => ("set", v)
                      end, CSL.recipient rpc)) sent
     = [("update", 1, server5); ("set", 1, server5); ("update", 1, server4)]
  /\ length (sentTo server4 sent) = 1%nat.
Proof. vm_compute. repeat split. Qed.

(** C6, as amended: in the dispatch of an update, RPCs go only to entries
    that are up, advertise the membership service and are not excluded; an
    id that names no such entry (a crashed, removed, non-membership or
    excluded server) is sent nothing.  The RPCs to a recipient go out in one
    block, when its turn in slot order comes.  A recipient recorded at the
    version before the delta's, a recipient that has acknowledged nothing
    counting as at version 0, is sent the delta: on the transport's answer
    ok the delta's version is recorded for it, and on lost-update the whole
    list follows at once.  A recipient recorded at any other version is sent
    the whole list.  A list that is answered is recorded at the list's
    version. *)
Theorem membership_update_protocol
    (m : CSL.Message) (sl : CSL.State) (u : CSL.Updater) :
  listReachable sl ->
  let u' := CSL.dispatchUpdate m sl u in
  let eligible (e : CSL.Entry) :=
    CSL.status e = CSL.UP
    /\ CSL.has (CSL.services e) CSL.MEMBERSHIP_SERVICE = true
    /\ CSL.serverId e ∉ CSL.excluded m in
  (forall rpc, rpc ∈ CSL.u_sent u' ->
     rpc ∈ CSL.u_sent u
     \/ exists e,
          CSL.getReferenceFromServerId (CSL.recipient rpc) sl = Some e
          /\ eligible e)
  /\ (forall id,
        (forall e, CSL.getReferenceFromServerId id sl = Some e -> ~ eligible e) ->
        sentTo id (CSL.u_sent u') = sentTo id (CSL.u_sent u))
  /\ (forall id e,
        CSL.getReferenceFromServerId id sl = Some e ->
        eligible e ->
        let incremental :=
          CSL.UpdateServerList id (CSL.update m) (CSL.version_number m) in
        let fullList :=
          CSL.SetServerList id (CSL.serialize CSL.allServices sl) (CSL.version sl) in
        let known := CSL.lastKnown id u in
        (CSL.u_acked u !! CSL.idKey id = None -> known = 0)
        /\ exists ahead behind block before after_,
             CSL.recipients m sl = ahead ++ e :: behind
             /\ CSL.u_sent u' = CSL.u_sent u ++ before ++ block ++ after_
             /\ sentTo id before = [] /\ sentTo id after_ = []
             /\ sentTo id (CSL.u_sent u') = sentTo id (CSL.u_sent u) ++ block
             /\ let u1 := sendAll m sl ahead u in
                let reply := replyAt 0 u1 in
                (known = CSL.version_number m - 1 ->
                   (reply = CSL.ReplyOk ->
                      block = [incremental]
                      /\ CSL.lastKnown id u' = CSL.version_number m)
                   /\ (reply = CSL.ReplyLostUpdate ->
                         block = [incremental; fullList]
                         /\ (replyAt 1 u1 <> CSL.TransportFailure ->
                               CSL.lastKnown id u' = CSL.version sl))
                   /\ (reply = CSL.TransportFailure ->
                         block = [incremental] /\ CSL.lastKnown id u' = known))
                /\ (known <> CSL.version_number m - 1 ->
                      block = [fullList]
                      /\ (reply <> CSL.TransportFailure ->
                            CSL.lastKnown id u' = CSL.version sl))).
Proof.
  intros Hreach u' eligible. apply listReachable_coherent in Hreach.
  assert (forall e, e ∈ CSL.recipients m sl ->
            CSL.getReferenceFromServerId (CSL.serverId e) sl = Some e
            /\ eligible e) as Hrec.
  { intros e He.
    apply elem_of_recipients in He as (i & s & Hi & Hent & Hst & Hm & Hex).
    split; [|done]. destruct s as [eo g]. simpl in Hent. subst eo.
    destruct (Hreach _ _ Hi) as [_ He]. destruct (He e eq_refl) as (_ & Hidx & _).
    apply (getReference_of_slot _ _ _ g); [|done]. by rewrite Hidx. }
  split; [|split].
  - intros rpc Hin. apply sendAll_sent in Hin as [Hin|(e & He & Hr)]; [by left|].
    right. exists e. rewrite Hr. by apply Hrec.
  - intros id Hno.
    destruct (sendAll_other id m sl (CSL.recipients m sl) u) as (new & Hs & Hn & _).
    + intros Hin. apply list_elem_of_fmap in Hin as (e & -> & He).
      destruct (Hrec e He) as [Href Hel]. by apply (Hno e).
    + unfold u', CSL.dispatchUpdate. fold (sendAll m sl (CSL.recipients m sl) u).
      by rewrite Hs, sentTo_app, Hn, app_nil_r.
  - intros id e Href (Hst & Hm & Hex) incremental fullList known.
    split; [intros Hnone; unfold known, CSL.lastKnown; by rewrite Hnone|].
    destruct (getReference_slot id sl e Href) as [Hid [g Hs]].
    assert (e ∈ CSL.recipients m sl) as He
      by (apply elem_of_recipients; eauto 10).
    apply list_elem_of_split in He as (ahead & behind & Hsplit).
    pose proof (recipients_NoDup m sl Hreach) as Hnd. rewrite Hsplit in Hnd.
    destruct (sendAll_recipient m sl ahead e behind u Hnd)
      as (before & after_ & Hsent & Hb1 & Hb2 & Hblock & Hk).
    rewrite Hid in *. fold known in Hsent, Hblock, Hk.
    assert (CSL.dispatchUpdate m sl u = sendAll m sl (ahead ++ e :: behind) u)
      as Hu' by (unfold CSL.dispatchUpdate, sendAll; by rewrite Hsplit).
    unfold u'. rewrite Hu'.
    exists ahead, behind,
      (expectedRpcs id m sl known (replyAt 0 (sendAll m sl ahead u))),
      before, after_.
    split; [done|]. split; [done|]. split; [done|]. split; [done|].
    split; [by rewrite Hsent, !sentTo_app, Hb1, Hb2, Hblock, app_nil_r|].
    rewrite Hk. unfold expectedRpcs, expectedVersion. split.
    + intros Hknown. rewrite !decide_True by done.
      split; [by intros ->|]. split; [|by intros ->].
      intros ->. split; [done|].
      intros Hr2. by destruct (replyAt 1 (sendAll m sl ahead u)).
    + intros Hknown. rewrite !decide_False by done. split; [done|].
      intros Hr. by destruct (replyAt 0 (sendAll m sl ahead u)).
Qed.

Lemma slTwoSubscribers_reachable : listReachable slTwoSubscribers.
Proof. by eexists. Qed.

Lemma membership_update_protocol_witness :
  let m := firstUpdate in
  let sl := slTwoSubscribers in
  let u := CSL.mkUpdater ∅ [] [] [CSL.ReplyLostUpdate; CSL.ReplyOk; CSL.ReplyOk] in
  let u' := CSL.dispatchUpdate m sl u in
  let eligible (e : CSL.Entry) :=
    CSL.status e = CSL.UP
    /\ CSL.has (CSL.services e) CSL.MEMBERSHIP_SERVICE = true
    /\ CSL.serverId e ∉ CSL.excluded m in
  (forall rpc, rpc ∈ CSL.u_sent u' ->
     rpc ∈ CSL.u_sent u
     \/ exists e,
          CSL.getReferenceFromServerId (CSL.recipient rpc) sl = Some e
          /\ eligible e)
  /\ (forall id,
        (forall e, CSL.getReferenceFromServerId id sl = Some e -> ~ eligible e) ->
        sentTo id (CSL.u_sent u') = sentTo id (CSL.u_sent u))
  /\ (forall id e,
        CSL.getReferenceFromServerId id sl = Some e ->
        eligible e ->
        let incremental :=
          CSL.UpdateServerList id (CSL.update m) (CSL.version_number m) in
        let fullList :=
          CSL.SetServerList id (CSL.serialize CSL.allServices sl) (CSL.version sl) in
        let known := CSL.lastKnown id u in
        (CSL.u_acked u !! CSL.idKey id = None -> known = 0)
        /\ exists ahead behind block before after_,
             CSL.recipients m sl = ahead ++ e :: behind
             /\ CSL.u_sent u' = CSL.u_sent u ++ before ++ block ++ after_
             /\ sentTo id before = [] /\ sentTo id after_ = []
             /\ sentTo id (CSL.u_sent u') = sentTo id (CSL.u_sent u) ++ block
             /\ let u1 := sendAll m sl ahead u in
                let reply := replyAt 0 u1 in
                (known = CSL.version_number m - 1 ->
                   (reply = CSL.ReplyOk ->
                      block = [incremental]
                      /\ CSL.lastKnown id u' = CSL.version_number m)
                   /\ (reply = CSL.ReplyLostUpdate ->
                         block = [incremental; fullList]
                         /\ (replyAt 1 u1 <> CSL.TransportFailure ->
                               CSL.lastKnown id u' = CSL.version sl))
                   /\ (reply = CSL.TransportFailure ->
                         block = [incremental] /\ CSL.lastKnown id u' = known))
                /\ (known <> CSL.version_number m - 1 ->
                      block = [fullList]
                      /\ (reply <> CSL.TransportFailure ->
                            CSL.lastKnown id u' = CSL.version sl))).
Proof.
  exact (membership_update_protocol firstUpdate slTwoSubscribers
           (CSL.mkUpdater ∅ [] [] [CSL.ReplyLostUpdate; CSL.ReplyOk; CSL.ReplyOk])
           slTwoSubscribers_reachable).
Defined.

(** On that list the queued message is [firstUpdate], and its dispatch is
    the one of the test: the first subscriber loses the update and is sent
    the list, the second takes the update. *)
Example firstUpdate_dispatch :
  CSL.msgQueue slTwoSubscribers = [firstUpdate]
  /\ snd (CSL.sync [CSL.ReplyLostUpdate; CSL.ReplyOk; CSL.ReplyOk] slTwoSubscribers)
     = [CSL.UpdateServerList (CSL.mkServerId 1 0) (CSL.update firstUpdate) 1;
        CSL.SetServerList (CSL.mkServerId 1 0)
          (CSL.serialize CSL.allServices slTwoSubscribers) 1;
        CSL.UpdateServerList (CSL.mkServerId 2 0) (CSL.update firstUpdate) 1].
Proof. vm_compute. split; reflexivity. Qed.

(** Scenario S4: a subscriber still at version 0 when the list has reached
    version 3 is sent the whole list, at version 3, not the deltas. *)
Example scenario_lost_updates :
  let sl := CSL.runOps
              [CSL.OpAdd "mock:host=r" (CSL.mask [CSL.MEMBERSHIP_SERVICE]) 0;
               CSL.OpSendMembershipUpdate [CSL.mkServerId 1 0];
               CSL.OpSync [];
               CSL.OpAdd "mock:host=b" (CSL.mask [CSL.BACKUP_SERVICE]) 100;
               CSL.OpSendMembershipUpdate [CSL.mkServerId 1 0];
               CSL.OpSync [];
               CSL.OpCrashed (CSL.mkServerId 2 0);
               CSL.OpSendMembershipUpdate []] CSL.empty in
  CSL.version sl = 3
  /\ snd (CSL.sync [CSL.ReplyOk] sl)
     = [CSL.SetServerList (CSL.mkServerId 1 0) (CSL.serialize CSL.allServices sl) 3].
Proof. vm_compute. split; reflexivity. Qed.

(** * Further properties of the coordinator *)

(** ** The handlers, case by case *)

Lemma findLocator_Some serviceLocator k l i e :
  findLocator serviceLocator k l = Some (i, e) ->
  exists pre post,
    l = pre ++ e :: post /\ i = (k + length pre)%nat
    /\ Forall (fun e' => ServerList.service_locator e' <> serviceLocator) pre
    /\ ServerList.service_locator e = serviceLocator.
Proof.
  revert k. induction l as [|a l IH]; intros k; simpl; [done|].
  destruct (String.eqb_spec (ServerList.service_locator a) serviceLocator)
    as [Heq|Hne].
  - intros [= <- <-]. exists [], l. simpl. repeat split; [lia|constructor|done].
  - intros Hf. destruct (IH _ Hf) as (pre & post & -> & -> & Hpre & Hloc).
    exists (a :: pre), post. simpl. repeat split; [lia|by constructor|done].
Qed.

(** The three ways of [hintServerDown]: a master, else a backup, else
    nobody. *)
Lemma hintServerDown_cases serviceLocator cs :
  let r := hintServerDown serviceLocator cs in
  (exists pre master post,
      masterList cs = pre ++ master :: post
      /\ Forall (fun e => ServerList.service_locator e <> serviceLocator) pre
      /\ ServerList.service_locator master = serviceLocator
      /\ after r = mkCoordinator (nextServerId cs) (backupList cs)
                     (swapRemove (length pre) (masterList cs))
                     (map (markRecovering (ServerList.server_id master))
                        (tabletMap cs))
                     (tables cs) (nextTableId cs) (mockRecovery cs))
  \/ (Forall (fun e => ServerList.service_locator e <> serviceLocator)
        (masterList cs)
      /\ exists pre backup post,
           backupList cs = pre ++ backup :: post
           /\ Forall (fun e => ServerList.service_locator e <> serviceLocator) pre
           /\ ServerList.service_locator backup = serviceLocator
           /\ r = mkResult (Returned RespEmpty)
                    (mkCoordinator (nextServerId cs)
                       (swapRemove (length pre) (backupList cs))
                       (masterList cs) (tabletMap cs) (tables cs)
                       (nextTableId cs) (mockRecovery cs))
                    [Respond; LOG (LogHintServerDown serviceLocator)])
  \/ (Forall (fun e => ServerList.service_locator e <> serviceLocator)
        (masterList cs ++ backupList cs)
      /\ r = mkResult (Returned RespEmpty) cs
               [Respond; LOG (LogHintServerDown serviceLocator)]).
Proof.
  unfold hintServerDown.
  destruct (findLocator serviceLocator 0 (masterList cs)) as [[i master]|] eqn:Hm.
  - left. destruct (findLocator_Some _ _ _ _ _ Hm)
      as (pre & post & Hl & -> & Hpre & Hloc).
    exists pre, master, post. simpl.
    split; [done|]. split; [done|]. split; [done|].
    destruct (ServerList.user_data master); [by destruct (mockRecovery cs)|done].
  - apply findLocator_None in Hm.
    destruct (findLocator serviceLocator 0 (backupList cs)) as [[i backup]|] eqn:Hb.
    + right. left. split; [done|].
      destruct (findLocator_Some _ _ _ _ _ Hb)
        as (pre & post & Hl & -> & Hpre & Hloc).
      by exists pre, backup, post.
    + right. right. apply findLocator_None in Hb.
      split; [by apply Forall_app|done].
Qed.

Lemma createTable_cases name cs :
  outcome (createTable name cs) <> Undefined ->
  (masterList cs = []
   /\ createTable name cs = mkResult (Thrown RetryException) cs [])
  \/ (is_Some (tables cs !! name) /\ masterList cs <> []
      /\ createTable name cs = mkResult (Returned RespEmpty) cs [])
  \/ (exists master others will,
        masterList cs = master :: others /\ tables cs !! name = None
        /\ ServerList.user_data master = Some will).
Proof.
  unfold createTable.
  destruct (masterList cs) as [|master others] eqn:Hm; [by left|].
  destruct (tables cs !! name) as [id|] eqn:Hn; [right; left; eauto|].
  destruct (ServerList.user_data master) as [will|] eqn:Hw; [|done].
  intros _. right. right. by exists master, others, will.
Qed.

Lemma dropTable_cases name cs :
  let r := dropTable name cs in
  outcome r <> Undefined ->
  (tables cs !! name = None /\ r = mkResult (Returned RespEmpty) cs [])
  \/ (exists tableId first others,
        tables cs !! name = Some tableId /\ masterList cs = first :: others
        /\ outcome r = Returned RespEmpty
        /\ after r = mkCoordinator (nextServerId cs) (backupList cs) (masterList cs)
                       (dropTablets (length (tabletMap cs)) tableId 0 (tabletMap cs))
                       (delete name (tables cs)) (nextTableId cs) (mockRecovery cs)).
Proof.
  unfold dropTable.
  destruct (tables cs !! name) as [id|] eqn:Hn; [|by left].
  destruct (masterList cs) as [|first others] eqn:Hm; [done|].
  intros _. right. by exists id, first, others.
Qed.

(** ** Server ids *)

Lemma serversOk_same n cs cs' :
  nextServerId cs' = nextServerId cs ->
  masterList cs' = masterList cs ->
  backupList cs' = backupList cs ->
  serversOk n cs -> serversOk (n + 1) cs'.
Proof.
  unfold serversOk. intros -> -> -> (Hn & Hids & Hnd & Hm & Hb).
  repeat split; try done; lia.
Qed.

Lemma serversOk_enlist n serverType serviceLocator cs :
  serversOk n cs -> n + 1 < 2 ^ 32 ->
  serversOk (n + 1) (after (enlistServer serverType serviceLocator cs)).
Proof.
  unfold serversOk. intros (Hn & Hids & Hnd & Hm & Hb) Hbound.
  assert (wrap64 (nextServerId cs + 1) = nextServerId cs + 1) as Hw
    by (unfold wrap64; apply Z.mod_small; lia).
  assert (nextServerId cs ∉ serverIds (masterList cs ++ backupList cs)) as Hnew.
  { intros Hin. apply list_elem_of_fmap in Hin as (e & He & Hin).
    rewrite Forall_forall in Hids. apply Hids in Hin. lia. }
  assert (Forall (fun e => 1 <= ServerList.server_id e < nextServerId cs + 1)
            (masterList cs ++ backupList cs)) as Hids'.
  { eapply Forall_impl; [done|]. simpl. lia. }
  destruct serverType; simpl; rewrite Hw.
  - split; [lia|].
    assert ((masterList cs ++
               [ServerList.mkEntry ServerList.MASTER (nextServerId cs)
                  serviceLocator (Some [])]) ++ backupList cs
            ≡ₚ ServerList.mkEntry ServerList.MASTER (nextServerId cs)
                 serviceLocator (Some []) :: masterList cs ++ backupList cs) as Hp.
    { rewrite <- app_assoc. simpl. by rewrite <- Permutation_middle. }
    split; [rewrite Hp; constructor; [simpl; lia|done]|].
    split; [unfold serverIds in *; rewrite Hp, fmap_cons; by constructor|].
    split; [|done]. apply Forall_app. split; [done|].
    repeat constructor. by eexists.
  - split; [lia|].
    assert (masterList cs ++ backupList cs ++
               [ServerList.mkEntry ServerList.BACKUP (nextServerId cs)
                  serviceLocator None]
            ≡ₚ ServerList.mkEntry ServerList.BACKUP (nextServerId cs)
                 serviceLocator None :: masterList cs ++ backupList cs) as Hp.
    { rewrite app_assoc. by rewrite <- Permutation_cons_append. }
    split; [rewrite Hp; constructor; [simpl; lia|done]|].
    split; [unfold serverIds in *; rewrite Hp, fmap_cons; by constructor|].
    split; [done|]. apply Forall_app. split; [done|]. by repeat constructor.
Qed.

Lemma serversOk_remove_master n cs pre master post :
  masterList cs = pre ++ master :: post ->
  serversOk n cs ->
  forall cs',
    nextServerId cs' = nextServerId cs ->
    masterList cs' = swapRemove (length pre) (masterList cs) ->
    backupList cs' = backupList cs ->
    serversOk (n + 1) cs'.
Proof.
  unfold serversOk. intros Hl (Hn & Hids & Hnd & Hm & Hb) cs' -> Hml ->.
  assert (masterList cs' ≡ₚ pre ++ post) as Hp
    by (rewrite Hml, Hl; apply swapRemove_middle).
  assert (masterList cs ++ backupList cs
          ≡ₚ master :: masterList cs' ++ backupList cs) as Hall.
  { rewrite Hp, Hl, <- !app_assoc. simpl. by rewrite <- Permutation_middle. }
  rewrite Hall in Hids. unfold serverIds in *. rewrite Hall, fmap_cons in Hnd.
  apply Forall_cons in Hids as [_ Hids]. apply NoDup_cons in Hnd as [_ Hnd].
  split; [lia|]. split; [done|]. split; [done|]. split; [|done].
  rewrite Hp. rewrite Hl in Hm. apply Forall_app in Hm as [Hpre Hm].
  apply Forall_cons in Hm as [_ Hpost]. by apply Forall_app.
Qed.

Lemma serversOk_remove_backup n cs pre backup post :
  backupList cs = pre ++ backup :: post ->
  serversOk n cs ->
  forall cs',
    nextServerId cs' = nextServerId cs ->
    masterList cs' = masterList cs ->
    backupList cs' = swapRemove (length pre) (backupList cs) ->
    serversOk (n + 1) cs'.
Proof.
  unfold serversOk. intros Hl (Hn & Hids & Hnd & Hm & Hb) cs' -> -> Hbl.
  assert (backupList cs' ≡ₚ pre ++ post) as Hp
    by (rewrite Hbl, Hl; apply swapRemove_middle).
  assert (masterList cs ++ backupList cs
          ≡ₚ backup :: masterList cs ++ backupList cs') as Hall.
  { rewrite Hp, Hl. by rewrite <- !Permutation_middle. }
  rewrite Hall in Hids. unfold serverIds in *. rewrite Hall, fmap_cons in Hnd.
  apply Forall_cons in Hids as [_ Hids]. apply NoDup_cons in Hnd as [_ Hnd].
  split; [lia|]. split; [done|]. split; [done|]. split; [done|].
  rewrite Hp. rewrite Hl in Hb. apply Forall_app in Hb as [Hpre Hb].
  apply Forall_cons in Hb as [_ Hpost]. by apply Forall_app.
Qed.

Lemma serversOk_dispatch n rpc cs :
  serversOk n cs -> n + 1 < 2 ^ 32 ->
  outcome (dispatch rpc cs) <> Undefined ->
  serversOk (n + 1) (after (dispatch rpc cs)).
Proof.
  intros Hok Hn Hdef. destruct rpc; simpl in *;
    try (by apply (serversOk_same n cs)).
  - destruct (createTable_cases name cs Hdef)
      as [[_ ->]|[(_ & _ & ->)|(master & others & will & Hm & Hname & Hw)]];
      try (by apply (serversOk_same n cs)).
    rewrite (createTable_new name cs master others will Hm Hname Hw). simpl.
    destruct Hok as (Hc & Hids & Hnd & Hms & Hb). rewrite Hm in *.
    unfold serversOk, serverIds in *. simpl in *.
    apply Forall_cons in Hids as [Hid Hids]. apply Forall_cons in Hms as [Hmm Hms].
    repeat split; try done; try lia; try (by constructor).
    constructor; [|done]. split; [by apply Hmm|by eexists].
  - destruct (dropTable_cases name cs Hdef)
      as [[_ ->]|(id & first & others & _ & _ & _ & ->)];
      by apply (serversOk_same n cs).
  - unfold openTable. destruct (tables cs !! name);
      by apply (serversOk_same n cs).
  - by apply serversOk_enlist.
  - destruct (hintServerDown_cases serviceLocator cs)
      as [(pre & m & post & Hl & _ & _ & ->)
         |[(_ & pre & b & post & Hl & _ & _ & ->)|(_ & ->)]].
    + by apply (serversOk_remove_master n cs pre m post).
    + by apply (serversOk_remove_backup n cs pre b post).
    + by apply (serversOk_same n cs).
Qed.

(** ** Tables and their tablets *)

Lemma elem_of_tableIds cs id :
  id ∈ tableIds cs <-> exists name, tables cs !! name = Some id.
Proof.
  unfold tableIds. rewrite list_elem_of_fmap. split.
  - intros ([name id'] & -> & Hin). exists name. by apply elem_of_map_to_list.
  - intros [name Hn]. exists (name, id). split; [done|].
    by apply elem_of_map_to_list.
Qed.

Lemma fmap_filter_otherTable id (l : list Tablet) :
  Tablets.table_id <$> filter (otherTable id) l
  = filter (fun x => x <> id) (Tablets.table_id <$> l).
Proof.
  induction l as [|t l IH]; [done|].
  rewrite fmap_cons, !filter_cons. unfold otherTable at 1.
  destruct (decide (Tablets.table_id t <> id)); by rewrite ?fmap_cons, IH.
Qed.

Lemma markRecovering_table_ids serverId (l : list Tablet) :
  Tablets.table_id <$> map (markRecovering serverId) l = Tablets.table_id <$> l.
Proof.
  induction l as [|t l IH]; [done|]. cbn [map]. rewrite !fmap_cons, IH. f_equal.
  unfold markRecovering. by destruct (Tablets.server_id t =? serverId).
Qed.

Lemma tablesOk_same n cs cs' :
  nextTableId cs' = nextTableId cs ->
  tables cs' = tables cs ->
  Tablets.table_id <$> tabletMap cs' = Tablets.table_id <$> tabletMap cs ->
  Forall (fun t => Tablets.start_object_id t = 0
                   /\ Tablets.end_object_id t = ULONG_MAX) (tabletMap cs') ->
  tablesOk n cs -> tablesOk (n + 1) cs'.
Proof.
  unfold tablesOk, tableIds. intros -> -> -> Hr (Hn & Hids & Hnd & Hp & _).
  split; [lia|]. by split.
Qed.

Lemma tablesOk_createTable n name cs master others will :
  masterList cs = master :: others ->
  tables cs !! name = None ->
  ServerList.user_data master = Some will ->
  tablesOk n cs -> n + 1 < 2 ^ 32 ->
  tablesOk (n + 1) (after (createTable name cs)).
Proof.
  intros Hm Hname Hw (Hn & Hids & Hnd & Hp & Hr) Hbound.
  rewrite (createTable_new name cs master others will Hm Hname Hw).
  assert (wrap32 (nextTableId cs) = nextTableId cs) as H32
    by (unfold wrap32; apply Z.mod_small; lia).
  assert (wrap64 (nextTableId cs + 1) = nextTableId cs + 1) as H64
    by (unfold wrap64; apply Z.mod_small; lia).
  assert (nextTableId cs ∉ tableIds cs) as Hnew.
  { intros Hin. apply elem_of_tableIds in Hin as [name' Hn'].
    apply Hids in Hn'. lia. }
  unfold tablesOk, tableIds in *. simpl. rewrite H32, H64.
  assert ((map_to_list (<[name := nextTableId cs]> (tables cs))).*2
          ≡ₚ nextTableId cs :: (map_to_list (tables cs)).*2) as Hins.
  { by rewrite map_to_list_insert. }
  split; [lia|]. split.
  { intros name' id Hl. apply lookup_insert_Some in Hl as [[_ <-]|[_ Hl]];
      [lia|]. apply Hids in Hl. lia. }
  split; [rewrite Hins; by constructor|].
  split.
  { rewrite Hins, fmap_app, Hp. simpl. by rewrite <- Permutation_cons_append. }
  apply Forall_app. split; [done|]. by repeat constructor.
Qed.

Lemma tablesOk_dropTable n name cs tableId cs' :
  tables cs !! name = Some tableId ->
  nextTableId cs' = nextTableId cs ->
  tables cs' = delete name (tables cs) ->
  tabletMap cs' = dropTablets (length (tabletMap cs)) tableId 0 (tabletMap cs) ->
  tablesOk n cs -> tablesOk (n + 1) cs'.
Proof.
  intros Hname Hnext Htables Hmap (Hn & Hids & Hnd & Hp & Hr).
  unfold tablesOk, tableIds in *. rewrite Hnext, Htables, Hmap.
  assert ((map_to_list (tables cs)).*2
          ≡ₚ tableId :: (map_to_list (delete name (tables cs))).*2) as Hdel.
  { by rewrite <- (map_to_list_delete (tables cs) name tableId Hname). }
  rewrite Hdel in Hnd, Hp. apply NoDup_cons in Hnd as [Hfresh Hnd].
  split; [lia|]. split.
  { intros name' id Hl. apply lookup_delete_Some in Hl as [_ Hl]. by apply (Hids name'). }
  split; [done|]. split.
  - rewrite dropTablets_all, fmap_filter_otherTable, Hp.
    rewrite filter_cons_False by tauto.
    apply Permutation_refl'. apply filter_all.
    apply Forall_forall. intros x Hx ->. done.
  - rewrite dropTablets_all. apply Forall_forall. intros t Ht.
    apply list_elem_of_filter in Ht as [_ Ht].
    rewrite Forall_forall in Hr. by apply Hr.
Qed.

Lemma tablesOk_dispatch n rpc cs :
  tablesOk n cs -> n + 1 < 2 ^ 32 ->
  outcome (dispatch rpc cs) <> Undefined ->
  tablesOk (n + 1) (after (dispatch rpc cs)).
Proof.
  intros Hok Hn Hdef.
  assert (Forall (fun t => Tablets.start_object_id t = 0
                           /\ Tablets.end_object_id t = ULONG_MAX)
            (tabletMap cs)) as Hr by apply Hok.
  destruct rpc; simpl in *; try (by apply (tablesOk_same n cs)).
  - destruct (createTable_cases name cs Hdef)
      as [[_ ->]|[(_ & _ & ->)|(master & others & will & Hm & Hname & Hw)]];
      try (by apply (tablesOk_same n cs)).
    by eapply tablesOk_createTable.
  - destruct (dropTable_cases name cs Hdef)
      as [[_ ->]|(id & first & others & Hname & _ & _ & ->)];
      [by apply (tablesOk_same n cs)|].
    by apply (tablesOk_dropTable n name cs id).
  - unfold openTable. destruct (tables cs !! name);
      by apply (tablesOk_same n cs).
  - unfold enlistServer. destruct serverType; by apply (tablesOk_same n cs).
  - destruct (hintServerDown_cases serviceLocator cs)
      as [(pre & m & post & Hl & _ & _ & ->)
         |[(_ & pre & b & post & Hl & _ & _ & ->)|(_ & ->)]];
      try (by apply (tablesOk_same n cs)).
    apply (tablesOk_same n cs); try done; simpl.
    + apply markRecovering_table_ids.
    + apply Forall_forall. intros t' Ht'.
      apply list_elem_of_In, in_map_iff in Ht' as (t & <- & Ht).
      apply list_elem_of_In in Ht. rewrite Forall_forall in Hr.
      apply Hr in Ht. unfold markRecovering.
      by destruct (Tablets.server_id t =? _).
Qed.

(** ** Tablets and their owners *)

Lemma ownersOk_same cs cs' :
  nextServerId cs' = nextServerId cs ->
  masterList cs' = masterList cs ->
  tabletMap cs' = tabletMap cs ->
  ownersOk cs -> ownersOk cs'.
Proof. unfold ownersOk. by intros -> -> ->. Qed.

Lemma ownersOk_createTable n name cs master others will :
  masterList cs = master :: others ->
  tables cs !! name = None ->
  ServerList.user_data master = Some will ->
  serversOk n cs -> ownersOk cs ->
  ownersOk (after (createTable name cs)).
Proof.
  intros Hm Hname Hw (_ & Hids & _) (Hb & Hnormal & Hrec).
  rewrite (createTable_new name cs master others will Hm Hname Hw).
  unfold ownersOk, serverIds in *. simpl. rewrite Hm in *. simpl in Hids.
  apply Forall_cons in Hids as [Hid _].
  split; [apply Forall_app; split; [done|by constructor]|]. split.
  - intros t Ht Hst. apply elem_of_app in Ht as [Ht|Ht].
    + destruct (Hnormal t Ht Hst) as (m & Hin & Hid' & Hloc & will' & w & Hw' & Hin' & Hw'').
      apply elem_of_cons in Hin as [->|Hin].
      * eexists. split; [by left|]. split; [done|]. split; [done|].
        rewrite Hw in Hw'. injection Hw' as <-.
        eexists _, w. split; [done|]. split; [|done].
        apply elem_of_app. by left.
      * exists m. split; [by right|]. split; [done|]. split; [done|].
        by exists will', w.
    + apply list_elem_of_singleton in Ht as ->.
      eexists. split; [by left|]. split; [done|]. split; [done|].
      eexists _, (Tablets.mkTablet (wrap32 (nextTableId cs)) 0 ULONG_MAX
                    Tablets.NORMAL 0 "" _).
      split; [done|]. split; [|done]. apply elem_of_app. right. by left.
  - intros t Ht Hst. apply elem_of_app in Ht as [Ht|Ht].
    + by apply Hrec.
    + by apply list_elem_of_singleton in Ht as ->.
Qed.

Lemma ownersOk_enlist n serverType serviceLocator cs :
  serversOk n cs -> ownersOk cs -> n + 1 < 2 ^ 32 ->
  ownersOk (after (enlistServer serverType serviceLocator cs)).
Proof.
  intros (Hn & _) (Hb & Hnormal & Hrec) Hbound.
  assert (wrap64 (nextServerId cs + 1) = nextServerId cs + 1) as Hw
    by (unfold wrap64; apply Z.mod_small; lia).
  assert (Forall (fun t => 1 <= Tablets.server_id t < nextServerId cs + 1)
            (tabletMap cs)) as Hb'.
  { eapply Forall_impl; [done|]. simpl. lia. }
  unfold ownersOk, serverIds in *.
  destruct serverType; simpl; rewrite Hw; (split; [done|]); [|done].
  split.
  - intros t Ht Hst. destruct (Hnormal t Ht Hst) as (m & Hin & Hown).
    exists m. split; [|done]. apply elem_of_app. by left.
  - intros t Ht Hst. rewrite fmap_app. intros Hin.
    apply elem_of_app in Hin as [Hin|Hin]; [by apply (Hrec t)|].
    apply list_elem_of_singleton in Hin. simpl in Hin.
    rewrite Forall_forall in Hb. apply Hb in Ht. lia.
Qed.

Lemma ownersOk_hint_master n cs pre master post :
  masterList cs = pre ++ master :: post ->
  serversOk n cs -> ownersOk cs ->
  forall cs',
    nextServerId cs' = nextServerId cs ->
    masterList cs' = swapRemove (length pre) (masterList cs) ->
    tabletMap cs'
    = map (markRecovering (ServerList.server_id master)) (tabletMap cs) ->
    ownersOk cs'.
Proof.
  intros Hl (_ & _ & Hnd & _) (Hb & Hnormal & Hrec) cs' Hnext Hml Htm.
  assert (masterList cs ≡ₚ master :: masterList cs') as Hp.
  { rewrite Hml. apply swapRemove_Permutation. rewrite Hl.
    by apply list_lookup_middle. }
  unfold serverIds in *. rewrite fmap_app in Hnd. apply NoDup_app in Hnd as [Hnd _].
  rewrite Hp, fmap_cons in Hnd. apply NoDup_cons in Hnd as [Hfresh _].
  assert (forall t', t' ∈ tabletMap cs' ->
            exists t, t ∈ tabletMap cs
              /\ t' = markRecovering (ServerList.server_id master) t) as Hfrom.
  { intros t' Ht'. rewrite Htm in Ht'.
    apply list_elem_of_In, in_map_iff in Ht' as (t & <- & Ht).
    exists t. by rewrite list_elem_of_In. }
  unfold ownersOk. rewrite Hnext. split; [|split].
  - apply Forall_forall. intros t' Ht'. destruct (Hfrom t' Ht') as (t & Ht & ->).
    rewrite Forall_forall in Hb. apply Hb in Ht. unfold markRecovering.
    by destruct (Tablets.server_id t =? _).
  - intros t' Ht' Hst. destruct (Hfrom t' Ht') as (t & Ht & ->).
    unfold markRecovering in *.
    destruct (Z.eqb_spec (Tablets.server_id t) (ServerList.server_id master))
      as [Heq|Hne]; [done|].
    destruct (Hnormal t Ht Hst) as (m & Hin & Hown). exists m. split; [|done].
    rewrite Hp in Hin. apply elem_of_cons in Hin as [->|Hin]; [|done].
    destruct Hown as [Hid _]. by rewrite Hid in Hne.
  - intros t' Ht' Hst. destruct (Hfrom t' Ht') as (t & Ht & ->).
    unfold markRecovering in *.
    destruct (Z.eqb_spec (Tablets.server_id t) (ServerList.server_id master))
      as [Heq|Hne]; simpl.
    + by rewrite Heq.
    + intros Hin. apply (Hrec t Ht Hst). rewrite Hp, fmap_cons. by right.
Qed.

Lemma ownersOk_dispatch n rpc cs :
  serversOk n cs -> ownersOk cs -> n + 1 < 2 ^ 32 ->
  outcome (dispatch rpc cs) <> Undefined ->
  ownersOk (after (dispatch rpc cs)).
Proof.
  intros Hs Hok Hn Hdef. destruct rpc; simpl in *; try done.
  - destruct (createTable_cases name cs Hdef)
      as [[_ ->]|[(_ & _ & ->)|(master & others & will & Hm & Hname & Hw)]];
      try done.
    by eapply ownersOk_createTable.
  - destruct (dropTable_cases name cs Hdef)
      as [[_ ->]|(id & first & others & Hname & _ & _ & ->)]; [done|].
    destruct Hok as (Hb & Hnormal & Hrec).
    assert (forall t, t ∈ dropTablets (length (tabletMap cs)) id 0 (tabletMap cs) ->
              t ∈ tabletMap cs) as Hsub.
    { intros t. rewrite dropTablets_all. by intros [_ ?]%list_elem_of_filter. }
    unfold ownersOk. simpl. split; [|split].
    + apply Forall_forall. intros t Ht. rewrite Forall_forall in Hb.
      by apply Hb, Hsub.
    + intros t Ht. by apply Hnormal, Hsub.
    + intros t Ht. by apply Hrec, Hsub.
  - unfold openTable. by destruct (tables cs !! name).
  - by eapply ownersOk_enlist.
  - destruct (hintServerDown_cases serviceLocator cs)
      as [(pre & m & post & Hl & _ & _ & ->)
         |[(_ & pre & b & post & Hl & _ & _ & ->)|(_ & ->)]]; [| |done].
    + by apply (ownersOk_hint_master n cs pre m post).
    + by apply (ownersOk_same cs).
Qed.

(** ** The invariants along a run *)

Lemma run_invariants_from rpcs n cs0 cs :
  serversOk n cs0 -> tablesOk n cs0 -> ownersOk cs0 ->
  run rpcs cs0 = Some cs ->
  n + Z.of_nat (length rpcs) < 2 ^ 32 ->
  serversOk (n + Z.of_nat (length rpcs)) cs
  /\ tablesOk (n + Z.of_nat (length rpcs)) cs
  /\ ownersOk cs.
Proof.
  revert n cs0. induction rpcs as [|rpc rpcs IH]; intros n cs0 Hs Ht Ho Hrun Hn.
  - simpl in *. injection Hrun as <-. by rewrite Z.add_0_r.
  - simpl in Hrun. rewrite length_cons, Nat2Z.inj_succ in *.
    assert (outcome (dispatch rpc cs0) <> Undefined) as Hdef
      by (by destruct (outcome (dispatch rpc cs0))).
    assert (run rpcs (after (dispatch rpc cs0)) = Some cs) as Hrun'
      by (by destruct (outcome (dispatch rpc cs0))).
    replace (n + Z.succ (Z.of_nat (length rpcs)))
      with (n + 1 + Z.of_nat (length rpcs)) by lia.
    apply (IH (n + 1) (after (dispatch rpc cs0))); [| | |done|lia].
    + apply serversOk_dispatch; [done|lia|done].
    + apply tablesOk_dispatch; [done|lia|done].
    + apply (ownersOk_dispatch n); [done|done|lia|done].
Qed.

Lemma init_invariants :
  serversOk 0 CoordinatorServer_init /\ tablesOk 0 CoordinatorServer_init
  /\ ownersOk CoordinatorServer_init.
Proof.
  unfold serversOk, tablesOk, ownersOk, tableIds, serverIds. simpl.
  rewrite map_to_list_empty. simpl.
  repeat split; try done; try constructor; intros; try lia;
    by apply elem_of_nil in H.
Qed.

Lemma run_invariants rpcs cs :
  run rpcs CoordinatorServer_init = Some cs ->
  Z.of_nat (length rpcs) < 2 ^ 32 ->
  serversOk (Z.of_nat (length rpcs)) cs
  /\ tablesOk (Z.of_nat (length rpcs)) cs
  /\ ownersOk cs.
Proof.
  intros Hrun Hn. destruct init_invariants as (Hs & Ht & Ho).
  by apply (run_invariants_from rpcs 0 CoordinatorServer_init cs).
Qed.

Lemma csWithBackup_run :
  run requestsWithBackup CoordinatorServer_init = Some csWithBackup.
Proof. vm_compute. reflexivity. Qed.

Lemma csTableT_run_init :
  run (twoMasters ++ [CreateTableRpc "t"]) CoordinatorServer_init = Some csTableT.
Proof. vm_compute. reflexivity. Qed.

Lemma csM1Down_run_init :
  run (twoMasters ++ [CreateTableRpc "t"; HintServerDownRpc "mock:host=m1"])
    CoordinatorServer_init = Some csM1Down.
Proof. vm_compute. reflexivity. Qed.

Lemma csWithBackup_reachable : reachable csWithBackup.
Proof. exact (run_reachable _ _ _ reachable_init csWithBackup_run). Qed.

(** ** What every reachable state has: typed lists, plain wills *)

Lemma listsTyped_dispatch rpc cs :
  listsTyped cs -> listsTyped (after (dispatch rpc cs)).
Proof.
  intros [Hm Hb]. unfold listsTyped. destruct rpc; simpl; try done.
  - unfold createTable.
    destruct (masterList cs) as [|master others] eqn:Hl; simpl;
      [by rewrite ?Hl|].
    destruct (tables cs !! name); simpl; [by rewrite ?Hl|].
    destruct (ServerList.user_data master); simpl; [|by rewrite ?Hl].
    apply Forall_cons in Hm as [[Hty _] Hm]. split; [|done].
    constructor; [|done]. split; [done|by eexists].
  - unfold dropTable. destruct (tables cs !! name); [|done].
    by destruct (masterList cs).
  - unfold openTable. by destruct (tables cs !! name).
  - unfold enlistServer. destruct serverType; simpl.
    + split; [|done]. apply Forall_app. split; [done|].
      constructor; [|done]. split; [done|by eexists].
    + split; [done|]. apply Forall_app. split; [done|]. by constructor.
  - destruct (hintServerDown_cases serviceLocator cs)
      as [(pre & m & post & _ & _ & _ & ->)
         |[(_ & pre & b & post & _ & _ & _ & ->)|(_ & ->)]]; simpl; [| |done].
    + split; [by apply swapRemove_Forall|done].
    + split; [done|by apply swapRemove_Forall].
Qed.

Lemma reachable_listsTyped cs : reachable cs -> listsTyped cs.
Proof.
  induction 1 as [|rpc cs _ IH _|mock cs _ IH]; [by split| |done].
  by apply listsTyped_dispatch.
Qed.

Lemma willsPlain_dispatch rpc cs :
  willsPlain cs -> willsPlain (after (dispatch rpc cs)).
Proof.
  intros Hp. unfold willsPlain in *. destruct rpc; simpl; try done.
  - unfold createTable.
    destruct (masterList cs) as [|master others] eqn:Hl; simpl;
      [by rewrite ?Hl|].
    destruct (tables cs !! name); simpl; [by rewrite ?Hl|].
    destruct (ServerList.user_data master) as [will|] eqn:Hw; simpl;
      [|by rewrite ?Hl].
    apply Forall_cons in Hp as [Hmaster Hothers]. constructor; [|done].
    simpl. intros will' w [= <-] Hin.
    apply elem_of_app in Hin as [Hin|Hin]; [by apply (Hmaster will)|].
    apply list_elem_of_singleton in Hin as ->. simpl.
    repeat split; try done.
    rewrite maxPartitionId_snoc.
    destruct (last will) as [t|] eqn:Hlast; [|done].
    apply last_Some_elem_of in Hlast. by apply (Hmaster will t).
  - unfold dropTable. destruct (tables cs !! name); [|done].
    by destruct (masterList cs).
  - unfold openTable. by destruct (tables cs !! name).
  - unfold enlistServer. destruct serverType; simpl; [|done].
    apply Forall_app. split; [done|]. constructor; [|done].
    simpl. intros will w [= <-] Hin. by apply elem_of_nil in Hin.
  - destruct (hintServerDown_cases serviceLocator cs)
      as [(pre & m & post & _ & _ & _ & ->)
         |[(_ & pre & b & post & _ & _ & _ & ->)|(_ & ->)]]; simpl; try done.
    by apply swapRemove_Forall.
Qed.

Lemma reachable_willsPlain cs : reachable cs -> willsPlain cs.
Proof.
  induction 1 as [|rpc cs _ IH _|mock cs _ IH]; [constructor| |done].
  by apply willsPlain_dispatch.
Qed.

(** ** Server ids, lists and wills *)

(** X1: along a run of fewer than 2^32 requests from the constructor's
    state, the servers of the two lists carry pairwise distinct ids, all of
    them at least 1 and below [nextServerId]; so the id that the next
    [enlistServer] hands out is carried by no enlisted server. *)
Theorem server_ids_distinct (rpcs : list Request) (cs : CoordinatorServer) :
  run rpcs CoordinatorServer_init = Some cs ->
  Z.of_nat (length rpcs) < 2 ^ 32 ->
  NoDup (serverIds (masterList cs ++ backupList cs))
  /\ Forall (fun e => 1 <= ServerList.server_id e < nextServerId cs)
       (masterList cs ++ backupList cs)
  /\ forall serverType serviceLocator,
       outcome (enlistServer serverType serviceLocator cs)
       = Returned (RespServerId (nextServerId cs))
       /\ nextServerId cs ∉ serverIds (masterList cs ++ backupList cs).
Proof.
  intros Hrun Hn.
  destruct (run_invariants rpcs cs Hrun Hn) as ((_ & Hids & Hnd & _) & _).
  split; [done|]. split; [done|]. intros ty loc.
  split; [by destruct ty|].
  intros Hin. apply list_elem_of_fmap in Hin as (e & He & Hin).
  rewrite Forall_forall in Hids. apply Hids in Hin. lia.
Qed.

Lemma server_ids_distinct_witness :
  NoDup (serverIds (masterList csWithBackup ++ backupList csWithBackup))
  /\ Forall (fun e => 1 <= ServerList.server_id e < nextServerId csWithBackup)
       (masterList csWithBackup ++ backupList csWithBackup)
  /\ forall serverType serviceLocator,
       outcome (enlistServer serverType serviceLocator csWithBackup)
       = Returned (RespServerId (nextServerId csWithBackup))
       /\ nextServerId csWithBackup
          ∉ serverIds (masterList csWithBackup ++ backupList csWithBackup).
Proof.
  apply (server_ids_distinct requestsWithBackup csWithBackup csWithBackup_run).
  vm_compute. reflexivity.
Defined.

(** X2: in every reachable state the entries of [masterList] are of type
    MASTER and own a will, and those of [backupList] are of type BACKUP and
    own none; so [getBackupList] never answers with a master. *)
Theorem server_lists_typed (cs : CoordinatorServer) :
  reachable cs ->
  Forall (fun e => ServerList.server_type e = ServerList.MASTER
                   /\ is_Some (ServerList.user_data e)) (masterList cs)
  /\ Forall (fun e => ServerList.server_type e = ServerList.BACKUP
                      /\ ServerList.user_data e = None) (backupList cs)
  /\ exists l, getBackupList cs = mkResult (Returned (RespServerList l)) cs []
       /\ Forall (fun e => ServerList.server_type e <> ServerList.MASTER) l.
Proof.
  intros Hr. destruct (reachable_listsTyped cs Hr) as [Hm Hb].
  split; [done|]. split; [done|]. exists (backupList cs). split; [done|].
  eapply Forall_impl; [done|]. simpl. intros e [-> _]. done.
Qed.

Lemma server_lists_typed_witness :
  Forall (fun e => ServerList.server_type e = ServerList.MASTER
                   /\ is_Some (ServerList.user_data e)) (masterList csWithBackup)
  /\ Forall (fun e => ServerList.server_type e = ServerList.BACKUP
                      /\ ServerList.user_data e = None) (backupList csWithBackup)
  /\ exists l, getBackupList csWithBackup
               = mkResult (Returned (RespServerList l)) csWithBackup []
       /\ Forall (fun e => ServerList.server_type e <> ServerList.MASTER) l.
Proof. exact (server_lists_typed csWithBackup csWithBackup_reachable). Defined.

(** X5: in every reachable state every entry of every will is in partition
    0 ([user_data] 0), NORMAL, over the whole key range, and names no
    server: [createTable] never opens a second partition. *)
Theorem wills_in_partition_zero (cs : CoordinatorServer) :
  reachable cs ->
  forall master will w,
    master ∈ masterList cs ->
    ServerList.user_data master = Some will ->
    w ∈ will ->
    Tablets.user_data w = 0
    /\ Tablets.state w = Tablets.NORMAL
    /\ Tablets.start_object_id w = 0
    /\ Tablets.end_object_id w = ULONG_MAX
    /\ Tablets.server_id w = 0
    /\ Tablets.service_locator w = "".
Proof.
  intros Hr master will w Hm Hw Hin.
  apply reachable_willsPlain in Hr. unfold willsPlain in Hr.
  rewrite Forall_forall in Hr. by apply (Hr master Hm will).
Qed.

Lemma wills_in_partition_zero_witness :
  Tablets.user_data (tabletOfT Tablets.NORMAL 0 "") = 0
  /\ Tablets.state (tabletOfT Tablets.NORMAL 0 "") = Tablets.NORMAL
  /\ Tablets.start_object_id (tabletOfT Tablets.NORMAL 0 "") = 0
  /\ Tablets.end_object_id (tabletOfT Tablets.NORMAL 0 "") = ULONG_MAX
  /\ Tablets.server_id (tabletOfT Tablets.NORMAL 0 "") = 0
  /\ Tablets.service_locator (tabletOfT Tablets.NORMAL 0 "") = "".
Proof.
  apply (wills_in_partition_zero csWithBackup csWithBackup_reachable
           (ServerList.mkEntry ServerList.MASTER 1 "mock:host=m1"
              (Some [tabletOfT Tablets.NORMAL 0 ""]))
           [tabletOfT Tablets.NORMAL 0 ""] (tabletOfT Tablets.NORMAL 0 "")).
  - apply list_elem_of_here.
  - reflexivity.
  - apply list_elem_of_here.
Defined.

(** ** Tables, tablets and owners along a run *)

Lemma NoDup_fmap_elem_inj {A B} (f : A -> B) (l : list A) x y :
  NoDup (f <$> l) -> x ∈ l -> y ∈ l -> f x = f y -> x = y.
Proof.
  induction l as [|a l IH]; intros Hnd Hx Hy Hf; [by apply elem_of_nil in Hx|].
  rewrite fmap_cons in Hnd. apply NoDup_cons in Hnd as [Ha Hnd].
  apply elem_of_cons in Hx as [->|Hx]; apply elem_of_cons in Hy as [->|Hy];
    [done| | |by apply IH].
  - exfalso. apply Ha. rewrite Hf. by apply list_elem_of_fmap_2.
  - exfalso. apply Ha. rewrite <- Hf. by apply list_elem_of_fmap_2.
Qed.

(** X3: along a run of fewer than 2^32 requests, every table has an id
    below [nextTableId], no two names share an id, and the tablet map holds
    exactly one tablet per table, each over the whole key range; every
    tablet is that of a table. *)
Theorem tables_have_one_tablet_each (rpcs : list Request) (cs : CoordinatorServer) :
  run rpcs CoordinatorServer_init = Some cs ->
  Z.of_nat (length rpcs) < 2 ^ 32 ->
  (forall name id, tables cs !! name = Some id -> 0 <= id < nextTableId cs)
  /\ (forall name1 name2 id,
        tables cs !! name1 = Some id -> tables cs !! name2 = Some id ->
        name1 = name2)
  /\ Tablets.table_id <$> tabletMap cs ≡ₚ tableIds cs
  /\ NoDup (Tablets.table_id <$> tabletMap cs)
  /\ length (tabletMap cs) = size (tables cs)
  /\ (forall t, t ∈ tabletMap cs ->
        Tablets.start_object_id t = 0 /\ Tablets.end_object_id t = 2 ^ 64 - 1
        /\ exists name, tables cs !! name = Some (Tablets.table_id t))
  /\ (forall name id, tables cs !! name = Some id ->
        exists t, t ∈ tabletMap cs /\ Tablets.table_id t = id).
Proof.
  intros Hrun Hn.
  destruct (run_invariants rpcs cs Hrun Hn)
    as (_ & (_ & Hids & Hnd & Hp & Hr) & _).
  split; [done|]. split.
  { intros name1 name2 id H1 H2.
    apply elem_of_map_to_list in H1, H2.
    by injection (NoDup_fmap_elem_inj snd _ _ _ Hnd H1 H2 eq_refl). }
  split; [done|]. split; [by rewrite Hp|]. split.
  { apply Permutation_length in Hp. unfold tableIds in Hp.
    rewrite !length_fmap, length_map_to_list in Hp. done. }
  split.
  - intros t Ht. rewrite Forall_forall in Hr. destruct (Hr t Ht) as [Hs He].
    split; [done|]. split; [done|]. apply elem_of_tableIds.
    rewrite <- Hp. by apply list_elem_of_fmap_2.
  - intros name id Hname.
    assert (id ∈ Tablets.table_id <$> tabletMap cs) as Hin
      by (rewrite Hp; apply elem_of_tableIds; eauto).
    apply list_elem_of_fmap in Hin as (t & -> & Ht). eauto.
Qed.

Lemma tables_have_one_tablet_each_witness :
  (forall name id, tables csWithBackup !! name = Some id ->
     0 <= id < nextTableId csWithBackup)
  /\ (forall name1 name2 id,
        tables csWithBackup !! name1 = Some id ->
        tables csWithBackup !! name2 = Some id -> name1 = name2)
  /\ Tablets.table_id <$> tabletMap csWithBackup ≡ₚ tableIds csWithBackup
  /\ NoDup (Tablets.table_id <$> tabletMap csWithBackup)
  /\ length (tabletMap csWithBackup) = size (tables csWithBackup)
  /\ (forall t, t ∈ tabletMap csWithBackup ->
        Tablets.start_object_id t = 0 /\ Tablets.end_object_id t = 2 ^ 64 - 1
        /\ exists name, tables csWithBackup !! name = Some (Tablets.table_id t))
  /\ (forall name id, tables csWithBackup !! name = Some id ->
        exists t, t ∈ tabletMap csWithBackup /\ Tablets.table_id t = id).
Proof.
  apply (tables_have_one_tablet_each requestsWithBackup csWithBackup
           csWithBackup_run).
  vm_compute. reflexivity.
Defined.

(** X4: along a run of fewer than 2^32 requests, a tablet that is NORMAL
    names a master that is enlisted, by id and by locator, and that master's
    will has an entry for the tablet's table; a tablet that is RECOVERING
    names a server that is not in the master list. *)
Theorem tablet_state_tracks_owner (rpcs : list Request) (cs : CoordinatorServer) :
  run rpcs CoordinatorServer_init = Some cs ->
  Z.of_nat (length rpcs) < 2 ^ 32 ->
  forall t, t ∈ tabletMap cs ->
    (Tablets.state t = Tablets.NORMAL ->
       exists master will w,
         master ∈ masterList cs
         /\ ServerList.server_id master = Tablets.server_id t
         /\ ServerList.service_locator master = Tablets.service_locator t
         /\ ServerList.user_data master = Some will
         /\ w ∈ will /\ Tablets.table_id w = Tablets.table_id t)
    /\ (Tablets.state t = Tablets.RECOVERING ->
          forall master, master ∈ masterList cs ->
            ServerList.server_id master <> Tablets.server_id t).
Proof.
  intros Hrun Hn t Ht.
  destruct (run_invariants rpcs cs Hrun Hn) as (_ & _ & (_ & Hnormal & Hrec)).
  split.
  - intros Hst.
    destruct (Hnormal t Ht Hst) as (m & Hin & Hid & Hloc & will & w & Hw & Hwin & Htid).
    by exists m, will, w.
  - intros Hst master Hin Heq. apply (Hrec t Ht Hst).
    rewrite <- Heq. by apply list_elem_of_fmap_2.
Qed.

Lemma tablet_state_tracks_owner_witness :
  let t := tabletOfT Tablets.RECOVERING 1 "mock:host=m1" in
  (Tablets.state t = Tablets.NORMAL ->
     exists master will w,
       master ∈ masterList csM1Down
       /\ ServerList.server_id master = Tablets.server_id t
       /\ ServerList.service_locator master = Tablets.service_locator t
       /\ ServerList.user_data master = Some will
       /\ w ∈ will /\ Tablets.table_id w = Tablets.table_id t)
  /\ (Tablets.state t = Tablets.RECOVERING ->
        forall master, master ∈ masterList csM1Down ->
          ServerList.server_id master <> Tablets.server_id t).
Proof.
  apply (tablet_state_tracks_owner _ csM1Down csM1Down_run_init).
  - vm_compute. reflexivity.
  - apply list_elem_of_here.
Defined.

(** ** createTable, openTable and dropTable together *)

Lemma createTable_existing name cs :
  is_Some (tables cs !! name) -> masterList cs <> [] ->
  createTable name cs = mkResult (Returned RespEmpty) cs [].
Proof.
  intros [id Hn] Hm. unfold createTable. rewrite Hn.
  by destruct (masterList cs).
Qed.

(** X6: a [createTable] that returns has made the name a table, so asking
    again for the same name returns at once: nothing changes and nothing is
    sent or logged. *)
Theorem createTable_twice (name : string) (cs : CoordinatorServer) :
  outcome (createTable name cs) = Returned RespEmpty ->
  createTable name (after (createTable name cs))
  = mkResult (Returned RespEmpty) (after (createTable name cs)) [].
Proof.
  intros Hret. apply createTable_existing.
  - unfold createTable in *.
    destruct (masterList cs) as [|master others]; [done|].
    destruct (tables cs !! name) as [id|] eqn:Hn; simpl; [by rewrite Hn|].
    destruct (ServerList.user_data master); [|done]. simpl.
    by rewrite lookup_insert_eq.
  - unfold createTable in *.
    destruct (masterList cs) as [|master others] eqn:Hm; [done|].
    destruct (tables cs !! name) as [id|]; simpl; [by rewrite Hm|].
    by destruct (ServerList.user_data master).
Qed.

Lemma createTable_twice_witness :
  createTable "t" (after (createTable "t" csTwoMasters))
  = mkResult (Returned RespEmpty) (after (createTable "t" csTwoMasters)) [].
Proof. exact (createTable_twice "t" csTwoMasters eq_refl). Defined.

(** X7: after a [createTable] that returns, [openTable] of that name
    answers with the table's id (the one the name had, or else the one just
    taken from [nextTableId]), and its answer for every other name is as
    before. *)
Theorem openTable_after_createTable (name : string) (cs : CoordinatorServer) :
  outcome (createTable name cs) = Returned RespEmpty ->
  let cs1 := after (createTable name cs) in
  (exists id,
      openTable name cs1 = mkResult (Returned (RespTableId id)) cs1 []
      /\ (tables cs !! name = Some id
          \/ (tables cs !! name = None /\ id = wrap32 (nextTableId cs))))
  /\ forall other, other <> name ->
       outcome (openTable other cs1) = outcome (openTable other cs).
Proof.
  unfold createTable, openTable.
  destruct (masterList cs) as [|master others] eqn:Hm; [done|].
  destruct (tables cs !! name) as [id|] eqn:Hn; simpl.
  - intros _. rewrite Hn. split; [|done]. exists id. split; [done|by left].
  - destruct (ServerList.user_data master); [|done]. intros _. simpl. split.
    + exists (wrap32 (nextTableId cs)). rewrite lookup_insert_eq.
      split; [reflexivity|]. right. by split.
    + intros other Hne. rewrite lookup_insert_ne by done.
      by destruct (tables cs !! other).
Qed.

Lemma openTable_after_createTable_witness :
  let cs1 := after (createTable "t" csTwoMasters) in
  (exists id,
      openTable "t" cs1 = mkResult (Returned (RespTableId id)) cs1 []
      /\ (tables csTwoMasters !! "t" = Some id
          \/ (tables csTwoMasters !! "t" = None
              /\ id = wrap32 (nextTableId csTwoMasters))))
  /\ forall other, other <> "t" ->
       outcome (openTable other cs1) = outcome (openTable other csTwoMasters).
Proof. exact (openTable_after_createTable "t" csTwoMasters eq_refl). Defined.

(** X8: after a [dropTable] that returns, the name is no table:
    [openTable] of it throws [TableDoesntExistException] and a second
    [dropTable] of it returns without doing anything; [openTable] of every
    other name answers as before.  (With a table to drop and no master in
    the list the first [dropTable] does not return: see C9.) *)
Theorem dropTable_forgets_table (name : string) (cs : CoordinatorServer) :
  outcome (dropTable name cs) <> Undefined ->
  let cs1 := after (dropTable name cs) in
  outcome (dropTable name cs) = Returned RespEmpty
  /\ openTable name cs1 = mkResult (Thrown TableDoesntExistException) cs1 []
  /\ dropTable name cs1 = mkResult (Returned RespEmpty) cs1 []
  /\ forall other, other <> name ->
       outcome (openTable other cs1) = outcome (openTable other cs).
Proof.
  intros Hdef cs1.
  assert (outcome (dropTable name cs) = Returned RespEmpty
          /\ tables cs1 !! name = None
          /\ forall other, other <> name -> tables cs1 !! other = tables cs !! other)
    as (Hret & Hgone & Hkept).
  { subst cs1. unfold dropTable in *.
    destruct (tables cs !! name) as [id|] eqn:Hn; [|done].
    destruct (masterList cs); [done|]. simpl.
    split; [done|]. split; [apply lookup_delete_eq|].
    intros other Hne. by apply lookup_delete_ne. }
  split; [done|].
  split; [unfold openTable; by rewrite Hgone|].
  split; [unfold dropTable; by rewrite Hgone|].
  intros other Hne. unfold openTable. rewrite (Hkept other Hne).
  by destruct (tables cs !! other).
Qed.

Lemma dropTable_forgets_table_witness :
  let cs1 := after (dropTable "t" csTableT) in
  outcome (dropTable "t" csTableT) = Returned RespEmpty
  /\ openTable "t" cs1 = mkResult (Thrown TableDoesntExistException) cs1 []
  /\ dropTable "t" cs1 = mkResult (Returned RespEmpty) cs1 []
  /\ forall other, other <> "t" ->
       outcome (openTable other cs1) = outcome (openTable other csTableT).
Proof.
  apply (dropTable_forgets_table "t" csTableT). vm_compute. discriminate.
Defined.

Lemma dropTablets_only_last tableId (tablets : list Tablet) (t : Tablet) :
  Forall (otherTable tableId) tablets ->
  Tablets.table_id t = tableId ->
  forall fuel i,
    (length tablets + 1 - i <= fuel)%nat -> (i <= length tablets)%nat ->
    dropTablets fuel tableId i (tablets ++ [t]) = tablets.
Proof.
  intros Hother Ht. induction fuel as [|fuel IH]; intros i Hfuel Hi; [lia|].
  simpl. destruct (decide (i = length tablets)) as [->|Hne].
  - rewrite list_lookup_middle by done. rewrite Ht, Z.eqb_refl.
    rewrite swapRemove_last.
    destruct fuel; [done|]. simpl.
    by rewrite lookup_ge_None_2 by lia.
  - destruct (lookup_lt_is_Some_2 tablets i) as [t' Ht']; [lia|].
    rewrite (lookup_app_l_Some _ _ _ _ Ht').
    rewrite Forall_forall in Hother.
    assert (otherTable tableId t') as Ho
      by (apply Hother; by eapply list_elem_of_lookup_2).
    rewrite (proj2 (Z.eqb_neq _ _) Ho). apply IH; lia.
Qed.

(** X9: creating a table and dropping it again gives back the table index
    and the tablet map, but not the rest: the id is spent ([nextTableId] stays
    advanced), and the entry that [createTable] added to the first master's
    will stays there, for a table that no longer exists.  Along a run of fewer
    than 2^32 requests. *)
Theorem create_then_drop_leaves_will_entry
    (rpcs : list Request) (cs : CoordinatorServer) (name : string)
    (master : Entry) (others : list Entry) :
  run rpcs CoordinatorServer_init = Some cs ->
  Z.of_nat (length rpcs) < 2 ^ 32 ->
  masterList cs = master :: others ->
  tables cs !! name = None ->
  let cs1 := after (createTable name cs) in
  let cs2 := after (dropTable name cs1) in
  outcome (createTable name cs) = Returned RespEmpty
  /\ outcome (dropTable name cs1) = Returned RespEmpty
  /\ tables cs2 = tables cs
  /\ tabletMap cs2 = tabletMap cs
  /\ nextTableId cs2 = nextTableId cs + 1
  /\ exists will e,
       ServerList.user_data master = Some will
       /\ masterList cs2
          = ServerList.set_user_data (Some (will ++ [e])) master :: others
       /\ Tablets.table_id e = nextTableId cs
       /\ forall name', tables cs2 !! name' <> Some (Tablets.table_id e).
Proof.
  intros Hrun Hn Hm Hname cs1 cs2.
  destruct (run_invariants rpcs cs Hrun Hn)
    as ((_ & _ & _ & Hty & _) & (Hnext & Hids & _ & Hp & _) & _).
  rewrite Hm in Hty. apply Forall_cons in Hty as [[_ [will Hw]] _].
  assert (wrap32 (nextTableId cs) = nextTableId cs) as H32
    by (unfold wrap32; apply Z.mod_small; lia).
  assert (wrap64 (nextTableId cs + 1) = nextTableId cs + 1) as H64
    by (unfold wrap64; apply Z.mod_small; lia).
  assert (Forall (otherTable (nextTableId cs)) (tabletMap cs)) as Hother.
  { apply Forall_forall. intros t Ht Heq.
    assert (Tablets.table_id t ∈ tableIds cs) as Hin
      by (rewrite <- Hp; by apply list_elem_of_fmap_2).
    apply elem_of_tableIds in Hin as [name' Hn']. apply Hids in Hn'. lia. }
  subst cs2 cs1.
  rewrite (createTable_new name cs master others will Hm Hname Hw).
  cbn -[dropTablets]. unfold dropTable. cbn -[dropTablets].
  rewrite lookup_insert_eq, H32, H64. cbn -[dropTablets].
  rewrite length_app. cbn -[dropTablets].
  rewrite (dropTablets_only_last (nextTableId cs) (tabletMap cs)
             (Tablets.mkTablet (nextTableId cs) 0 ULONG_MAX Tablets.NORMAL
                (ServerList.server_id master) (ServerList.service_locator master) 0)
             Hother eq_refl) by lia.
  split; [done|]. split; [done|].
  split; [by apply delete_insert_id|]. split; [done|]. split; [done|].
  eexists will, _. split; [done|]. split; [done|]. split; [done|].
  simpl. intros name' Hl. rewrite delete_insert_id in Hl by done.
  apply Hids in Hl. lia.
Qed.

Lemma create_then_drop_leaves_will_entry_witness :
  let cs := csTwoMasters in
  let master := ServerList.mkEntry ServerList.MASTER 1 "mock:host=m1" (Some []) in
  let others := [ServerList.mkEntry ServerList.MASTER 2 "mock:host=m2" (Some [])] in
  let cs1 := after (createTable "t" cs) in
  let cs2 := after (dropTable "t" cs1) in
  outcome (createTable "t" cs) = Returned RespEmpty
  /\ outcome (dropTable "t" cs1) = Returned RespEmpty
  /\ tables cs2 = tables cs
  /\ tabletMap cs2 = tabletMap cs
  /\ nextTableId cs2 = nextTableId cs + 1
  /\ exists will e,
       ServerList.user_data master = Some will
       /\ masterList cs2
          = ServerList.set_user_data (Some (will ++ [e])) master :: others
       /\ Tablets.table_id e = nextTableId cs
       /\ forall name', tables cs2 !! name' <> Some (Tablets.table_id e).
Proof.
  apply (create_then_drop_leaves_will_entry twoMasters csTwoMasters "t"
           (ServerList.mkEntry ServerList.MASTER 1 "mock:host=m1" (Some []))
           [ServerList.mkEntry ServerList.MASTER 2 "mock:host=m2" (Some [])]
           csTwoMasters_run); [vm_compute; reflexivity|reflexivity|reflexivity].
Defined.

(** ** hintServerDown and the two server lists *)

(** X10: along a run of fewer than 2^32 requests, hinting down a locator
    that no master has and that [backup] is the first backup to have starts
    no recovery and calls nobody: the handler answers, logs the hint and
    returns; the masters, the tablet map and the tables are as before; the
    other backups all stay, and no server with the id of [backup] is left in
    the backup list. *)
Theorem hintServerDown_backup
    (rpcs : list Request) (cs : CoordinatorServer) (serviceLocator : string)
    (pre : list Entry) (backup : Entry) (post : list Entry) :
  run rpcs CoordinatorServer_init = Some cs ->
  Z.of_nat (length rpcs) < 2 ^ 32 ->
  Forall (fun e => ServerList.service_locator e <> serviceLocator) (masterList cs) ->
  backupList cs = pre ++ backup :: post ->
  Forall (fun e => ServerList.service_locator e <> serviceLocator) pre ->
  ServerList.service_locator backup = serviceLocator ->
  let r := hintServerDown serviceLocator cs in
  outcome r = Returned RespEmpty
  /\ trace r = [Respond; LOG (LogHintServerDown serviceLocator)]
  /\ masterList (after r) = masterList cs
  /\ tabletMap (after r) = tabletMap cs
  /\ tables (after r) = tables cs
  /\ backupList (after r) ≡ₚ pre ++ post
  /\ ServerList.server_id backup ∉ serverIds (backupList (after r)).
Proof.
  intros Hrun Hn Hm Hb Hpre Hloc r.
  destruct (run_invariants rpcs cs Hrun Hn) as ((_ & _ & Hnd & _) & _).
  subst r. unfold hintServerDown.
  rewrite (proj2 (findLocator_None serviceLocator 0 (masterList cs)) Hm).
  rewrite Hb, (findLocator_first serviceLocator 0 pre backup post Hpre Hloc).
  simpl. split; [done|]. split; [done|]. split; [done|]. split; [done|].
  split; [done|]. split; [apply swapRemove_middle|].
  unfold serverIds in *. rewrite swapRemove_middle. rewrite Hb in Hnd.
  rewrite fmap_app in Hnd. apply NoDup_app in Hnd as (_ & _ & Hnd).
  rewrite fmap_app, fmap_cons in Hnd.
  apply NoDup_app in Hnd as (_ & Hdisj & Hnd').
  apply NoDup_cons in Hnd' as [Hpost _].
  rewrite fmap_app. intros Hin. apply elem_of_app in Hin as [Hin|Hin]; [|done].
  apply (Hdisj _ Hin). by left.
Qed.

Lemma hintServerDown_backup_witness :
  let r := hintServerDown "mock:host=b1" csWithBackup in
  outcome r = Returned RespEmpty
  /\ trace r = [Respond; LOG (LogHintServerDown "mock:host=b1")]
  /\ masterList (after r) = masterList csWithBackup
  /\ tabletMap (after r) = tabletMap csWithBackup
  /\ tables (after r) = tables csWithBackup
  /\ backupList (after r) ≡ₚ [] ++ []
  /\ ServerList.server_id
       (ServerList.mkEntry ServerList.BACKUP 3 "mock:host=b1" None)
     ∉ serverIds (backupList (after r)).
Proof.
  apply (hintServerDown_backup requestsWithBackup csWithBackup "mock:host=b1"
           [] (ServerList.mkEntry ServerList.BACKUP 3 "mock:host=b1" None) []
           csWithBackup_run).
  - vm_compute. reflexivity.
  - repeat constructor; simpl; discriminate.
  - reflexivity.
  - constructor.
  - reflexivity.
Defined.

(** X11: [hintServerDown] takes at most one server off the lists, and never
    adds one.  Either no master and no backup has the hinted locator and the
    state is as before, or the servers left are all those of before but one:
    the first with that locator, masters counted before backups. *)
Theorem hintServerDown_removes_first_match
    (serviceLocator : string) (cs : CoordinatorServer) :
  let cs' := after (hintServerDown serviceLocator cs) in
  let servers := masterList cs ++ backupList cs in
  (Forall (fun e => ServerList.service_locator e <> serviceLocator) servers
   /\ cs' = cs)
  \/ exists pre e post,
       servers = pre ++ e :: post
       /\ Forall (fun e' => ServerList.service_locator e' <> serviceLocator) pre
       /\ ServerList.service_locator e = serviceLocator
       /\ masterList cs' ++ backupList cs' ≡ₚ pre ++ post.
Proof.
  intros cs' servers. subst cs' servers.
  destruct (hintServerDown_cases serviceLocator cs)
    as [(pre & master & post & Hl & Hpre & Hloc & ->)
       |[(Hm & pre & backup & post & Hl & Hpre & Hloc & ->)
        |(Hnone & ->)]].
  - right. exists pre, master, (post ++ backupList cs). simpl.
    split; [by rewrite Hl, <- app_assoc|]. split; [done|]. split; [done|].
    rewrite Hl, swapRemove_middle. by rewrite <- app_assoc.
  - right. exists (masterList cs ++ pre), backup, post. simpl.
    split; [by rewrite Hl, <- app_assoc|].
    split; [by apply Forall_app|]. split; [done|].
    rewrite Hl, swapRemove_middle. by rewrite <- app_assoc.
  - by left.
Qed.

(** ** Which master a new table goes to *)

(** X12: [enlistServer] adds the server at the end of its list, so with a
    master already enlisted the first master stays who it was, and a table
    created next goes where it would have gone without the newcomer: same
    outcome, same tablet map and tables, same [setTablets] call to the same
    master. *)
Theorem enlistServer_keeps_first_master
    (serverType : ServerList.ServerType) (serviceLocator name : string)
    (cs : CoordinatorServer) (master : Entry) (others : list Entry) :
  masterList cs = master :: others ->
  let cs1 := after (enlistServer serverType serviceLocator cs) in
  let r := createTable name cs in
  let r1 := createTable name cs1 in
  head (masterList cs1) = Some master
  /\ outcome r1 = outcome r
  /\ tabletMap (after r1) = tabletMap (after r)
  /\ tables (after r1) = tables (after r)
  /\ nextTableId (after r1) = nextTableId (after r)
  /\ trace r1 = trace r.
Proof.
  intros Hm cs1 r r1. subst cs1 r r1.
  unfold createTable, enlistServer.
  destruct serverType; simpl; rewrite Hm; simpl;
    (split; [done|]);
    destruct (tables cs !! name); simpl; try done;
    by destruct (ServerList.user_data master).
Qed.

Lemma enlistServer_keeps_first_master_witness :
  let cs1 := after (enlistServer ServerList.MASTER "mock:host=m3" csTwoMasters) in
  let r := createTable "t" csTwoMasters in
  let r1 := createTable "t" cs1 in
  head (masterList cs1)
  = Some (ServerList.mkEntry ServerList.MASTER 1 "mock:host=m1" (Some []))
  /\ outcome r1 = outcome r
  /\ tabletMap (after r1) = tabletMap (after r)
  /\ tables (after r1) = tables (after r)
  /\ nextTableId (after r1) = nextTableId (after r)
  /\ trace r1 = trace r.
Proof.
  exact (enlistServer_keeps_first_master ServerList.MASTER "mock:host=m3" "t"
           csTwoMasters
           (ServerList.mkEntry ServerList.MASTER 1 "mock:host=m1" (Some []))
           [ServerList.mkEntry ServerList.MASTER 2 "mock:host=m2" (Some [])]
           eq_refl).
Defined.

(** X13: hinting down the first of several masters puts the last master of
    the list in its place, not the second: the list [first :: mid ++ [lst]]
    becomes [lst :: mid], and a table created next goes to [lst]. *)
Theorem hintServerDown_first_master_promotes_last
    (name : string) (cs : CoordinatorServer)
    (first : Entry) (mid : list Entry) (lst : Entry) (will willLast : list Tablet) :
  masterList cs = first :: mid ++ [lst] ->
  ServerList.user_data first = Some will ->
  ServerList.user_data lst = Some willLast ->
  tables cs !! name = None ->
  let r := hintServerDown (ServerList.service_locator first) cs in
  let r1 := createTable name (after r) in
  outcome r = Returned RespEmpty
  /\ masterList (after r) = lst :: mid
  /\ outcome r1 = Returned RespEmpty
  /\ exists t,
       tabletMap (after r1) = tabletMap (after r) ++ [t]
       /\ Tablets.state t = Tablets.NORMAL
       /\ Tablets.server_id t = ServerList.server_id lst
       /\ Tablets.service_locator t = ServerList.service_locator lst.
Proof.
  intros Hm Hw Hwl Hname r r1.
  assert (after r
          = mkCoordinator (nextServerId cs) (backupList cs) (lst :: mid)
              (map (markRecovering (ServerList.server_id first)) (tabletMap cs))
              (tables cs) (nextTableId cs) (mockRecovery cs)
          /\ outcome r = Returned RespEmpty) as [Hafter Hout].
  { subst r. unfold hintServerDown. rewrite Hm. cbn [findLocator].
    rewrite String.eqb_refl, Hw.
    change (first :: mid ++ [lst]) with ((first :: mid) ++ [lst]).
    rewrite swapRemove_inner by (simpl; lia). cbn [insert list_insert].
    by destruct (mockRecovery cs). }
  subst r1. rewrite Hafter.
  split; [done|]. split; [done|].
  set (cs1 := mkCoordinator _ _ _ _ _ _ _).
  rewrite (createTable_new name cs1 lst mid willLast eq_refl Hname Hwl).
  split; [done|]. eexists. by split.
Qed.

Lemma hintServerDown_first_master_promotes_last_witness :
  let cs1 := after (enlistServer ServerList.MASTER "mock:host=m3" csTwoMasters) in
  let r := hintServerDown "mock:host=m1" cs1 in
  let r1 := createTable "t" (after r) in
  outcome r = Returned RespEmpty
  /\ masterList (after r)
     = [ServerList.mkEntry ServerList.MASTER 3 "mock:host=m3" (Some []);
        ServerList.mkEntry ServerList.MASTER 2 "mock:host=m2" (Some [])]
  /\ outcome r1 = Returned RespEmpty
  /\ exists t,
       tabletMap (after r1) = tabletMap (after r) ++ [t]
       /\ Tablets.state t = Tablets.NORMAL
       /\ Tablets.server_id t = 3
       /\ Tablets.service_locator t = "mock:host=m3".
Proof.
  exact (hintServerDown_first_master_promotes_last "t"
           (after (enlistServer ServerList.MASTER "mock:host=m3" csTwoMasters))
           (ServerList.mkEntry ServerList.MASTER 1 "mock:host=m1" (Some []))
           [ServerList.mkEntry ServerList.MASTER 2 "mock:host=m2" (Some [])]
           (ServerList.mkEntry ServerList.MASTER 3 "mock:host=m3" (Some []))
           [] [] eq_refl eq_refl eq_refl eq_refl).
Defined.

(** ** The removal loop of dropTable *)

Lemma dropTablets_none tableId (l : list Tablet) :
  Forall (otherTable tableId) l ->
  forall fuel i, dropTablets fuel tableId i l = l.
Proof.
  intros Ho. induction fuel as [|fuel IH]; intros i; [done|]. simpl.
  destruct (l !! i) as [t|] eqn:Ht; [|done].
  rewrite Forall_forall in Ho.
  rewrite (proj2 (Z.eqb_neq _ _) (Ho t (list_elem_of_lookup_2 _ _ _ Ht))).
  apply IH.
Qed.

Lemma dropTablets_single tableId (pre : list Tablet) (t : Tablet) (post : list Tablet) :
  Forall (otherTable tableId) pre -> Forall (otherTable tableId) post ->
  Tablets.table_id t = tableId ->
  forall fuel i,
    (length pre + 1 - i <= fuel)%nat -> (i <= length pre)%nat ->
    dropTablets fuel tableId i (pre ++ t :: post)
    = swapRemove (length pre) (pre ++ t :: post).
Proof.
  intros Hpre Hpost Ht. induction fuel as [|fuel IH]; intros i Hfuel Hi; [lia|].
  simpl. destruct (decide (i = length pre)) as [->|Hne].
  - rewrite list_lookup_middle by done. rewrite Ht, Z.eqb_refl.
    apply dropTablets_none. rewrite swapRemove_middle. by apply Forall_app.
  - destruct (lookup_lt_is_Some_2 pre i) as [t' Ht']; [lia|].
    rewrite (lookup_app_l_Some _ _ _ _ Ht').
    rewrite Forall_forall in Hpre.
    rewrite (proj2 (Z.eqb_neq _ _) (Hpre t' (list_elem_of_lookup_2 _ _ _ Ht'))).
    apply IH; lia.
Qed.

(** X14: along a run of fewer than 2^32 requests, the table that
    [dropTable] drops has exactly one tablet in the map, and the loop fills
    its place with the last tablet of the map: [pre ++ t :: mid ++ [lst]]
    becomes [pre ++ lst :: mid] (and [pre ++ [t]] becomes [pre]).  The other
    tablets are kept as they are, but not in their order. *)
Theorem dropTable_moves_last_tablet_into_gap
    (rpcs : list Request) (cs : CoordinatorServer) (name : string) (tableId : Z) :
  run rpcs CoordinatorServer_init = Some cs ->
  Z.of_nat (length rpcs) < 2 ^ 32 ->
  tables cs !! name = Some tableId ->
  exists pre t post,
    tabletMap cs = pre ++ t :: post
    /\ Tablets.table_id t = tableId
    /\ Forall (otherTable tableId) (pre ++ post)
    /\ ((post = [] /\ tabletMap (after (dropTable name cs)) = pre)
        \/ exists mid lst,
             post = mid ++ [lst]
             /\ tabletMap (after (dropTable name cs)) = pre ++ lst :: mid).
Proof.
  intros Hrun Hn Hname.
  destruct (run_invariants rpcs cs Hrun Hn) as (_ & (_ & _ & Hnd & Hp & _) & _).
  assert (tableId ∈ Tablets.table_id <$> tabletMap cs) as Hin
    by (rewrite Hp; apply elem_of_tableIds; eauto).
  apply list_elem_of_fmap in Hin as (t & Ht & Hin).
  apply list_elem_of_split in Hin as (pre & post & Hsplit).
  rewrite <- Hp, Hsplit in Hnd.
  rewrite fmap_app, fmap_cons in Hnd.
  apply NoDup_app in Hnd as (_ & Hdisj & Hnd).
  apply NoDup_cons in Hnd as [Hpost _].
  assert (Forall (otherTable tableId) pre) as Hopre.
  { apply Forall_forall. intros t' Ht' Heq. apply (Hdisj (Tablets.table_id t')).
    - by apply list_elem_of_fmap_2.
    - rewrite Heq, Ht. by left. }
  assert (Forall (otherTable tableId) post) as Hopost.
  { apply Forall_forall. intros t' Ht' Heq. apply Hpost.
    rewrite <- Ht, <- Heq. by apply list_elem_of_fmap_2. }
  assert (tabletMap (after (dropTable name cs))
          = swapRemove (length pre) (pre ++ t :: post)) as ->.
  { unfold dropTable. rewrite Hname.
    transitivity (dropTablets (length (tabletMap cs)) tableId 0 (tabletMap cs));
      [by destruct (masterList cs)|].
    rewrite Hsplit. apply dropTablets_single; [done|done|done| |lia].
    rewrite length_app. simpl. lia. }
  exists pre, t, post. split; [done|]. split; [done|].
  split; [by apply Forall_app|].
  destruct post as [|lst mid _] using rev_ind.
  - left. split; [done|]. apply swapRemove_last.
  - right. exists mid, lst. split; [done|].
    change (pre ++ t :: mid ++ [lst]) with (pre ++ (t :: mid) ++ [lst]).
    rewrite app_assoc, swapRemove_inner by (rewrite length_app; simpl; lia).
    rewrite insert_app_r_alt by lia. by rewrite Nat.sub_diag.
Qed.

Lemma dropTable_moves_last_tablet_into_gap_witness :
  exists pre t post,
    tabletMap csTableT = pre ++ t :: post
    /\ Tablets.table_id t = 0
    /\ Forall (otherTable 0) (pre ++ post)
    /\ ((post = [] /\ tabletMap (after (dropTable "t" csTableT)) = pre)
        \/ exists mid lst,
             post = mid ++ [lst]
             /\ tabletMap (after (dropTable "t" csTableT)) = pre ++ lst :: mid).
Proof.
  apply (dropTable_moves_last_tablet_into_gap _ csTableT "t" 0 csTableT_run_init).
  - vm_compute. reflexivity.
  - reflexivity.
Defined.

(** ** What a request can do to a tablet *)

Lemma set_state_same (t : Tablet) :
  Tablets.state t = Tablets.RECOVERING ->
  Tablets.set_state Tablets.RECOVERING t = t.
Proof. destruct t. simpl. by intros ->. Qed.

(** X15: one request does three things to tablets at most.  Every tablet of
    the map after a request is a tablet of before, as it was or (after
    [hintServerDown]) with its state set to RECOVERING and nothing else
    changed, or it is the NORMAL tablet that [createTable] adds.  And a
    RECOVERING tablet is still in the map, still RECOVERING with the same
    owner, after every request but a [dropTable]: no request ends a
    recovery. *)
Theorem tablets_only_added_marked_or_dropped (rpc : Request) (cs : CoordinatorServer) :
  let cs' := after (dispatch rpc cs) in
  (forall t', t' ∈ tabletMap cs' ->
     (exists t, t ∈ tabletMap cs
        /\ (t' = t
            \/ ((exists serviceLocator, rpc = HintServerDownRpc serviceLocator)
                /\ t' = Tablets.set_state Tablets.RECOVERING t)))
     \/ ((exists name, rpc = CreateTableRpc name)
         /\ Tablets.state t' = Tablets.NORMAL
         /\ Tablets.table_id t' = wrap32 (nextTableId cs)))
  /\ (forall t, t ∈ tabletMap cs -> Tablets.state t = Tablets.RECOVERING ->
        (forall name, rpc <> DropTableRpc name) -> t ∈ tabletMap cs').
Proof.
  intros cs'. subst cs'.
  assert (forall cs1 : CoordinatorServer, tabletMap cs1 = tabletMap cs ->
            (forall t', t' ∈ tabletMap cs1 ->
               (exists t, t ∈ tabletMap cs
                  /\ (t' = t
                      \/ ((exists serviceLocator, rpc = HintServerDownRpc serviceLocator)
                          /\ t' = Tablets.set_state Tablets.RECOVERING t)))
               \/ ((exists name, rpc = CreateTableRpc name)
                   /\ Tablets.state t' = Tablets.NORMAL
                   /\ Tablets.table_id t' = wrap32 (nextTableId cs)))
            /\ (forall t, t ∈ tabletMap cs -> Tablets.state t = Tablets.RECOVERING ->
                  (forall name, rpc <> DropTableRpc name) -> t ∈ tabletMap cs1))
    as Hsame.
  { intros cs1 ->. split; [|done]. intros t' Ht'. left. exists t'. by split; [|left]. }
  destruct rpc as [name|name|name|ty loc| | |loc|ts| |n]; simpl;
    try (by apply Hsame); try (unfold openTable; destruct (tables cs !! name); by apply Hsame);
    try (by destruct ty; apply Hsame).
  - unfold createTable.
    destruct (masterList cs) as [|master others]; [by apply Hsame|].
    destruct (tables cs !! name); [by apply Hsame|].
    assert (forall cs1 t0, tabletMap cs1 = tabletMap cs ++ [t0] ->
              Tablets.state t0 = Tablets.NORMAL ->
              Tablets.table_id t0 = wrap32 (nextTableId cs) ->
              (forall t', t' ∈ tabletMap cs1 ->
                 (exists t, t ∈ tabletMap cs
                    /\ (t' = t
                        \/ ((exists serviceLocator,
                               CreateTableRpc name = HintServerDownRpc serviceLocator)
                            /\ t' = Tablets.set_state Tablets.RECOVERING t)))
                 \/ ((exists name0, CreateTableRpc name = CreateTableRpc name0)
                     /\ Tablets.state t' = Tablets.NORMAL
                     /\ Tablets.table_id t' = wrap32 (nextTableId cs)))
              /\ (forall t, t ∈ tabletMap cs ->
                    Tablets.state t = Tablets.RECOVERING ->
                    (forall name0, CreateTableRpc name <> DropTableRpc name0) ->
                    t ∈ tabletMap cs1)) as Hadd.
    { intros cs1 t0 -> Hst Hid. split.
      - intros t' Ht'. apply elem_of_app in Ht' as [Ht'|Ht'].
        + left. exists t'. by split; [|left].
        + apply list_elem_of_singleton in Ht' as ->. right. eauto.
      - intros t Ht _ _. apply elem_of_app. by left. }
    destruct (ServerList.user_data master); by eapply Hadd.
  - unfold dropTable. destruct (tables cs !! name) as [id|]; [|by apply Hsame].
    assert (forall cs1,
              tabletMap cs1 = dropTablets (length (tabletMap cs)) id 0 (tabletMap cs) ->
              (forall t', t' ∈ tabletMap cs1 ->
                 (exists t, t ∈ tabletMap cs
                    /\ (t' = t
                        \/ ((exists serviceLocator,
                               DropTableRpc name = HintServerDownRpc serviceLocator)
                            /\ t' = Tablets.set_state Tablets.RECOVERING t)))
                 \/ ((exists name0, DropTableRpc name = CreateTableRpc name0)
                     /\ Tablets.state t' = Tablets.NORMAL
                     /\ Tablets.table_id t' = wrap32 (nextTableId cs)))
              /\ (forall t, t ∈ tabletMap cs ->
                    Tablets.state t = Tablets.RECOVERING ->
                    (forall name0, DropTableRpc name <> DropTableRpc name0) ->
                    t ∈ tabletMap cs1)) as Hdrop.
    { intros cs1 ->. split.
      - intros t' Ht'. rewrite dropTablets_all in Ht'.
        apply list_elem_of_filter in Ht' as [_ Ht']. left. exists t'.
        by split; [|left].
      - intros t _ _ Hne. by destruct (Hne name). }
    destruct (masterList cs); by apply Hdrop.
  - destruct (hintServerDown_cases loc cs)
      as [(pre & master & post & Hl & Hpre & Hloc & ->)
         |[(Hm & pre & backup & post & Hl & Hpre & Hloc & ->)
          |(Hnone & ->)]]; [|by apply Hsame..].
    simpl. change (map (markRecovering (ServerList.server_id master)) (tabletMap cs))
      with (markRecovering (ServerList.server_id master) <$> tabletMap cs).
    split.
    + intros t' Ht'. apply list_elem_of_fmap in Ht' as (t & -> & Ht).
      left. exists t. split; [done|]. unfold markRecovering.
      destruct (Tablets.server_id t =? ServerList.server_id master);
        [right; eauto|by left].
    + intros t Ht Hst _. apply list_elem_of_fmap. exists t. split; [|done].
      unfold markRecovering.
      destruct (Tablets.server_id t =? ServerList.server_id master); [|done].
      by rewrite set_state_same.
Qed.

(** ** The server id counter *)

Lemma dispatch_nextServerId rpc cs :
  nextServerId (after (dispatch rpc cs))
  = match rpc with
    | EnlistServerRpc _ _ => wrap64 (nextServerId cs + 1)
    | _ => nextServerId cs
    end.
Proof.
  destruct rpc as [name|name|name|ty loc| | |loc|ts| |n]; simpl; try done.
  - unfold createTable. destruct (masterList cs) as [|master others]; [done|].
    destruct (tables cs !! name); [done|].
    by destruct (ServerList.user_data master).
  - unfold dropTable. destruct (tables cs !! name); [|done].
    by destruct (masterList cs).
  - unfold openTable. by destruct (tables cs !! name).
  - by destruct ty.
  - destruct (hintServerDown_cases loc cs)
      as [(pre & master & post & Hl & Hpre & Hloc & ->)
         |[(Hm & pre & backup & post & Hl & Hpre & Hloc & ->)
          |(Hnone & ->)]]; done.
Qed.

Lemma enlisted_bounds rpcs : 0 <= enlisted rpcs <= Z.of_nat (length rpcs).
Proof.
  induction rpcs as [|rpc rpcs IH]; simpl; [lia|].
  destruct rpc; lia.
Qed.

Lemma run_nextServerId rpcs cs0 cs :
  run rpcs cs0 = Some cs ->
  0 <= nextServerId cs0 ->
  nextServerId cs0 + Z.of_nat (length rpcs) < 2 ^ 64 ->
  nextServerId cs = nextServerId cs0 + enlisted rpcs.
Proof.
  revert cs0. induction rpcs as [|rpc rpcs IH]; intros cs0 Hrun H0 Hn.
  - simpl in *. injection Hrun as <-. lia.
  - cbn [run] in Hrun. rewrite length_cons, Nat2Z.inj_succ in Hn.
    assert (run rpcs (after (dispatch rpc cs0)) = Some cs) as Hrest
      by (by destruct (outcome (dispatch rpc cs0))).
    pose proof (dispatch_nextServerId rpc cs0) as Hnext.
    pose proof (enlisted_bounds rpcs) as Hb.
    assert (wrap64 (nextServerId cs0 + 1) = nextServerId cs0 + 1) as Hw
      by (unfold wrap64; apply Z.mod_small; lia).
    rewrite (IH _ Hrest) by (rewrite Hnext; destruct rpc; lia).
    rewrite Hnext. destruct rpc; simpl; lia.
Qed.

(** X16: server ids are handed out in order of enlistment, whatever else
    happens in between: after a run with [k] [enlistServer] requests in it
    (of fewer than 2^64 - 2 requests in all) the counter stands at [k + 1],
    and that is the id the next server to enlist is answered, master or
    backup.  Ids of servers that were hinted down are not given out again. *)
Theorem server_ids_count_enlistments
    (rpcs : list Request) (cs : CoordinatorServer)
    (serverType : ServerList.ServerType) (serviceLocator : string) :
  run rpcs CoordinatorServer_init = Some cs ->
  Z.of_nat (length rpcs) < 2 ^ 64 - 2 ->
  nextServerId cs = 1 + enlisted rpcs
  /\ outcome (dispatch (EnlistServerRpc serverType serviceLocator) cs)
     = Returned (RespServerId (1 + enlisted rpcs))
  /\ nextServerId (after (dispatch (EnlistServerRpc serverType serviceLocator) cs))
     = 2 + enlisted rpcs.
Proof.
  intros Hrun Hn.
  pose proof (enlisted_bounds rpcs) as Hb.
  assert (nextServerId cs = 1 + enlisted rpcs) as Hnext
    by (apply (run_nextServerId rpcs _ cs Hrun); simpl; lia).
  split; [done|]. split; [rewrite <- Hnext; by destruct serverType|].
  rewrite dispatch_nextServerId. unfold wrap64. rewrite Z.mod_small; lia.
Qed.

Lemma server_ids_count_enlistments_witness :
  nextServerId csM1Down = 1 + enlisted (twoMasters ++ [CreateTableRpc "t"; HintServerDownRpc "mock:host=m1"])
  /\ outcome (dispatch (EnlistServerRpc ServerList.MASTER "mock:host=m1") csM1Down)
     = Returned (RespServerId
                   (1 + enlisted (twoMasters ++ [CreateTableRpc "t"; HintServerDownRpc "mock:host=m1"])))
  /\ nextServerId
       (after (dispatch (EnlistServerRpc ServerList.MASTER "mock:host=m1") csM1Down))
     = 2 + enlisted (twoMasters ++ [CreateTableRpc "t"; HintServerDownRpc "mock:host=m1"]).
Proof.
  apply (server_ids_count_enlistments _ csM1Down ServerList.MASTER "mock:host=m1"
           csM1Down_run_init).
  vm_compute. reflexivity.
Defined.

(** ** Calls to the outside *)

(** X17: every [setTablets] call that a request makes carries the whole
    tablet map as the request leaves it, tablets of other masters and
    RECOVERING ones included, and goes to the first master of the list; only
    [createTable] and [dropTable] make one.  No other master is ever told,
    and [hintServerDown] tells no one of the tablets it marks. *)
Theorem setTablets_whole_map_to_first_master
    (rpc : Request) (cs : CoordinatorServer)
    (serviceLocator : string) (tablets : list Tablet) :
  SetTablets serviceLocator tablets ∈ trace (dispatch rpc cs) ->
  tablets = tabletMap (after (dispatch rpc cs))
  /\ (exists first others,
        masterList cs = first :: others
        /\ serviceLocator = ServerList.service_locator first)
  /\ ((exists name, rpc = CreateTableRpc name)
      \/ (exists name, rpc = DropTableRpc name)).
Proof.
  destruct rpc as [name|name|name|ty loc| | |loc|ts| |n]; simpl; intros Hin.
  - unfold createTable in *.
    destruct (masterList cs) as [|master others]; [by apply elem_of_nil in Hin|].
    destruct (tables cs !! name); [by apply elem_of_nil in Hin|].
    destruct (ServerList.user_data master); [|by apply elem_of_nil in Hin].
    simpl in *. trace_cases Hin. injection Hin as -> ->. eauto 10.
  - unfold dropTable in *.
    destruct (tables cs !! name); [|by apply elem_of_nil in Hin].
    destruct (masterList cs) as [|first others]; [by apply elem_of_nil in Hin|].
    simpl in *. trace_cases Hin. injection Hin as -> ->. eauto 10.
  - unfold openTable in Hin. destruct (tables cs !! name); by apply elem_of_nil in Hin.
  - destruct ty; simpl in Hin; trace_cases Hin.
  - by apply elem_of_nil in Hin.
  - by apply elem_of_nil in Hin.
  - unfold hintServerDown in Hin.
    destruct (findLocator loc 0 (masterList cs)) as [[i master]|].
    + destruct (ServerList.user_data master); [destruct (mockRecovery cs)|];
        simpl in Hin; trace_cases Hin.
    + destruct (findLocator loc 0 (backupList cs)) as [[i backup]|];
        simpl in Hin; trace_cases Hin.
  - trace_cases Hin.
  - by apply elem_of_nil in Hin.
  - by apply elem_of_nil in Hin.
Qed.

Lemma setTablets_whole_map_to_first_master_witness :
  [tabletOfT Tablets.RECOVERING 1 "mock:host=m1";
   Tablets.mkTablet 1 0 ULONG_MAX Tablets.NORMAL 2 "mock:host=m2" 0]
  = tabletMap (after (dispatch (CreateTableRpc "u") csM1Down))
  /\ (exists first others,
        masterList csM1Down = first :: others
        /\ "mock:host=m2" = ServerList.service_locator first)
  /\ ((exists name, CreateTableRpc "u" = CreateTableRpc name)
      \/ (exists name, CreateTableRpc "u" = DropTableRpc name)).
Proof.
  apply (setTablets_whole_map_to_first_master (CreateTableRpc "u") csM1Down).
  vm_compute. apply list_elem_of_here.
Defined.




(** ** Enlisting and hinting down *)

Lemma markRecovering_none serverId (l : list Tablet) :
  Forall (fun t => Tablets.server_id t <> serverId) l ->
  map (markRecovering serverId) l = l.
Proof.
  induction 1 as [|t l Ht _ IH]; [done|]. cbn [map]. rewrite IH. f_equal.
  unfold markRecovering. by rewrite (proj2 (Z.eqb_neq _ _) Ht).
Qed.

(** X19: along a run of fewer than 2^32 requests, a server that enlists
    under a locator that no enlisted server has, and is hinted down next, is
    gone without a trace in the lists: master list, backup list, tablet map
    and tables are as before it enlisted, no tablet is marked RECOVERING, and
    if it was a master the recovery is started for an empty will.  Only its
    id is spent. *)
Theorem enlist_then_hintServerDown_round_trip
    (rpcs : list Request) (cs : CoordinatorServer)
    (serverType : ServerList.ServerType) (serviceLocator : string) :
  run rpcs CoordinatorServer_init = Some cs ->
  Z.of_nat (length rpcs) < 2 ^ 32 ->
  Forall (fun e => ServerList.service_locator e <> serviceLocator)
    (masterList cs ++ backupList cs) ->
  let cs1 := after (enlistServer serverType serviceLocator cs) in
  let r := hintServerDown serviceLocator cs1 in
  outcome r = Returned RespEmpty
  /\ masterList (after r) = masterList cs
  /\ backupList (after r) = backupList cs
  /\ tabletMap (after r) = tabletMap cs
  /\ tables (after r) = tables cs
  /\ nextTableId (after r) = nextTableId cs
  /\ nextServerId (after r) = nextServerId cs + 1
  /\ forall serverId will masters backups,
       (RecoveryStart serverId will masters backups ∈ trace r
        \/ MockRecovery serverId will masters backups ∈ trace r) ->
       serverType = ServerList.MASTER /\ serverId = nextServerId cs /\ will = [].
Proof.
  intros Hrun Hn Hfresh cs1 r.
  destruct (run_invariants rpcs cs Hrun Hn)
    as ((Hnext & _) & _ & (Hown & _)).
  apply Forall_app in Hfresh as [Hm Hb].
  assert (wrap64 (nextServerId cs + 1) = nextServerId cs + 1) as Hw
    by (unfold wrap64; apply Z.mod_small; lia).
  assert (map (markRecovering (nextServerId cs)) (tabletMap cs) = tabletMap cs)
    as Hmark.
  { apply markRecovering_none. eapply Forall_impl; [exact Hown|].
    simpl. intros t Ht. lia. }
  subst r cs1. unfold hintServerDown, enlistServer.
  destruct serverType; cbn [after masterList backupList tabletMap tables
                            nextTableId nextServerId mockRecovery].
  - rewrite (findLocator_first serviceLocator 0 (masterList cs)
               (ServerList.mkEntry ServerList.MASTER (nextServerId cs)
                  serviceLocator (Some [])) [] Hm eq_refl).
    cbn [ServerList.user_data ServerList.server_id Nat.add].
    rewrite swapRemove_last, Hmark, Hw.
    destruct (mockRecovery cs); simpl;
      (split; [done|]); (split; [done|]); (split; [done|]); (split; [done|]);
      (split; [done|]); (split; [done|]); (split; [done|]);
      intros serverId will masters backups [Hin|Hin]; trace_cases Hin;
      injection Hin as ? ? ? ?; by subst serverId will.
  - rewrite (proj2 (findLocator_None serviceLocator 0 (masterList cs)) Hm).
    rewrite (findLocator_first serviceLocator 0 (backupList cs)
               (ServerList.mkEntry ServerList.BACKUP (nextServerId cs)
                  serviceLocator None) [] Hb eq_refl).
    cbn [Nat.add]. rewrite swapRemove_last, Hw. simpl.
    (split; [done|]); (split; [done|]); (split; [done|]); (split; [done|]);
      (split; [done|]); (split; [done|]); (split; [done|]).
    intros serverId will masters backups [Hin|Hin]; trace_cases Hin.
Qed.

Lemma enlist_then_hintServerDown_round_trip_witness :
  let cs1 := after (enlistServer ServerList.MASTER "mock:host=m3" csTableT) in
  let r := hintServerDown "mock:host=m3" cs1 in
  outcome r = Returned RespEmpty
  /\ masterList (after r) = masterList csTableT
  /\ backupList (after r) = backupList csTableT
  /\ tabletMap (after r) = tabletMap csTableT
  /\ tables (after r) = tables csTableT
  /\ nextTableId (after r) = nextTableId csTableT
  /\ nextServerId (after r) = nextServerId csTableT + 1
  /\ forall serverId will masters backups,
       (RecoveryStart serverId will masters backups ∈ trace r
        \/ MockRecovery serverId will masters backups ∈ trace r) ->
       ServerList.MASTER = ServerList.MASTER
       /\ serverId = nextServerId csTableT /\ will = [].
Proof.
  apply (enlist_then_hintServerDown_round_trip _ csTableT ServerList.MASTER
           "mock:host=m3" csTableT_run_init).
  - vm_compute. reflexivity.
  - repeat constructor; simpl; discriminate.
Defined.

(** ** Undefined behaviour *)

Lemma csNoMaster_run : run requestsNoMaster CoordinatorServer_init = Some csNoMaster.
Proof. vm_compute. reflexivity. Qed.

Lemma csNoMaster_reachable : reachable csNoMaster.
Proof. exact (run_reachable _ _ _ reachable_init csNoMaster_run). Qed.

(** X20: in a reachable state the only request whose handling is undefined
    is a [dropTable] of an existing table while the master list is empty
    (the read of [masterList.server(0)]).  Every other request returns or
    throws: [createTable] and [hintServerDown] never meet a master without a
    will. *)
Theorem only_dropTable_without_master_is_undefined
    (rpc : Request) (cs : CoordinatorServer) :
  reachable cs ->
  outcome (dispatch rpc cs) = Undefined ->
  exists name tableId,
    rpc = DropTableRpc name
    /\ tables cs !! name = Some tableId
    /\ masterList cs = [].
Proof.
  intros Hr Hu. destruct (reachable_listsTyped cs Hr) as [Hm _].
  destruct rpc as [name|name|name|ty loc| | |loc|ts| |n]; simpl in Hu;
    try discriminate Hu.
  - exfalso. unfold createTable in Hu.
    destruct (masterList cs) as [|master others]; [done|].
    apply Forall_cons in Hm as [[_ [will Hw]] _].
    destruct (tables cs !! name); [done|]. by rewrite Hw in Hu.
  - unfold dropTable in Hu. destruct (tables cs !! name) as [id|] eqn:Hn; [|done].
    destruct (masterList cs); [|done]. by exists name, id.
  - exfalso. unfold openTable in Hu. by destruct (tables cs !! name).
  - exfalso. by destruct ty.
  - exfalso. unfold hintServerDown in Hu.
    destruct (findLocator loc 0 (masterList cs)) as [[i master]|] eqn:Hf.
    + destruct (findLocator_Some _ _ _ _ _ Hf) as (pre & post & Hl & _).
      rewrite Hl in Hm. apply Forall_app in Hm as [_ Hm].
      apply Forall_cons in Hm as [[_ [will Hw]] _].
      rewrite Hw in Hu. by destruct (mockRecovery cs).
    + by destruct (findLocator loc 0 (backupList cs)) as [[i backup]|].
Qed.

Lemma only_dropTable_without_master_is_undefined_witness :
  exists name tableId,
    DropTableRpc "t" = DropTableRpc name
    /\ tables csNoMaster !! name = Some tableId
    /\ masterList csNoMaster = [].
Proof.
  exact (only_dropTable_without_master_is_undefined (DropTableRpc "t") csNoMaster
           csNoMaster_reachable eq_refl).
Defined.

(** ** What a client reads *)

(** X21: along a run of fewer than 2^32 requests, a client that is answered
    a table id by [openTable] finds the table in the answer of
    [getTabletMap]: exactly one tablet there has that table id, and it
    covers the whole key range.  Neither request changes the coordinator. *)
Theorem client_finds_tablet_of_open_table
    (rpcs : list Request) (cs : CoordinatorServer) (name : string) (tableId : Z) :
  run rpcs CoordinatorServer_init = Some cs ->
  Z.of_nat (length rpcs) < 2 ^ 32 ->
  outcome (dispatch (OpenTableRpc name) cs) = Returned (RespTableId tableId) ->
  after (dispatch (OpenTableRpc name) cs) = cs
  /\ after (dispatch GetTabletMapRpc cs) = cs
  /\ exists tablets t,
       outcome (dispatch GetTabletMapRpc cs) = Returned (RespTabletMap tablets)
       /\ t ∈ tablets
       /\ Tablets.table_id t = tableId
       /\ Tablets.start_object_id t = 0
       /\ Tablets.end_object_id t = 2 ^ 64 - 1
       /\ forall t', t' ∈ tablets -> Tablets.table_id t' = tableId -> t' = t.
Proof.
  intros Hrun Hn Hopen.
  destruct (run_invariants rpcs cs Hrun Hn) as (_ & (_ & _ & Hnd & Hp & Hr) & _).
  simpl in *. unfold openTable in *.
  destruct (tables cs !! name) as [id|] eqn:Hname; [|done].
  injection Hopen as ->. split; [done|]. split; [done|].
  assert (tableId ∈ Tablets.table_id <$> tabletMap cs) as Hin
    by (rewrite Hp; apply elem_of_tableIds; eauto).
  apply list_elem_of_fmap in Hin as (t & Ht & Hin).
  rewrite Forall_forall in Hr. destruct (Hr t Hin) as [Hs He].
  exists (tabletMap cs), t.
  split; [done|]. split; [done|]. split; [done|]. split; [done|]. split; [done|].
  intros t' Hin' Ht'. rewrite <- Hp in Hnd.
  apply (NoDup_fmap_elem_inj Tablets.table_id (tabletMap cs)); [done..|].
  by rewrite Ht'.
Qed.

Lemma client_finds_tablet_of_open_table_witness :
  after (dispatch (OpenTableRpc "t") csM1Down) = csM1Down
  /\ after (dispatch GetTabletMapRpc csM1Down) = csM1Down
  /\ exists tablets t,
       outcome (dispatch GetTabletMapRpc csM1Down) = Returned (RespTabletMap tablets)
       /\ t ∈ tablets
       /\ Tablets.table_id t = 0
       /\ Tablets.start_object_id t = 0
       /\ Tablets.end_object_id t = 2 ^ 64 - 1
       /\ forall t', t' ∈ tablets -> Tablets.table_id t' = 0 -> t' = t.
Proof.
  apply (client_finds_tablet_of_open_table _ csM1Down "t" 0 csM1Down_run_init).
  - vm_compute. reflexivity.
  - reflexivity.
Defined.
